(** * The QOI codec of the GIMP file-qoi plug-in

    A shallow embedding of [load_image] and [save_image] of
    [src/file-qoi.c], with the helpers they call and the functions of the
    plug-in that call them; the properties of the codec that the
    specification states about them, and further properties that the code
    shows.

    Conventions of the embedding:
    - a [guint8] is a [byte]; [u8] reads it as a number in 0..255 and
      [to_u8] is the C conversion to [guint8] (reduction modulo 256);
    - a [guint32] is a [Z] with the reduction modulo 2^32 written where
      the C expression is evaluated in 32 bits ([wrap32]);
    - the contents of the file are a [list byte]; reading and writing the
      file itself (fopen, fread, fwrite) is outside the model:
      [load_header] and [load_image] start where the file has been read,
      at the test of its size, and take the header from its 14 bytes;
      [load_header_of_file] adds, for a file read without an error, what
      comes before and the copy of the header as the code makes it;
    - [file_size] and [file_index] are signed ([gint], [gint32]) and are
      integers here: [load_image] is modelled for the files that
      [fread] can hand to it, whose size, with 8 added, is below 2^31;
      [save_image] tells when its [file_index] would pass 2^31 - 1;
    - [size_t] has 64 bits, a [QoiPixel] is 4 bytes and a [QoiHeader]
      16;
    - what GIMP and GEGL answer to [run], to
      [create_gimp_image_from_qoi_image] and to [get_qoi_image_from_gimp]
      is an argument of their models; the dialog of the export and the
      registration of the procedures ([show_export_dialog], [query]) are
      outside the model;
    - [gimp_progress_*] and [g_message] calls have no effect on the
      result and are left out; the message decides the [load_error]. *)

From stdpp Require Import base list.
From coqutil Require Import Byte Z.bitblast.
From Stdlib Require Import ZArith Lia.
Local Open Scope Z_scope.

(** ** Machine integers *)

Abbreviation u8 := byte.unsigned.
Abbreviation to_u8 := byte.of_Z.

Definition wrap32 (z : Z) : Z := z mod 2 ^ 32.

#[global] Instance byte_inhabited : Inhabited byte := populate Byte.x00.
#[global] Instance byte_eq_dec : EqDecision byte := Byte.byte_eq_dec.

(** ** Constants of the format *)

Definition QOI_HEADER_SIZE : Z := 14.
Definition QOI_END_MARKER_SIZE : Z := 8.
Definition QOI_MAX_BYTES_PER_PIXEL : Z := 5.

Definition QOI_CHANNELS_RGB : Z := 3.
Definition QOI_CHANNELS_RGBA : Z := 4.

Definition QOI_SMALL_TAG_MASK : Z := 0xC0.
Definition QOI_OP_RGB : Z := 0xFE.
Definition QOI_OP_RGBA : Z := 0xFF.
Definition QOI_OP_INDEX : Z := 0x00.
Definition QOI_OP_DIFF : Z := 0x40.
Definition QOI_OP_LUMA : Z := 0x80.
Definition QOI_OP_RUN : Z := 0xC0.

Definition QOI_MAX_RUN_LENGTH : Z := 62.
Definition QOI_DIFF_LOWER_BOUND : Z := -2.
Definition QOI_DIFF_UPPER_BOUND : Z := 1.
Definition QOI_LUMA_GREEN_LOWER_BOUND : Z := -32.
Definition QOI_LUMA_GREEN_UPPER_BOUND : Z := 31.
Definition QOI_LUMA_RED_BLUE_LOWER_BOUND : Z := -8.
Definition QOI_LUMA_RED_BLUE_UPPER_BOUND : Z := 7.

(** ** Data *)

Record QoiPixel : Type := {
  red : byte;
  green : byte;
  blue : byte;
  alpha : byte;
}.

#[global] Instance QoiPixel_eq_dec : EqDecision QoiPixel.
Proof. solve_decision. Defined.

(** The zero-initialised pixel of [QoiPixel array[64] = { 0 }]; it is also
    what a read outside a list yields in the model (no such read happens
    on the paths the theorems cover). *)
Definition zero_pixel : QoiPixel :=
  {| red := Byte.x00; green := Byte.x00; blue := Byte.x00; alpha := Byte.x00 |}.

#[global] Instance QoiPixel_inhabited : Inhabited QoiPixel := populate zero_pixel.

(** [{ .alpha = 255 }]: the previous pixel at the start of a pass. *)
Definition start_pixel : QoiPixel :=
  {| red := Byte.x00; green := Byte.x00; blue := Byte.x00; alpha := Byte.xff |}.

Inductive QoiColorspace : Type :=
| QOI_COLORSPACE_SRGB
| QOI_COLORSPACE_LINEAR
| QOI_COLORSPACE_COUNT.

Definition colorspace_value (c : QoiColorspace) : Z :=
  match c with
  | QOI_COLORSPACE_SRGB => 0
  | QOI_COLORSPACE_LINEAR => 1
  | QOI_COLORSPACE_COUNT => 2
  end.

Record QoiImage : Type := {
  pixels : list QoiPixel;
  width : Z;
  height : Z;
  colorspace : QoiColorspace;
  has_alpha : bool;
}.

Record QoiHeader : Type := {
  magic : list byte;
  h_width : Z;
  h_height : Z;
  channels : byte;
  h_colorspace : byte;
}.

Definition QOI_END_MARKER : list byte :=
  [Byte.x00; Byte.x00; Byte.x00; Byte.x00; Byte.x00; Byte.x00; Byte.x00; Byte.x01].

(** The four characters of ["qoif"]. *)
Definition QOI_MAGIC : list byte := [Byte.x71; Byte.x6f; Byte.x69; Byte.x66].

(** ** Helpers *)

(** The branch for a little-endian host; on a big-endian host the
    function is the identity and the loads and stores below are
    big-endian, which gives the same bytes and the same numbers. *)
Definition guint32_swap_local_and_big_endian (value : Z) : Z :=
  Z.lor
    (Z.lor
       (Z.lor (Z.shiftr (Z.land value 0xFF000000) 24)
              (Z.shiftr (Z.land value 0x00FF0000) 8))
       (Z.shiftl (Z.land value 0x0000FF00) 8))
    (Z.shiftl (Z.land value 0x000000FF) 24).

Definition qoi_pixel_equal (a b : QoiPixel) : bool :=
  (u8 (red a) =? u8 (red b)) && (u8 (green a) =? u8 (green b))
  && (u8 (blue a) =? u8 (blue b)) && (u8 (alpha a) =? u8 (alpha b)).

Definition qoi_pixel_hash (pixel : QoiPixel) : Z :=
  (u8 (red pixel) * 3 + u8 (green pixel) * 5 + u8 (blue pixel) * 7
   + u8 (alpha pixel) * 11) mod 64.

(** [file_data[i]]. *)
Definition byte_at (file_data : list byte) (i : Z) : byte :=
  file_data !!! Z.to_nat i.

(** The [n] bytes that start at [&file_data[i]]. *)
Definition bytes_at (file_data : list byte) (i : Z) (n : nat) : list byte :=
  take n (drop (Z.to_nat i) file_data).

(** [memcmp(&file_data[i], pattern, sizeof pattern) == 0]. *)
Definition memcmp_eq (file_data : list byte) (i : Z) (pattern : list byte) : bool :=
  bool_decide (bytes_at file_data i (length pattern) = pattern).

(** A [guint32] loaded from, and stored to, four bytes by a little-endian
    host. *)
Definition guint32_load (file_data : list byte) (i : Z) : Z :=
  u8 (byte_at file_data i) + u8 (byte_at file_data (i + 1)) * 2 ^ 8
  + u8 (byte_at file_data (i + 2)) * 2 ^ 16 + u8 (byte_at file_data (i + 3)) * 2 ^ 24.

Definition guint32_store (value : Z) : list byte :=
  [to_u8 value; to_u8 (Z.shiftr value 8); to_u8 (Z.shiftr value 16);
   to_u8 (Z.shiftr value 24)].

(** [*(QoiHeader * ) &file_data[i]]: the fields lie at offsets 0, 4, 8, 12
    and 13 of the structure. *)
Definition header_load (file_data : list byte) (i : Z) : QoiHeader :=
  {| magic := bytes_at file_data i 4;
     h_width := guint32_load file_data (i + 4);
     h_height := guint32_load file_data (i + 8);
     channels := byte_at file_data (i + 12);
     h_colorspace := byte_at file_data (i + 13) |}.

Definition header_store (header : QoiHeader) : list byte :=
  magic header ++ guint32_store (h_width header) ++ guint32_store (h_height header)
  ++ [channels header; h_colorspace header].

(** ** [load_image] *)

(** What [load_image] reports with [g_message] before it returns [false]:
    - [UnexpectedEof]: "The file ends unexpectedly."
    - [BadMagic]: "'%s' is not a valid QOI file."
    - [UnsupportedChannels]: "Unsupported or unknown number of channels: %u."
    - [UnsupportedColorspace]: "Unsupported or unknown colorspace: %u."
    - [InvalidDimensions]: "Invalid or unsupported width: %u." and the same
      for the height
    - [AllocationFailure]: "Failed to acquire storage for pixels."
    - [InvalidRunLength]: "Too many encoded pixels."
    - [InvalidEndMarker]: "Invalid end marker."
    - [TrailingData]: "File contains data past the end marker." *)
Inductive load_error : Type :=
| UnexpectedEof
| BadMagic
| UnsupportedChannels
| UnsupportedColorspace
| InvalidDimensions
| AllocationFailure
| InvalidRunLength
| InvalidEndMarker
| TrailingData.

(** The local variables of the chunk loop. [l_pixels] holds
    [result->pixels[0 .. pixel_index)]: the loop stores at [pixel_index++]
    only, so the pixels stored so far are a list and [pixel_index] is its
    length. *)
Record load_state : Type := {
  l_file_index : Z;
  l_current_pixel : QoiPixel;
  l_array : list QoiPixel;
  l_pixels : list QoiPixel;
}.

Definition pixel_index (st : load_state) : Z := Z.of_nat (length (l_pixels st)).

Definition load_start (file_index : Z) : load_state :=
  {| l_file_index := file_index;
     l_current_pixel := start_pixel;
     l_array := replicate 64 zero_pixel;
     l_pixels := [] |}.

(** One pass through the body of the [while] loop ends in one of: *)
Inductive chunk_result : Type :=
| Continue (st : load_state)      (* next iteration *)
| EndMarkerSeen (st : load_state) (* [break] *)
| Fail (e : load_error)           (* [return false] *)
| StoreOutOfBounds.               (* a store past the end of [result->pixels] *)

Section LoadChunks.
Variable file_data : list byte.
Variable max_pixel_index : Z.

Definition file_size : Z := Z.of_nat (length file_data).

(** [file_data[file_index++]] *)
Definition next_byte (st : load_state) : byte * load_state :=
  (byte_at file_data (l_file_index st),
   {| l_file_index := l_file_index st + 1;
      l_current_pixel := l_current_pixel st;
      l_array := l_array st;
      l_pixels := l_pixels st |}).

Definition set_current_pixel (pixel : QoiPixel) (st : load_state) : load_state :=
  {| l_file_index := l_file_index st;
     l_current_pixel := pixel;
     l_array := l_array st;
     l_pixels := l_pixels st |}.

(** [result->pixels[pixel_index++] = current_pixel], [count] times. The
    block that [g_try_malloc] returned has room for [max_pixel_index]
    pixels; C gives no meaning to a store past its end, and the model
    stops there with [StoreOutOfBounds]. *)
Definition store_pixels (count : Z) (st : load_state) : chunk_result :=
  if pixel_index st + count <=? max_pixel_index then
    Continue {| l_file_index := l_file_index st;
                l_current_pixel := l_current_pixel st;
                l_array := l_array st;
                l_pixels := l_pixels st
                            ++ replicate (Z.to_nat count) (l_current_pixel st) |}
  else StoreOutOfBounds.

(** [array[qoi_pixel_hash(current_pixel)] = current_pixel] *)
Definition cache_current_pixel (st : load_state) : load_state :=
  {| l_file_index := l_file_index st;
     l_current_pixel := l_current_pixel st;
     l_array := <[Z.to_nat (qoi_pixel_hash (l_current_pixel st)) := l_current_pixel st]>
                  (l_array st);
     l_pixels := l_pixels st |}.

(** The store to [result->pixels] followed by the store to [array]. *)
Definition store_and_cache (st : load_state) : chunk_result :=
  match store_pixels 1 st with
  | Continue st' => Continue (cache_current_pixel st')
  | r => r
  end.

Definition load_chunk (st : load_state) : chunk_result :=
  if file_size <? l_file_index st + QOI_END_MARKER_SIZE then Fail UnexpectedEof
  else
    let '(tag, st) := next_byte st in
    let current_pixel := l_current_pixel st in
    if u8 tag =? QOI_OP_RGB then
      let '(r, st) := next_byte st in
      let '(g, st) := next_byte st in
      let '(b, st) := next_byte st in
      store_and_cache
        (set_current_pixel
           {| red := r; green := g; blue := b; alpha := alpha current_pixel |} st)
    else if u8 tag =? QOI_OP_RGBA then
      let '(r, st) := next_byte st in
      let '(g, st) := next_byte st in
      let '(b, st) := next_byte st in
      let '(a, st) := next_byte st in
      store_and_cache
        (set_current_pixel {| red := r; green := g; blue := b; alpha := a |} st)
    else if Z.land (u8 tag) QOI_SMALL_TAG_MASK =? QOI_OP_INDEX then
      if memcmp_eq file_data (l_file_index st - 1) QOI_END_MARKER then EndMarkerSeen st
      else
        let index := to_u8 (Z.land (u8 tag) 0x3F) in
        store_pixels 1 (set_current_pixel (l_array st !!! Z.to_nat (u8 index)) st)
    else if Z.land (u8 tag) QOI_SMALL_TAG_MASK =? QOI_OP_DIFF then
      let dr := Z.land (Z.shiftr (u8 tag) 4) 0x03 + QOI_DIFF_LOWER_BOUND in
      let dg := Z.land (Z.shiftr (u8 tag) 2) 0x03 + QOI_DIFF_LOWER_BOUND in
      let db := Z.land (Z.shiftr (u8 tag) 0) 0x03 + QOI_DIFF_LOWER_BOUND in
      store_and_cache
        (set_current_pixel
           {| red := to_u8 (u8 (red current_pixel) + dr);
              green := to_u8 (u8 (green current_pixel) + dg);
              blue := to_u8 (u8 (blue current_pixel) + db);
              alpha := alpha current_pixel |} st)
    else if Z.land (u8 tag) QOI_SMALL_TAG_MASK =? QOI_OP_LUMA then
      let '(dr_db, st) := next_byte st in
      let dg := Z.land (u8 tag) 0x3F + QOI_LUMA_GREEN_LOWER_BOUND in
      let dr := Z.land (Z.shiftr (u8 dr_db) 4) 0x0F + QOI_LUMA_RED_BLUE_LOWER_BOUND + dg in
      let db := Z.land (Z.shiftr (u8 dr_db) 0) 0x0F + QOI_LUMA_RED_BLUE_LOWER_BOUND + dg in
      store_and_cache
        (set_current_pixel
           {| red := to_u8 (u8 (red current_pixel) + dr);
              green := to_u8 (u8 (green current_pixel) + dg);
              blue := to_u8 (u8 (blue current_pixel) + db);
              alpha := alpha current_pixel |} st)
    else if Z.land (u8 tag) QOI_SMALL_TAG_MASK =? QOI_OP_RUN then
      let run := to_u8 (Z.land (u8 tag) 0x3F + 1) in
      if pixel_index st >? max_pixel_index + u8 run then Fail InvalidRunLength
      else store_pixels (u8 run) st
    else Continue st.

(** What the [while] loop as a whole ends in. *)
Inductive loop_result : Type :=
| LoopDone (st : load_state)
| LoopFail (e : load_error)
| LoopOutOfBounds
| LoopFuel.

(** [while (pixel_index < max_pixel_index) { ... }]. Every pass that
    continues stores a pixel, so [max_pixel_index] passes are enough
    ([load_chunks_fuel]); [LoopFuel] marks a loop cut short by [fuel]. *)
Fixpoint load_chunks (fuel : nat) (st : load_state) : loop_result :=
  if pixel_index st <? max_pixel_index then
    match fuel with
    | O => LoopFuel
    | S fuel' =>
        match load_chunk st with
        | Continue st' => load_chunks fuel' st'
        | EndMarkerSeen st' => LoopDone st'
        | Fail e => LoopFail e
        | StoreOutOfBounds => LoopOutOfBounds
        end
    end
  else LoopDone st.
End LoadChunks.

(** The checks that follow the [while] loop: the end marker has to be the
    eight bytes at [file_index], and the last ones of the file. *)
Definition check_end_marker (file_data : list byte) (st : load_state) : option load_error :=
  if file_size file_data <? l_file_index st + QOI_END_MARKER_SIZE then Some UnexpectedEof
  else if negb (memcmp_eq file_data (l_file_index st) QOI_END_MARKER)
  then Some InvalidEndMarker
  else if negb (l_file_index st + QOI_END_MARKER_SIZE =? file_size file_data)
  then Some TrailingData
  else None.

(** The part of [load_image] that reads and checks the header. It fills
    every field of [result] except [pixels]. *)
Section LoadImage.
(** [GIMP_MAX_IMAGE_SIZE] comes from the headers of libgimp, which are not
    part of the repository; the development holds for any value of it. *)
Variable GIMP_MAX_IMAGE_SIZE : Z.

Definition load_header (file_data : list byte) : load_error + QoiImage :=
  let file_index := 0 in
  if file_size file_data <? file_index + QOI_HEADER_SIZE then inl UnexpectedEof
  else
    let header := header_load file_data file_index in
    if negb (bool_decide (magic header = QOI_MAGIC)) then inl BadMagic
    else
      let channels_ok :=
        if u8 (channels header) =? QOI_CHANNELS_RGB then Some false
        else if u8 (channels header) =? QOI_CHANNELS_RGBA then Some true
        else None in
      match channels_ok with
      | None => inl UnsupportedChannels
      | Some result_has_alpha =>
          let colorspace_ok :=
            if u8 (h_colorspace header) =? colorspace_value QOI_COLORSPACE_SRGB
            then Some QOI_COLORSPACE_SRGB
            else if u8 (h_colorspace header) =? colorspace_value QOI_COLORSPACE_LINEAR
            then Some QOI_COLORSPACE_LINEAR
            else None in
          match colorspace_ok with
          | None => inl UnsupportedColorspace
          | Some result_colorspace =>
              let result_width := guint32_swap_local_and_big_endian (h_width header) in
              let result_height := guint32_swap_local_and_big_endian (h_height header) in
              if (result_width =? 0) || (result_width >? GIMP_MAX_IMAGE_SIZE)
              then inl InvalidDimensions
              else if (result_height =? 0) || (result_height >? GIMP_MAX_IMAGE_SIZE)
              then inl InvalidDimensions
              else inr {| pixels := [];
                          width := result_width;
                          height := result_height;
                          colorspace := result_colorspace;
                          has_alpha := result_has_alpha |}
          end
      end.

(** What a call of [load_image] ends in: [true] with [result] filled in,
    [false] after a message, or a store outside [result->pixels]. *)
Inductive load_result : Type :=
| Loaded (image : QoiImage)
| Rejected (e : load_error)
| LoadOutOfBounds
| LoadFuel.

(** [load_image], from the point where the file has been read into
    [file_data]. [g_try_malloc] returns NULL for a request of zero bytes;
    any other request is taken to be granted. *)
Definition load_image (file_data : list byte) : load_result :=
  match load_header file_data with
  | inl e => Rejected e
  | inr result =>
      let file_index := QOI_HEADER_SIZE in
      let max_pixel_index := wrap32 (width result * height result) in
      if max_pixel_index * 4 =? 0 then Rejected AllocationFailure
      else
        match load_chunks file_data max_pixel_index (Z.to_nat max_pixel_index)
                (load_start file_index) with
        | LoopFail e => Rejected e
        | LoopOutOfBounds => LoadOutOfBounds
        | LoopFuel => LoadFuel
        | LoopDone st =>
            match check_end_marker file_data st with
            | Some e => Rejected e
            | None => Loaded {| pixels := l_pixels st;
                                width := width result;
                                height := height result;
                                colorspace := colorspace result;
                                has_alpha := has_alpha result |}
            end
        end
  end.
End LoadImage.

(** ** The start of [load_image]: the file read, the header copied *)

(** [sizeof (QoiHeader)]: four bytes of magic, two [guint32], two
    [guint8], and two bytes of padding that the alignment of [guint32]
    asks for. *)
Definition sizeof_QoiHeader : Z := 16.

(** What [load_image] has come to when the tests of the header are over. *)
Inductive header_result : Type :=
| HeaderLoaded (result : QoiImage)
| HeaderRejected (e : load_error)
| CouldNotRead
| HeaderCopyOutOfBounds.

(** [load_image] from its first line to the last test of the header, for a
    file of bytes [contents] that [fopen], [fseek], [ftell] and [fread]
    handle without an error. [g_try_malloc (file_size)] returns NULL when
    [file_size] is zero, and the code answers NULL with "Could not read
    from file."; any other request is taken to be granted. The copy
    [header = *(QoiHeader * ) &file_data[file_index]] reads
    [sizeof (QoiHeader)] bytes of a block of [file_size] bytes, after a
    test for [QOI_HEADER_SIZE] bytes only; C gives no meaning to a read
    past the end of the block, and the model stops there with
    [HeaderCopyOutOfBounds]. *)
Definition load_header_of_file (GIMP_MAX_IMAGE_SIZE : Z) (contents : list byte)
    : header_result :=
  let size := file_size contents in
  let file_data := if size =? 0 then None else Some contents in
  match file_data with
  | None => CouldNotRead
  | Some file_data =>
      let file_index := 0 in
      if size <? file_index + QOI_HEADER_SIZE then HeaderRejected UnexpectedEof
      else if size <? file_index + sizeof_QoiHeader then HeaderCopyOutOfBounds
      else
        match load_header GIMP_MAX_IMAGE_SIZE file_data with
        | inl e => HeaderRejected e
        | inr result => HeaderLoaded result
        end
  end.

(** ** [save_image] *)

(** The local variables of the pixel loop. [s_file_data] holds
    [file_data[0 .. file_index)]: the function stores at [file_index++]
    only, so the bytes stored so far are a list and [file_index] is its
    length. *)
Record save_state : Type := {
  s_file_data : list byte;
  s_pixel_index : Z;
  s_previous_pixel : QoiPixel;
  s_array : list QoiPixel;
}.

Definition save_start (file_data : list byte) : save_state :=
  {| s_file_data := file_data;
     s_pixel_index := 0;
     s_previous_pixel := start_pixel;
     s_array := replicate 64 zero_pixel |}.

(** [file_data[file_index++] = value] *)
Definition put (value : Z) (st : save_state) : save_state :=
  {| s_file_data := s_file_data st ++ [to_u8 value];
     s_pixel_index := s_pixel_index st;
     s_previous_pixel := s_previous_pixel st;
     s_array := s_array st |}.

(** [++pixel_index] *)
Definition next_pixel (st : save_state) : save_state :=
  {| s_file_data := s_file_data st;
     s_pixel_index := s_pixel_index st + 1;
     s_previous_pixel := s_previous_pixel st;
     s_array := s_array st |}.

(** [previous_pixel = current_pixel] *)
Definition set_previous_pixel (pixel : QoiPixel) (st : save_state) : save_state :=
  {| s_file_data := s_file_data st;
     s_pixel_index := s_pixel_index st;
     s_previous_pixel := pixel;
     s_array := s_array st |}.

(** [array[hash] = current_pixel] *)
Definition set_array (hash : Z) (pixel : QoiPixel) (st : save_state) : save_state :=
  {| s_file_data := s_file_data st;
     s_pixel_index := s_pixel_index st;
     s_previous_pixel := s_previous_pixel st;
     s_array := <[Z.to_nat hash := pixel]> (s_array st) |}.

Section SavePixels.
Variable image : QoiImage.
Variable max_pixel_index : Z.

(** [image.pixels[i]] *)
Definition pixel_at (i : Z) : QoiPixel := pixels image !!! Z.to_nat i.

(** The [while (process_next)] loop of the run branch, entered with
    [process_next] true; [run] is the [guint8] counter. [None] marks a
    loop cut short by [fuel] ([save_run_total]: it does not happen). *)
Fixpoint save_run (fuel : nat) (run : byte) (st : save_state) : option save_state :=
  match fuel with
  | O => None
  | S fuel' =>
      let run := to_u8 (u8 run + 1) in
      let st := next_pixel st in
      let process_next :=
        (s_pixel_index st <? max_pixel_index)
        && qoi_pixel_equal (s_previous_pixel st) (pixel_at (s_pixel_index st)) in
      let '(run, st) :=
        if (u8 run =? QOI_MAX_RUN_LENGTH) || negb process_next
        then (to_u8 0, put (Z.lor QOI_OP_RUN (u8 run - 1)) st)
        else (run, st) in
      if process_next then save_run fuel' run st else Some st
  end.

(** The body of the [for] loop. *)
Definition save_pixel (st : save_state) : option save_state :=
  let current_pixel := pixel_at (s_pixel_index st) in
  let hash := qoi_pixel_hash current_pixel in
  let previous_pixel := s_previous_pixel st in
  if qoi_pixel_equal previous_pixel current_pixel then
    save_run (Z.to_nat (max_pixel_index - s_pixel_index st)) (to_u8 0) st
  else if qoi_pixel_equal current_pixel (s_array st !!! Z.to_nat hash) then
    Some (next_pixel (set_previous_pixel current_pixel (put (Z.lor QOI_OP_INDEX hash) st)))
  else if negb (has_alpha image) || (u8 (alpha current_pixel) =? u8 (alpha previous_pixel)) then
    let dr := u8 (red current_pixel) - u8 (red previous_pixel) in
    let dg := u8 (green current_pixel) - u8 (green previous_pixel) in
    let db := u8 (blue current_pixel) - u8 (blue previous_pixel) in
    let dr_dg := dr - dg in
    let db_dg := db - dg in
    let st :=
      if (QOI_DIFF_LOWER_BOUND <=? dr) && (dr <=? QOI_DIFF_UPPER_BOUND)
         && (QOI_DIFF_LOWER_BOUND <=? dg) && (dg <=? QOI_DIFF_UPPER_BOUND)
         && (QOI_DIFF_LOWER_BOUND <=? db) && (db <=? QOI_DIFF_UPPER_BOUND)
      then
        put (Z.lor
               (Z.lor
                  (Z.lor QOI_OP_DIFF (Z.shiftl (dr - QOI_DIFF_LOWER_BOUND) 4))
                  (Z.shiftl (dg - QOI_DIFF_LOWER_BOUND) 2))
               (Z.shiftl (db - QOI_DIFF_LOWER_BOUND) 0)) st
      else if (QOI_LUMA_GREEN_LOWER_BOUND <=? dg) && (dg <=? QOI_LUMA_GREEN_UPPER_BOUND)
              && (QOI_LUMA_RED_BLUE_LOWER_BOUND <=? dr_dg)
              && (dr_dg <=? QOI_LUMA_RED_BLUE_UPPER_BOUND)
              && (QOI_LUMA_RED_BLUE_LOWER_BOUND <=? db_dg)
              && (db_dg <=? QOI_LUMA_RED_BLUE_UPPER_BOUND)
      then
        put (Z.lor (Z.shiftl (dr_dg - QOI_LUMA_RED_BLUE_LOWER_BOUND) 4)
                   (Z.shiftl (db_dg - QOI_LUMA_RED_BLUE_LOWER_BOUND) 0))
          (put (Z.lor QOI_OP_LUMA (dg - QOI_LUMA_GREEN_LOWER_BOUND)) st)
      else
        put (u8 (blue current_pixel))
          (put (u8 (green current_pixel))
             (put (u8 (red current_pixel)) (put QOI_OP_RGB st))) in
    Some (next_pixel (set_previous_pixel current_pixel (set_array hash current_pixel st)))
  else
    let st :=
      put (u8 (alpha current_pixel))
        (put (u8 (blue current_pixel))
           (put (u8 (green current_pixel))
              (put (u8 (red current_pixel)) (put QOI_OP_RGBA st)))) in
    Some (next_pixel (set_previous_pixel current_pixel (set_array hash current_pixel st))).

(** [for (pixel_index = 0; pixel_index < max_pixel_index;) { ... }]. Every
    pass moves [pixel_index] forward, so [max_pixel_index] passes are
    enough ([save_pixels_total]); [None] marks a loop cut short by [fuel]. *)
Fixpoint save_pixels (fuel : nat) (st : save_state) : option save_state :=
  if s_pixel_index st <? max_pixel_index then
    match fuel with
    | O => None
    | S fuel' =>
        match save_pixel st with
        | Some st' => save_pixels fuel' st'
        | None => None
        end
    end
  else Some st.
End SavePixels.

(** The size of the request to [g_try_malloc]: the sum is evaluated in
    [guint32]. *)
Definition save_alloc_size (image : QoiImage) : Z :=
  wrap32 (wrap32 (QOI_HEADER_SIZE
                  + wrap32 (wrap32 (width image * height image) * QOI_MAX_BYTES_PER_PIXEL))
          + QOI_END_MARKER_SIZE).

Definition save_header (image : QoiImage) : QoiHeader :=
  {| magic := QOI_MAGIC;
     h_width := guint32_swap_local_and_big_endian (width image);
     h_height := guint32_swap_local_and_big_endian (height image);
     channels := to_u8 (if has_alpha image then QOI_CHANNELS_RGBA else QOI_CHANNELS_RGB);
     h_colorspace := to_u8 (colorspace_value (colorspace image)) |}.

(** What a call of [save_image] ends in, up to the point where
    [file_data[0 .. file_index)] is handed to [fwrite]. *)
Inductive save_result : Type :=
| Saved (file_data : list byte)
| SaveAllocationFailure
| SaveOutOfBounds
| SaveIndexOverflow
| SaveFuel.

(** The bytes that [save_image] stores, header first and end marker last,
    whatever the size of the block they are stored in. *)
Definition save_bytes (image : QoiImage) : option (list byte) :=
  let max_pixel_index := wrap32 (width image * height image) in
  match save_pixels image max_pixel_index (Z.to_nat max_pixel_index)
          (save_start (header_store (save_header image))) with
  | Some st => Some (s_file_data st ++ QOI_END_MARKER)
  | None => None
  end.

(** [save_image]. [g_try_malloc] returns NULL for a request of zero bytes;
    any other request is taken to be granted. The stores go to
    [file_data[0]], [file_data[1]], ... in this order, so all of them fall
    inside the block exactly when the final [file_index] is at most its
    size; otherwise some store is past its end, which C gives no meaning
    to ([SaveOutOfBounds]). [file_index] is a [gint32]: counting 2^31
    bytes or more overflows it, which C gives no meaning to either
    ([SaveIndexOverflow]). *)
Definition save_image (image : QoiImage) : save_result :=
  if save_alloc_size image =? 0 then SaveAllocationFailure
  else
    match save_bytes image with
    | None => SaveFuel
    | Some file_data =>
        if Z.of_nat (length file_data) <=? save_alloc_size image then
          if Z.of_nat (length file_data) <? 2 ^ 31 then Saved file_data
          else SaveIndexOverflow
        else SaveOutOfBounds
    end.

(** ** [run], the branch for [LOAD_PROC] *)

(** What the pointer [qoi_image.pixels] of [run] holds. [qoi_image] is a
    local variable without an initialiser, and [load_image] assigns
    [result->pixels] once, with the value of [g_try_malloc]. *)
Inductive pixels_pointer : Type :=
| Indeterminate (* not assigned *)
| Null          (* [g_try_malloc] returned NULL *)
| Allocated     (* a block of [g_try_malloc] *)
| Released.     (* a block that [g_free] has been called on *)

(** [g_free(pointer)]: nothing happens for NULL, a block is released; C
    gives no meaning to the call on a pointer that was never assigned or
    on a block that was released before ([None]). *)
Definition g_free (pointer : pixels_pointer) : option pixels_pointer :=
  match pointer with
  | Null => Some Null
  | Allocated => Some Released
  | Indeterminate | Released => None
  end.

(** [load_image] as its caller sees it: the value returned and what it
    leaves in [result->pixels]. [read] is the contents of the file, [None]
    when the reading part (fopen to fread) does not get them and
    [load_image] returns [false] from there. Every [return false] that
    follows the allocation of the pixels is preceded by
    [g_free(result->pixels)]. [None] stands for a run of the loop that C
    gives no meaning to (and for [LoopFuel], which does not occur). *)
Definition load_image_call (GIMP_MAX_IMAGE_SIZE : Z) (read : option (list byte))
    : option (bool * pixels_pointer) :=
  match read with
  | None => Some (false, Indeterminate)
  | Some file_data =>
      match load_header GIMP_MAX_IMAGE_SIZE file_data with
      | inl _ => Some (false, Indeterminate)
      | inr result =>
          let max_pixel_index := wrap32 (width result * height result) in
          if max_pixel_index * 4 =? 0 then Some (false, Null)
          else
            match load_chunks file_data max_pixel_index (Z.to_nat max_pixel_index)
                    (load_start QOI_HEADER_SIZE) with
            | LoopFail _ => Some (false, Released)
            | LoopOutOfBounds | LoopFuel => None
            | LoopDone st =>
                match check_end_marker file_data st with
                | Some _ => Some (false, Released)
                | None => Some (true, Allocated)
                end
            end
      end
  end.

(** The status values of libgimp that [run] uses. *)
Inductive GimpPDBStatusType : Type :=
| GIMP_PDB_EXECUTION_ERROR
| GIMP_PDB_SUCCESS
| GIMP_PDB_CANCEL.

(** What [run] returns: [values[0].data.d_status], [*nreturn_vals] and,
    when there are two values, [values[1].data.d_image]. *)
Record run_values : Type := {
  d_status : GimpPDBStatusType;
  nreturn_vals : Z;
  d_image : option Z;
}.

Definition run_failure : run_values :=
  {| d_status := GIMP_PDB_EXECUTION_ERROR; nreturn_vals := 1; d_image := None |}.

Definition run_success (image : Z) : run_values :=
  {| d_status := GIMP_PDB_SUCCESS; nreturn_vals := 2; d_image := Some image |}.

(** The branch of [run] for [LOAD_PROC]. [image] is what
    [create_gimp_image_from_qoi_image] returns when it is called; the
    branch ends with [g_free(qoi_image.pixels)]. *)
Definition run_load (GIMP_MAX_IMAGE_SIZE : Z) (read : option (list byte)) (image : Z)
    : option run_values :=
  match load_image_call GIMP_MAX_IMAGE_SIZE read with
  | None => None
  | Some (loaded, pointer) =>
      let values :=
        if loaded then
          if negb (image =? -1) then run_success image else run_failure
        else run_failure in
      match g_free pointer with
      | Some _ => Some values
      | None => None
      end
  end.

(** ** [create_gimp_image_from_qoi_image] *)

(** The row [y] of the loop of [create_gimp_image_from_qoi_image]: the
    [width] pixels at [&qoi_image.pixels[y * qoi_image.width]], which
    [gegl_buffer_set] reads; the product is a [guint32]. [None] when they
    are not all inside the block of the pixels. *)
Definition image_row (image : QoiImage) (y : Z) : option (list QoiPixel) :=
  let start := wrap32 (y * width image) in
  if start + width image <=? Z.of_nat (length (pixels image))
  then Some (take (Z.to_nat (width image)) (drop (Z.to_nat start) (pixels image)))
  else None.

(** [for (guint32 y = 0; y < qoi_image.height; ++y)]: the rows handed to
    [gegl_buffer_set], from the first to the last. *)
Definition image_rows (image : QoiImage) : option (list (list QoiPixel)) :=
  mapM (λ y : nat, image_row image (Z.of_nat y)) (seq 0 (Z.to_nat (height image))).

(** ** [get_qoi_image_from_gimp] *)

(** The field [colorspace] is [o_colorspace] here: [colorspace] is the
    field of [QoiImage]. *)
Record QoiExportOptions : Type := {
  o_colorspace : QoiColorspace;
  export_alpha : bool;
}.

(** What GEGL answers for the buffer of the drawable: its width, its
    height, and the pixels that [gegl_buffer_get] writes for the rectangle
    (0, y, width, 1), four bytes for a pixel in both formats. *)
Record GeglBuffer : Type := {
  gegl_buffer_get_width : Z;
  gegl_buffer_get_height : Z;
  gegl_buffer_get : Z → list QoiPixel;
}.

(** What a call of [get_qoi_image_from_gimp] ends in. *)
Inductive get_result : Type :=
| GetDone (image : QoiImage)           (* [true] *)
| GetFailed (pointer : pixels_pointer) (* [false], and what [result->pixels] holds *)
| GetAssertion                         (* [assert(!"Not reached!")] *)
| GetOutOfBounds.                      (* a row written past the end of the block *)

(** The pixels [row] written at [&block[start]]. *)
Definition store_row (block : list QoiPixel) (start : Z) (row : list QoiPixel)
    : option (list QoiPixel) :=
  if start + Z.of_nat (length row) <=? Z.of_nat (length block)
  then Some (take (Z.to_nat start) block ++ row
             ++ drop (Z.to_nat start + length row) block)
  else None.

(** The passes of [for (guint32 y = 0; y < result->height; ++y)] for the
    rows [ys]: each one writes a row at [&result->pixels[y * result->width]],
    the product in [guint32]. *)
Fixpoint get_rows (buffer : GeglBuffer) (width : Z) (ys : list nat) (block : list QoiPixel)
    : option (list QoiPixel) :=
  match ys with
  | [] => Some block
  | y :: ys =>
      match store_row block (wrap32 (Z.of_nat y * width))
              (gegl_buffer_get buffer (Z.of_nat y)) with
      | Some block' => get_rows buffer width ys block'
      | None => None
      end
  end.

(** [get_qoi_image_from_gimp]. [buffer] is what [gimp_drawable_get_buffer]
    returns, [None] for NULL; [memory] is what the block of [g_try_malloc]
    holds before anything is written to it. *)
Definition get_qoi_image_from_gimp (buffer : option GeglBuffer) (options : QoiExportOptions)
    (memory : nat → QoiPixel) : get_result :=
  match buffer with
  | None => GetFailed Indeterminate
  | Some buffer =>
      let result_width := wrap32 (gegl_buffer_get_width buffer) in
      let result_height := wrap32 (gegl_buffer_get_height buffer) in
      let count := wrap32 (result_width * result_height) in
      if count * 4 =? 0 then GetFailed Null
      else
        match o_colorspace options with
        | QOI_COLORSPACE_COUNT => GetAssertion
        | _ =>
            match get_rows buffer result_width (seq 0 (Z.to_nat result_height))
                    (map memory (seq 0 (Z.to_nat count))) with
            | Some block =>
                GetDone {| pixels := block;
                           width := result_width;
                           height := result_height;
                           colorspace := o_colorspace options;
                           has_alpha := export_alpha options |}
            | None => GetOutOfBounds
            end
        end
  end.

(** ** Evaluation on small inputs *)

Definition px (r g b a : Z) : QoiPixel :=
  {| red := to_u8 r; green := to_u8 g; blue := to_u8 b; alpha := to_u8 a |}.

Definition mk_file (l : list Z) : list byte := map to_u8 l.

(** ** Vocabulary of the statements *)

(** The six chunks of the format. *)
Inductive chunk_kind : Type := OpRgb | OpRgba | OpIndex | OpDiff | OpLuma | OpRun.

(** The chunk that [load_chunk] takes a tag for: its chain of tests. *)
Definition tag_kind (tag : byte) : chunk_kind :=
  if u8 tag =? QOI_OP_RGB then OpRgb
  else if u8 tag =? QOI_OP_RGBA then OpRgba
  else if Z.land (u8 tag) QOI_SMALL_TAG_MASK =? QOI_OP_INDEX then OpIndex
  else if Z.land (u8 tag) QOI_SMALL_TAG_MASK =? QOI_OP_DIFF then OpDiff
  else if Z.land (u8 tag) QOI_SMALL_TAG_MASK =? QOI_OP_LUMA then OpLuma
  else OpRun.

(** The state after [n] bytes of a chunk have been read and
    [current_pixel] has been assigned. *)
Definition after (n : Z) (pixel : QoiPixel) (st : load_state) : load_state :=
  {| l_file_index := l_file_index st + n;
     l_current_pixel := pixel;
     l_array := l_array st;
     l_pixels := l_pixels st |}.

(** The differences (red, green, blue) that a small-difference chunk
    [tag], or a luma chunk [tag] with second byte [dr_db], stands for. *)
Definition diff_deltas (tag : byte) : Z * Z * Z :=
  (Z.land (Z.shiftr (u8 tag) 4) 0x03 - 2,
   Z.land (Z.shiftr (u8 tag) 2) 0x03 - 2,
   Z.land (u8 tag) 0x03 - 2).

Definition luma_deltas (tag dr_db : byte) : Z * Z * Z :=
  let dg := Z.land (u8 tag) 0x3F - 32 in
  (Z.land (Z.shiftr (u8 dr_db) 4) 0x0F - 8 + dg,
   dg,
   Z.land (u8 dr_db) 0x0F - 8 + dg).

(** [pixel] is [previous] with the differences added to its red, green
    and blue channels as a [guint8] addition does: modulo 256. *)
Definition shifted_by (d : Z * Z * Z) (previous pixel : QoiPixel) : Prop :=
  u8 (red pixel) = (u8 (red previous) + d.1.1) mod 256
  ∧ u8 (green pixel) = (u8 (green previous) + d.1.2) mod 256
  ∧ u8 (blue pixel) = (u8 (blue previous) + d.2) mod 256
  ∧ alpha pixel = alpha previous.

(** The chunk that [save_pixel] chooses for the pixel at [pixel_index]:
    its chain of tests. *)
Definition save_kind (image : QoiImage) (st : save_state) : chunk_kind :=
  let current_pixel := pixel_at image (s_pixel_index st) in
  let previous_pixel := s_previous_pixel st in
  if qoi_pixel_equal previous_pixel current_pixel then OpRun
  else if qoi_pixel_equal current_pixel
            (s_array st !!! Z.to_nat (qoi_pixel_hash current_pixel)) then OpIndex
  else if negb (has_alpha image) || (u8 (alpha current_pixel) =? u8 (alpha previous_pixel)) then
    let dr := u8 (red current_pixel) - u8 (red previous_pixel) in
    let dg := u8 (green current_pixel) - u8 (green previous_pixel) in
    let db := u8 (blue current_pixel) - u8 (blue previous_pixel) in
    if (QOI_DIFF_LOWER_BOUND <=? dr) && (dr <=? QOI_DIFF_UPPER_BOUND)
       && (QOI_DIFF_LOWER_BOUND <=? dg) && (dg <=? QOI_DIFF_UPPER_BOUND)
       && (QOI_DIFF_LOWER_BOUND <=? db) && (db <=? QOI_DIFF_UPPER_BOUND) then OpDiff
    else if (QOI_LUMA_GREEN_LOWER_BOUND <=? dg) && (dg <=? QOI_LUMA_GREEN_UPPER_BOUND)
            && (QOI_LUMA_RED_BLUE_LOWER_BOUND <=? dr - dg)
            && (dr - dg <=? QOI_LUMA_RED_BLUE_UPPER_BOUND)
            && (QOI_LUMA_RED_BLUE_LOWER_BOUND <=? db - dg)
            && (db - dg <=? QOI_LUMA_RED_BLUE_UPPER_BOUND) then OpLuma
    else OpRgb
  else OpRgba.

(** What a chunk of kind [kind] that stands for [pixel] does to the cache
    and to the previous-pixel register: a literal or a difference writes
    the slot of [pixel] and no other, an index chunk and a run write none;
    all but the run make [pixel] the previous pixel. *)
Definition cache_effect (kind : chunk_kind) (pixel : QoiPixel)
    (array : list QoiPixel) (previous : QoiPixel)
    (array' : list QoiPixel) (previous' : QoiPixel) : Prop :=
  match kind with
  | OpRgb | OpRgba | OpDiff | OpLuma =>
      previous' = pixel
      ∧ length array' = length array
      ∧ array' !!! Z.to_nat (qoi_pixel_hash pixel) = pixel
      ∧ ∀ j : nat, j ≠ Z.to_nat (qoi_pixel_hash pixel) → array' !!! j = array !!! j
  | OpIndex => previous' = pixel ∧ array' = array
  | OpRun => previous' = previous ∧ array' = array
  end.

(** The bytes that [save_pixel] stores for a chunk of kind [kind] that
    takes [previous] to [current] (a run is stored by [save_run]). *)
Definition chunk_bytes (kind : chunk_kind) (previous current : QoiPixel) : list byte :=
  let dr := u8 (red current) - u8 (red previous) in
  let dg := u8 (green current) - u8 (green previous) in
  let db := u8 (blue current) - u8 (blue previous) in
  match kind with
  | OpRgb => [to_u8 QOI_OP_RGB; red current; green current; blue current]
  | OpRgba => [to_u8 QOI_OP_RGBA; red current; green current; blue current; alpha current]
  | OpIndex => [to_u8 (Z.lor QOI_OP_INDEX (qoi_pixel_hash current))]
  | OpDiff =>
      [to_u8 (Z.lor (Z.lor (Z.lor QOI_OP_DIFF (Z.shiftl (dr + 2) 4)) (Z.shiftl (dg + 2) 2))
                (db + 2))]
  | OpLuma =>
      [to_u8 (Z.lor QOI_OP_LUMA (dg + 32));
       to_u8 (Z.lor (Z.shiftl (dr - dg + 8) 4) (db - dg + 8))]
  | OpRun => []
  end.

(** The number that four bytes stand for, most significant byte first. *)
Definition big_endian (b0 b1 b2 b3 : byte) : Z :=
  u8 b0 * 2 ^ 24 + u8 b1 * 2 ^ 16 + u8 b2 * 2 ^ 8 + u8 b3.

(** The result of a load with the alpha flag of the image replaced. *)
Definition with_has_alpha (flag : bool) (r : load_result) : load_result :=
  match r with
  | Loaded image =>
      Loaded {| pixels := pixels image;
                width := width image;
                height := height image;
                colorspace := colorspace image;
                has_alpha := flag |}
  | _ => r
  end.

(** The header of a file of one pixel, with alpha, sRGB. *)
Definition header_1x1 : list byte :=
  mk_file [0x71; 0x6f; 0x69; 0x66; 0; 0; 0; 1; 0; 0; 0; 1; 4; 0].

(** A file of one pixel whose only chunk is a run of two pixels. *)
Definition file_run_overrun : list byte :=
  header_1x1 ++ mk_file [0xC1] ++ QOI_END_MARKER.

(** A file of one pixel in which the end marker comes where the first
    chunk is expected, and ends the file. *)
Definition file_early_end_marker : list byte :=
  header_1x1 ++ QOI_END_MARKER.

(** An image of 32768 by 26215 pixels, all of them the opaque black that
    the previous pixel starts as. *)
Definition huge_black : QoiImage :=
  {| pixels := replicate (Z.to_nat (32768 * 26215)) start_pixel;
     width := 32768;
     height := 26215;
     colorspace := QOI_COLORSPACE_SRGB;
     has_alpha := true |}.

#[global] Instance chunk_kind_eq_dec : EqDecision chunk_kind.
Proof. solve_decision. Defined.

(** The decoder state with [file_index] moved by [k]. *)
Definition shift (k : Z) (st : load_state) : load_state :=
  {| l_file_index := l_file_index st + k;
     l_current_pixel := l_current_pixel st;
     l_array := l_array st;
     l_pixels := l_pixels st |}.

Definition shift_result (k : Z) (r : chunk_result) : chunk_result :=
  match r with
  | Continue st => Continue (shift k st)
  | EndMarkerSeen st => EndMarkerSeen (shift k st)
  | Fail e => Fail e
  | StoreOutOfBounds => StoreOutOfBounds
  end.

(** What makes the chunk of kind [kind] stand for [current] after
    [previous], with the cache [array]. *)
Definition chunk_fits (kind : chunk_kind) (previous current : QoiPixel)
    (array : list QoiPixel) : Prop :=
  let dr := u8 (red current) - u8 (red previous) in
  let dg := u8 (green current) - u8 (green previous) in
  let db := u8 (blue current) - u8 (blue previous) in
  match kind with
  | OpRun => False
  | OpIndex => array !!! Z.to_nat (qoi_pixel_hash current) = current
  | OpDiff => alpha current = alpha previous ∧ -2 <= dr <= 1 ∧ -2 <= dg <= 1 ∧ -2 <= db <= 1
  | OpLuma => alpha current = alpha previous
              ∧ -32 <= dg <= 31 ∧ -8 <= dr - dg <= 7 ∧ -8 <= db - dg <= 7
  | OpRgb => alpha current = alpha previous
  | OpRgba => True
  end.

(** Some passes of the [while] loop of [load_image], each one entered
    with a pixel still missing and left by its end (no [break], no
    [return]), take the loop from one state to another. *)
Inductive steps (file_data : list byte) (max_pixel_index : Z) :
    load_state → load_state → Prop :=
| steps_refl (st : load_state) : steps file_data max_pixel_index st st
| steps_next (st st1 st2 : load_state) :
    pixel_index st < max_pixel_index →
    load_chunk file_data max_pixel_index st = Continue st1 →
    steps file_data max_pixel_index st1 st2 →
    steps file_data max_pixel_index st st2.

(** The decoder state that corresponds to an encoder state: as many
    bytes read as were stored, the same previous pixel and cache, and the
    pixels of the image up to [pixel_index]. *)
Definition load_state_of (image : QoiImage) (st : save_state) : load_state :=
  {| l_file_index := Z.of_nat (length (s_file_data st));
     l_current_pixel := s_previous_pixel st;
     l_array := s_array st;
     l_pixels := take (Z.to_nat (s_pixel_index st)) (pixels image) |}.

(** What holds of the encoder state at the start of every pass of the
    pixel loop. *)
Definition save_invariant (image : QoiImage) (st : save_state) : Prop :=
  0 <= s_pixel_index st <= Z.of_nat (length (pixels image))
  ∧ length (s_array st) = 64%nat
  ∧ (has_alpha image = false → alpha (s_previous_pixel st) = Byte.xff).

(** The images of the round-trip claim: width and height from 1 to the
    maximum, and as many pixels as width times height. *)
Definition claimed_valid (max_size : Z) (image : QoiImage) : Prop :=
  1 <= width image <= max_size
  ∧ 1 <= height image <= max_size
  ∧ Z.of_nat (length (pixels image)) = width image * height image.

(** [save_image] stores a file for the image, and [load_image] returns
    the image for this file. *)
Definition round_trip (max_size : Z) (image : QoiImage) : Prop :=
  ∃ file_data,
    save_image image = Saved file_data ∧ load_image max_size file_data = Loaded image.

(** The images for which the round trip holds: those of the claim, with
    a worst-case file size below 2^31, one of the two colorspaces, and,
    without the alpha flag, opaque pixels only. *)
Definition round_trip_domain (max_size : Z) (image : QoiImage) : Prop :=
  claimed_valid max_size image
  ∧ 14 + width image * height image * 5 + 8 < 2 ^ 31
  ∧ colorspace image ≠ QOI_COLORSPACE_COUNT
  ∧ (has_alpha image = false → ∀ pixel, pixel ∈ pixels image → alpha pixel = Byte.xff).

(** An image of one pixel that is not opaque, without the alpha flag. *)
Definition translucent_rgb : QoiImage :=
  {| pixels := [px 1 2 3 7];
     width := 1;
     height := 1;
     colorspace := QOI_COLORSPACE_SRGB;
     has_alpha := false |}.

(** The tests on the bytes of a chunk that the proofs run over all the
    values of its fields. *)
Definition index_byte_ok (h : Z) : bool :=
  let b := to_u8 (Z.lor QOI_OP_INDEX h) in
  bool_decide (tag_kind b = OpIndex) && (Z.land (u8 b) 0x3F =? h) && (u8 b =? h).

Definition run_byte_ok (r : Z) : bool :=
  let b := to_u8 (Z.lor QOI_OP_RUN r) in
  bool_decide (tag_kind b = OpRun) && (Z.land (u8 b) 0x3F =? r) && negb (u8 b =? 0).

Definition diff_byte_ok (z : Z) : bool :=
  let a := z / 16 in
  let b := (z / 4) mod 4 in
  let c := z mod 4 in
  let t := to_u8 (Z.lor (Z.lor (Z.lor QOI_OP_DIFF (Z.shiftl a 4)) (Z.shiftl b 2)) c) in
  bool_decide (tag_kind t = OpDiff) && bool_decide (diff_deltas t = (a - 2, b - 2, c - 2)).

Definition luma_tag_ok (g : Z) : bool :=
  let t := to_u8 (Z.lor QOI_OP_LUMA g) in
  bool_decide (tag_kind t = OpLuma) && (Z.land (u8 t) 0x3F =? g).

Definition luma_second_ok (z : Z) : bool :=
  let a := z / 16 in
  let b := z mod 16 in
  let t := to_u8 (Z.lor (Z.shiftl a 4) b) in
  (Z.land (Z.shiftr (u8 t) 4) 0x0F =? a) && (Z.land (u8 t) 0x0F =? b).

(** Small inputs on which the theorems are applied. *)

(** Six pixels with alpha: a luma chunk, a run, a literal with alpha, an
    index chunk for slot 0, and two more index chunks. *)
Definition sample_rgba : QoiImage :=
  {| pixels := [px 1 2 3 255; px 1 2 3 255; px 10 20 30 40; px 0 0 0 0; px 1 2 3 255;
                px 10 20 30 40];
     width := 3;
     height := 2;
     colorspace := QOI_COLORSPACE_LINEAR;
     has_alpha := true |}.

(** 62 pixels equal to the first previous pixel, and a different one. *)
Definition sample_run : QoiImage :=
  {| pixels := replicate 62 start_pixel ++ [px 9 9 9 255];
     width := 63;
     height := 1;
     colorspace := QOI_COLORSPACE_SRGB;
     has_alpha := false |}.

(** A small-difference chunk for the differences (-2, 1, 1), with the
    seven bytes that the loop wants after it. *)
Definition sample_diff_file : list byte := mk_file [0x4F; 0; 0; 0; 0; 0; 0; 0; 1].

(** A luma chunk for the differences (38, 31, 23): green by 31, red by
    7 more, blue by 8 less. *)
Definition sample_luma_file : list byte :=
  mk_file [0xBF; 0xF0; 0; 0; 0; 0; 0; 0; 0; 1].

(** The loop at the first byte of a file, with [pixel] as the previous
    pixel. *)
Definition sample_state (pixel : QoiPixel) : load_state :=
  {| l_file_index := 0;
     l_current_pixel := pixel;
     l_array := replicate 64 zero_pixel;
     l_pixels := [] |}.

(** A literal chunk, with four more bytes after it. *)
Definition sample_rgb_file : list byte := mk_file [0xFE; 1; 2; 3; 0; 0; 0; 1].

Definition sample_rgb_loaded : load_state :=
  {| l_file_index := 4;
     l_current_pixel := px 1 2 3 255;
     l_array := <[Z.to_nat (qoi_pixel_hash (px 1 2 3 255)) := px 1 2 3 255]>
                  (replicate 64 zero_pixel);
     l_pixels := [px 1 2 3 255] |}.

Definition sample_pixel : QoiImage :=
  {| pixels := [px 200 100 50 255];
     width := 1;
     height := 1;
     colorspace := QOI_COLORSPACE_SRGB;
     has_alpha := true |}.

Definition sample_pixel_saved : save_state :=
  {| s_file_data := mk_file [0xFE; 200; 100; 50];
     s_pixel_index := 1;
     s_previous_pixel := px 200 100 50 255;
     s_array := <[Z.to_nat (qoi_pixel_hash (px 200 100 50 255)) := px 200 100 50 255]>
                  (replicate 64 zero_pixel) |}.

(** ** Vocabulary of the further properties *)

(** Two files hold the same eight bytes wherever both have eight bytes. *)
Definition same_windows (fd fd' : list byte) : Prop :=
  ∀ i, 0 <= i → i + 8 <= file_size fd → i + 8 <= file_size fd' →
       bytes_at fd i 8 = bytes_at fd' i 8.

(** What both loops keep of [array]: it has its 64 slots, and a slot
    holds the zero pixel it started with or a pixel whose hash is the
    number of the slot. *)
Definition cache_ok (array : list QoiPixel) : Prop :=
  length array = 64%nat
  ∧ ∀ i : nat, (i < 64)%nat →
      array !!! i = zero_pixel ∨ qoi_pixel_hash (array !!! i) = Z.of_nat i.

(** The result of a load with the colorspace of the image replaced. *)
Definition with_colorspace (c : QoiColorspace) (r : load_result) : load_result :=
  match r with
  | Loaded image =>
      Loaded {| pixels := pixels image;
                width := width image;
                height := height image;
                colorspace := c;
                has_alpha := has_alpha image |}
  | _ => r
  end.

(** A file of 23 bytes whose header gives 10004 by 429325 pixels, four
    more than 2^32, with one run of four pixels. *)
Definition file_wrapped_size : list byte :=
  mk_file [0x71; 0x6f; 0x69; 0x66; 0x00; 0x00; 0x27; 0x14; 0x00; 0x06; 0x8D; 0x0D; 4; 0; 0xC3]
  ++ QOI_END_MARKER.

(** A buffer of two rows of two pixels. *)
Definition buffer_2x2 : GeglBuffer :=
  {| gegl_buffer_get_width := 2;
     gegl_buffer_get_height := 2;
     gegl_buffer_get := λ y, [px y 0 0 255; px y 1 0 255] |}.

(** A file whose header gives 65536 by 65536 pixels. *)
Definition file_no_pixels : list byte :=
  mk_file [0x71; 0x6f; 0x69; 0x66; 0; 1; 0; 0; 0; 1; 0; 0; 4; 0; 0xC0] ++ QOI_END_MARKER.

(** What the encoder has tested of the differences when it stores a
    chunk of kind [kind] for [current] after [previous]. *)
Definition chunk_in_range (kind : chunk_kind) (previous current : QoiPixel) : Prop :=
  let dr := u8 (red current) - u8 (red previous) in
  let dg := u8 (green current) - u8 (green previous) in
  let db := u8 (blue current) - u8 (blue previous) in
  match kind with
  | OpDiff => -2 <= dr <= 1 ∧ -2 <= dg <= 1 ∧ -2 <= db <= 1
  | OpLuma => -32 <= dg <= 31 ∧ -8 <= dr - dg <= 7 ∧ -8 <= db - dg <= 7
  | OpRun => False
  | _ => True
  end.

(** The decoder is where the encoder is: as many bytes read as stored,
    as many pixels stored as passed. *)
Definition follows (st : save_state) (dst : load_state) : Prop :=
  l_file_index dst = Z.of_nat (length (s_file_data st))
  ∧ pixel_index dst = s_pixel_index st.

(** An image of three pixels without the alpha flag, the second one not
    opaque. *)
Definition image_rgb_translucent : QoiImage :=
  {| pixels := [px 1 2 3 255; px 1 2 3 7; px 200 0 0 255];
     width := 3;
     height := 1;
     colorspace := QOI_COLORSPACE_SRGB;
     has_alpha := false |}.

(** A run of three pixels, with the seven bytes that the loop wants
    after it. *)
Definition sample_run_file : list byte := mk_file [0xC2; 0; 0; 0; 0; 0; 0; 0; 1].

(** A file of one pixel with alpha: a literal chunk for (1, 2, 3) and the
    end marker; and the image that it loads as. *)
Definition file_one_pixel : list byte :=
  header_1x1 ++ mk_file [0xFE; 1; 2; 3] ++ QOI_END_MARKER.

Definition image_one_pixel : QoiImage :=
  {| pixels := [px 1 2 3 255];
     width := 1;
     height := 1;
     colorspace := QOI_COLORSPACE_SRGB;
     has_alpha := true |}.

(** An image of no width. *)
Definition image_no_pixels : QoiImage :=
  {| pixels := [];
     width := 0;
     height := 5;
     colorspace := QOI_COLORSPACE_SRGB;
     has_alpha := true |}.

(** * Proofs *)

(** Boolean tests on integers, as hypotheses, turned into the
    propositions they decide. *)
Ltac zbool :=
  repeat match goal with
         | H : (_ >? _) = _ |- _ => rewrite Z.gtb_ltb in H
         | H : (_ <=? _) = true |- _ => apply Z.leb_le in H
         | H : (_ <=? _) = false |- _ => apply Z.leb_gt in H
         | H : (_ <? _) = true |- _ => apply Z.ltb_lt in H
         | H : (_ <? _) = false |- _ => apply Z.ltb_ge in H
         | H : (_ =? _) = true |- _ => apply Z.eqb_eq in H
         | H : (_ =? _) = false |- _ => apply Z.eqb_neq in H
         end.

(** ** Bytes and tags *)

Lemma u8_range (b : byte) : 0 <= u8 b < 256.
Proof. apply byte.unsigned_range. Qed.

Lemma u8_to_u8 (z : Z) : u8 (to_u8 z) = z mod 256.
Proof. apply byte.unsigned_of_Z. Qed.

Lemma u8_to_u8_small (z : Z) : 0 <= z < 256 -> u8 (to_u8 z) = z.
Proof. intros H. rewrite u8_to_u8. apply Z.mod_small, H. Qed.

Lemma to_u8_u8 (b : byte) : to_u8 (u8 b) = b.
Proof. apply byte.of_Z_unsigned. Qed.

Lemma u8_inj (a b : byte) : u8 a = u8 b -> a = b.
Proof. apply byte.unsigned_inj. Qed.

Lemma qoi_pixel_equal_spec (a b : QoiPixel) : qoi_pixel_equal a b = true <-> a = b.
Proof.
  unfold qoi_pixel_equal. rewrite !andb_true_iff, !Z.eqb_eq. split.
  - intros [[[Hr Hg] Hb] Ha]. destruct a, b; simpl in *.
    f_equal; apply u8_inj; assumption.
  - intros ->. auto.
Qed.

Lemma qoi_pixel_equal_false (a b : QoiPixel) : qoi_pixel_equal a b = false <-> a <> b.
Proof.
  rewrite <- qoi_pixel_equal_spec. destruct (qoi_pixel_equal a b); split; congruence.
Qed.

Lemma qoi_pixel_hash_range (p : QoiPixel) : 0 <= qoi_pixel_hash p < 64.
Proof. unfold qoi_pixel_hash. apply Z.mod_pos_bound. lia. Qed.

(** Every tag falls in one of the four classes of the top two bits, so the
    chain of tests of [load_chunk] always takes a branch. *)
Lemma tag_top_bits (tag : byte) :
  tag_kind tag = OpRun -> (Z.land (u8 tag) QOI_SMALL_TAG_MASK =? QOI_OP_RUN) = true.
Proof. destruct tag; vm_compute; congruence. Qed.

Lemma tag_low_bits_range (tag : byte) : 0 <= Z.land (u8 tag) 0x3F < 64.
Proof. destruct tag; vm_compute; split; congruence. Qed.

Lemma tag_kind_run_length (tag : byte) :
  tag_kind tag = OpRun -> 1 <= Z.land (u8 tag) 0x3F + 1 <= 62.
Proof. destruct tag; vm_compute; intros; split; congruence. Qed.

(** ** One pass of the decoder, chunk by chunk *)

(** [load_chunk] by the kind of the tag at [file_index]. *)
Lemma load_chunk_unfold (file_data : list byte) (max_pixel_index : Z) (st : load_state) :
  let i := l_file_index st in
  let tag := byte_at file_data i in
  let cur := l_current_pixel st in
  load_chunk file_data max_pixel_index st =
  if file_size file_data <? i + QOI_END_MARKER_SIZE then Fail UnexpectedEof
  else
    match tag_kind tag with
    | OpRgb =>
        store_and_cache max_pixel_index
          (after 4 {| red := byte_at file_data (i + 1); green := byte_at file_data (i + 2);
                      blue := byte_at file_data (i + 3); alpha := alpha cur |} st)
    | OpRgba =>
        store_and_cache max_pixel_index
          (after 5 {| red := byte_at file_data (i + 1); green := byte_at file_data (i + 2);
                      blue := byte_at file_data (i + 3);
                      alpha := byte_at file_data (i + 4) |} st)
    | OpIndex =>
        if memcmp_eq file_data i QOI_END_MARKER then EndMarkerSeen (after 1 cur st)
        else store_pixels max_pixel_index 1
               (after 1 (l_array st !!! Z.to_nat (Z.land (u8 tag) 0x3F)) st)
    | OpDiff =>
        let d := diff_deltas tag in
        store_and_cache max_pixel_index
          (after 1 {| red := to_u8 (u8 (red cur) + d.1.1);
                      green := to_u8 (u8 (green cur) + d.1.2);
                      blue := to_u8 (u8 (blue cur) + d.2);
                      alpha := alpha cur |} st)
    | OpLuma =>
        let d := luma_deltas tag (byte_at file_data (i + 1)) in
        store_and_cache max_pixel_index
          (after 2 {| red := to_u8 (u8 (red cur) + d.1.1);
                      green := to_u8 (u8 (green cur) + d.1.2);
                      blue := to_u8 (u8 (blue cur) + d.2);
                      alpha := alpha cur |} st)
    | OpRun =>
        let run := Z.land (u8 tag) 0x3F + 1 in
        if pixel_index st >? max_pixel_index + run then Fail InvalidRunLength
        else store_pixels max_pixel_index run (after 1 cur st)
    end.
Proof.
  cbv zeta. unfold load_chunk.
  destruct (file_size file_data <? l_file_index st + QOI_END_MARKER_SIZE); [reflexivity|].
  unfold next_byte, set_current_pixel; cbn [fst snd l_file_index l_current_pixel l_array l_pixels].
  set (i := l_file_index st). set (tag := byte_at file_data i). set (cur := l_current_pixel st).
  pose proof (tag_top_bits tag) as Hrun. pose proof (tag_low_bits_range tag) as Hlow.
  pose proof (tag_kind_run_length tag) as Hlen.
  unfold tag_kind in *.
  replace (i + 1 + 1) with (i + 2) by lia. replace (i + 2 + 1) with (i + 3) by lia.
  replace (i + 3 + 1) with (i + 4) by lia. replace (i + 4 + 1) with (i + 5) by lia.
  replace (i + 1 - 1) with i by lia.
  destruct (u8 tag =? QOI_OP_RGB); [reflexivity|].
  destruct (u8 tag =? QOI_OP_RGBA); [reflexivity|].
  destruct (Z.land (u8 tag) QOI_SMALL_TAG_MASK =? QOI_OP_INDEX).
  { rewrite u8_to_u8_small by lia. reflexivity. }
  destruct (Z.land (u8 tag) QOI_SMALL_TAG_MASK =? QOI_OP_DIFF).
  { unfold diff_deltas, QOI_DIFF_LOWER_BOUND. cbn [fst snd]. rewrite Z.shiftr_0_r.
    reflexivity. }
  destruct (Z.land (u8 tag) QOI_SMALL_TAG_MASK =? QOI_OP_LUMA).
  { unfold luma_deltas, QOI_LUMA_GREEN_LOWER_BOUND, QOI_LUMA_RED_BLUE_LOWER_BOUND.
    cbn [fst snd]. rewrite Z.shiftr_0_r. reflexivity. }
  rewrite Hrun by reflexivity.
  rewrite u8_to_u8_small by (specialize (Hlen eq_refl); lia). reflexivity.
Qed.

Lemma tag_kind_diff_iff (tag : byte) :
  tag_kind tag = OpDiff <-> Z.land (u8 tag) QOI_SMALL_TAG_MASK = QOI_OP_DIFF.
Proof. destruct tag; vm_compute; split; congruence. Qed.

Lemma tag_kind_luma_iff (tag : byte) :
  tag_kind tag = OpLuma <-> Z.land (u8 tag) QOI_SMALL_TAG_MASK = QOI_OP_LUMA.
Proof. destruct tag; vm_compute; split; congruence. Qed.

Lemma tag_kind_index_iff (tag : byte) :
  tag_kind tag = OpIndex <-> Z.land (u8 tag) QOI_SMALL_TAG_MASK = QOI_OP_INDEX.
Proof. destruct tag; vm_compute; split; congruence. Qed.

Lemma tag_kind_run_iff (tag : byte) :
  tag_kind tag = OpRun <->
  Z.land (u8 tag) QOI_SMALL_TAG_MASK = QOI_OP_RUN ∧ u8 tag ≠ QOI_OP_RGB ∧ u8 tag ≠ QOI_OP_RGBA.
Proof.
  destruct tag; vm_compute;
    (split; [intros H; try discriminate H; repeat split; congruence
            | intros (H1 & H2 & H3); congruence]).
Qed.

Lemma store_pixels_fits (max_pixel_index count : Z) (st : load_state) :
  pixel_index st + count <= max_pixel_index ->
  store_pixels max_pixel_index count st =
  Continue {| l_file_index := l_file_index st;
              l_current_pixel := l_current_pixel st;
              l_array := l_array st;
              l_pixels := l_pixels st ++ replicate (Z.to_nat count) (l_current_pixel st) |}.
Proof.
  intros H. unfold store_pixels.
  destruct (Z.leb_spec (pixel_index st + count) max_pixel_index); [reflexivity | lia].
Qed.

Lemma store_and_cache_fits (max_pixel_index : Z) (st : load_state) :
  pixel_index st < max_pixel_index ->
  store_and_cache max_pixel_index st =
  Continue {| l_file_index := l_file_index st;
              l_current_pixel := l_current_pixel st;
              l_array := <[Z.to_nat (qoi_pixel_hash (l_current_pixel st)) := l_current_pixel st]>
                           (l_array st);
              l_pixels := l_pixels st ++ [l_current_pixel st] |}.
Proof.
  intros H. unfold store_and_cache. rewrite store_pixels_fits by lia. reflexivity.
Qed.

Lemma diff_deltas_range (tag : byte) :
  let d := diff_deltas tag in
  -2 <= d.1.1 <= 1 ∧ -2 <= d.1.2 <= 1 ∧ -2 <= d.2 <= 1.
Proof. destruct tag; vm_compute; intuition congruence. Qed.

Lemma luma_deltas_range (tag dr_db : byte) :
  let d := luma_deltas tag dr_db in
  -32 <= d.1.2 <= 31 ∧ -8 <= d.1.1 - d.1.2 <= 7 ∧ -8 <= d.2 - d.1.2 <= 7.
Proof.
  unfold luma_deltas. cbn [fst snd].
  assert (0 <= Z.land (u8 tag) 63 < 64) by apply tag_low_bits_range.
  assert (0 <= Z.land (Z.shiftr (u8 dr_db) 4) 15 < 16)
    by (destruct dr_db; vm_compute; split; congruence).
  assert (0 <= Z.land (u8 dr_db) 15 < 16)
    by (destruct dr_db; vm_compute; split; congruence).
  lia.
Qed.

(** C10. A small-difference chunk, and a luma chunk, always decode: the
    loop continues with a pixel whose red, green and blue are those of the
    previous pixel plus the differences of the chunk, modulo 256, and whose
    alpha is that of the previous pixel. The hypotheses are the two tests
    that precede every chunk (eight bytes left, a pixel still missing). *)
Theorem diff_luma_chunk_decodes (file_data : list byte) (max_pixel_index : Z)
    (st : load_state) :
  let tag := byte_at file_data (l_file_index st) in
  let d := if Z.land (u8 tag) QOI_SMALL_TAG_MASK =? QOI_OP_DIFF then diff_deltas tag
           else luma_deltas tag (byte_at file_data (l_file_index st + 1)) in
  l_file_index st + QOI_END_MARKER_SIZE <= file_size file_data ->
  pixel_index st < max_pixel_index ->
  Z.land (u8 tag) QOI_SMALL_TAG_MASK = QOI_OP_DIFF
  ∨ Z.land (u8 tag) QOI_SMALL_TAG_MASK = QOI_OP_LUMA ->
  ∃ st', load_chunk file_data max_pixel_index st = Continue st'
         ∧ shifted_by d (l_current_pixel st) (l_current_pixel st')
         ∧ l_pixels st' = l_pixels st ++ [l_current_pixel st'].
Proof.
  intros tag d Hsize Hidx Hkind. rewrite load_chunk_unfold. fold tag.
  destruct (Z.ltb_spec (file_size file_data) (l_file_index st + QOI_END_MARKER_SIZE));
    [lia|].
  destruct Hkind as [Hk | Hk].
  - pose proof (proj2 (tag_kind_diff_iff tag) Hk) as ->.
    cbv zeta. rewrite store_and_cache_fits by exact Hidx.
    eexists; split; [reflexivity|]. subst d. rewrite Hk. cbn.
    unfold shifted_by; cbn. rewrite !u8_to_u8. auto.
  - pose proof (proj2 (tag_kind_luma_iff tag) Hk) as ->.
    cbv zeta. rewrite store_and_cache_fits by exact Hidx.
    eexists; split; [reflexivity|]. subst d. rewrite Hk. cbn.
    unfold shifted_by; cbn. rewrite !u8_to_u8. auto.
Qed.

(** ** One pass of the encoder, chunk by chunk *)

(** [save_pixel] by the kind of chunk it chooses. *)
Lemma save_pixel_unfold (image : QoiImage) (max_pixel_index : Z) (st : save_state) :
  let cur := pixel_at image (s_pixel_index st) in
  let kind := save_kind image st in
  save_pixel image max_pixel_index st =
  match kind with
  | OpRun => save_run image max_pixel_index
               (Z.to_nat (max_pixel_index - s_pixel_index st)) (to_u8 0) st
  | _ =>
      Some {| s_file_data := s_file_data st ++ chunk_bytes kind (s_previous_pixel st) cur;
              s_pixel_index := s_pixel_index st + 1;
              s_previous_pixel := cur;
              s_array := match kind with
                         | OpIndex => s_array st
                         | _ => <[Z.to_nat (qoi_pixel_hash cur) := cur]> (s_array st)
                         end |}
  end.
Proof.
  cbv zeta. unfold save_pixel, save_kind.
  destruct (qoi_pixel_equal _ _); [reflexivity|].
  destruct (qoi_pixel_equal _ _); [reflexivity|].
  destruct (negb (has_alpha image) || _).
  - unfold QOI_DIFF_LOWER_BOUND, QOI_LUMA_GREEN_LOWER_BOUND, QOI_LUMA_RED_BLUE_LOWER_BOUND.
    repeat match goal with |- context [?a - -?b] => replace (a - -b) with (a + b) by lia end.
    rewrite !Z.shiftl_0_r.
    destruct (_ && _).
    + unfold next_pixel, set_previous_pixel, set_array, put; cbn. reflexivity.
    + destruct (_ && _).
      * unfold next_pixel, set_previous_pixel, set_array, put; cbn.
        rewrite <- app_assoc. reflexivity.
      * unfold next_pixel, set_previous_pixel, set_array, put; cbn.
        rewrite !to_u8_u8, <- !app_assoc. reflexivity.
  - unfold next_pixel, set_previous_pixel, set_array, put; cbn.
    rewrite !to_u8_u8, <- !app_assoc. reflexivity.
Qed.

(** C8. The cache index of a pixel is [(r*3 + g*5 + b*7 + a*11) mod 64],
    alpha included, and lies in 0..63. It is the index both loops use.
    The decoder ([load_chunk]), after a literal, a small-difference or a
    luma chunk, writes the new pixel to the slot of this index and to no
    other. The encoder ([save_pixel]), for a pixel that differs from the
    previous one, reads the slot of this index: when the slot holds the
    pixel it stores one byte, [QOI_OP_INDEX] with this index, and leaves
    the cache alone; when not, it writes the pixel to the slot of this
    index and to no other. *)
Theorem qoi_pixel_hash_formula :
  let formula := λ pixel : QoiPixel,
    (u8 (red pixel) * 3 + u8 (green pixel) * 5 + u8 (blue pixel) * 7
     + u8 (alpha pixel) * 11) mod 64 in
  (∀ pixel, qoi_pixel_hash pixel = formula pixel ∧ 0 <= formula pixel <= 63)
  ∧ (∀ file_data max_pixel_index st,
       l_file_index st + QOI_END_MARKER_SIZE <= file_size file_data →
       pixel_index st < max_pixel_index →
       tag_kind (byte_at file_data (l_file_index st)) ≠ OpIndex →
       tag_kind (byte_at file_data (l_file_index st)) ≠ OpRun →
       ∃ st', load_chunk file_data max_pixel_index st = Continue st'
              ∧ l_array st'
                = <[Z.to_nat (formula (l_current_pixel st')) := l_current_pixel st']>
                    (l_array st)
              ∧ l_pixels st' = l_pixels st ++ [l_current_pixel st'])
  ∧ (∀ image max_pixel_index st,
       let current := pixel_at image (s_pixel_index st) in
       s_previous_pixel st ≠ current →
       (s_array st !!! Z.to_nat (formula current) = current →
        save_pixel image max_pixel_index st
        = Some {| s_file_data :=
                    s_file_data st ++ [to_u8 (Z.lor QOI_OP_INDEX (formula current))];
                  s_pixel_index := s_pixel_index st + 1;
                  s_previous_pixel := current;
                  s_array := s_array st |})
       ∧ (s_array st !!! Z.to_nat (formula current) ≠ current →
          ∃ st', save_pixel image max_pixel_index st = Some st'
                 ∧ s_array st' = <[Z.to_nat (formula current) := current]> (s_array st)
                 ∧ s_previous_pixel st' = current
                 ∧ s_pixel_index st' = s_pixel_index st + 1)).
Proof.
  cbv zeta. split; [|split].
  - intros pixel. split; [reflexivity|].
    pose proof (qoi_pixel_hash_range pixel) as H. unfold qoi_pixel_hash in H. lia.
  - intros file_data max_pixel_index st Hsize Hidx Hindex Hrun.
    rewrite load_chunk_unfold.
    destruct (Z.ltb_spec (file_size file_data) (l_file_index st + QOI_END_MARKER_SIZE));
      [lia|].
    destruct (tag_kind (byte_at file_data (l_file_index st))); try congruence;
      cbv zeta; rewrite store_and_cache_fits by exact Hidx;
      (eexists; split; [reflexivity|]; split; reflexivity).
  - intros image max_pixel_index st Hprev.
    fold (qoi_pixel_hash (pixel_at image (s_pixel_index st))).
    apply qoi_pixel_equal_false in Hprev.
    split; intros Hslot.
    + rewrite save_pixel_unfold. cbv zeta. unfold save_kind. rewrite Hprev.
      rewrite (proj2 (qoi_pixel_equal_spec _ _)) by (symmetry; exact Hslot).
      reflexivity.
    + assert (Hne : qoi_pixel_equal (pixel_at image (s_pixel_index st))
                      (s_array st !!! Z.to_nat (qoi_pixel_hash
                                                  (pixel_at image (s_pixel_index st))))
                    = false)
        by (apply qoi_pixel_equal_false; congruence).
      assert (Hk : save_kind image st ≠ OpRun ∧ save_kind image st ≠ OpIndex).
      { unfold save_kind. rewrite Hprev, Hne.
        repeat match goal with |- context [if ?c then _ else _] => destruct c end;
          split; discriminate. }
      rewrite save_pixel_unfold. cbv zeta.
      destruct (save_kind image st); try (exfalso; intuition congruence);
        (eexists; split; [reflexivity|]; repeat split).
Qed.

(** The run loop touches neither the cache nor the previous pixel. *)
Lemma save_run_frame (image : QoiImage) (max_pixel_index : Z) (fuel : nat) :
  ∀ run st st',
    save_run image max_pixel_index fuel run st = Some st' ->
    s_previous_pixel st' = s_previous_pixel st ∧ s_array st' = s_array st.
Proof.
  induction fuel as [|fuel IH]; intros run st st' H; [discriminate|].
  cbn [save_run] in H.
  destruct ((s_pixel_index (next_pixel st) <? max_pixel_index) && _).
  - destruct (_ || _); apply IH in H; exact H.
  - rewrite orb_true_r in H. injection H as <-. split; reflexivity.
Qed.

Lemma cache_effect_insert (pixel : QoiPixel) (array : list QoiPixel) :
  length array = 64%nat ->
  let array' := <[Z.to_nat (qoi_pixel_hash pixel) := pixel]> array in
  length array' = length array
  ∧ array' !!! Z.to_nat (qoi_pixel_hash pixel) = pixel
  ∧ ∀ j : nat, j ≠ Z.to_nat (qoi_pixel_hash pixel) → array' !!! j = array !!! j.
Proof.
  intros Hlen array'. pose proof (qoi_pixel_hash_range pixel) as Hh. subst array'.
  split; [apply length_insert|]. split.
  - apply list_lookup_total_insert_eq. lia.
  - intros j Hj. apply list_lookup_total_insert_ne. congruence.
Qed.

(** C7. What each chunk does to the cache and to the previous pixel, in
    the decoder ([load_chunk]) and in the encoder ([save_pixel]): a
    literal, a small difference and a luma chunk write the slot
    [hash(new pixel)] and no other and make the new pixel the previous
    pixel; an index chunk writes no slot and makes the cached pixel it
    refers to the previous pixel; a run writes no slot and leaves the
    previous pixel as it is. *)
Theorem chunk_cache_effect
    (file_data : list byte) (max_load : Z) (lst lst' : load_state)
    (image : QoiImage) (max_save : Z) (sst sst' : save_state) :
  length (l_array lst) = 64%nat ->
  length (s_array sst) = 64%nat ->
  load_chunk file_data max_load lst = Continue lst' ->
  save_pixel image max_save sst = Some sst' ->
  let tag := byte_at file_data (l_file_index lst) in
  let cur := pixel_at image (s_pixel_index sst) in
  (cache_effect (tag_kind tag) (l_current_pixel lst')
     (l_array lst) (l_current_pixel lst) (l_array lst') (l_current_pixel lst')
   ∧ (tag_kind tag = OpIndex ->
      l_current_pixel lst' = l_array lst !!! Z.to_nat (Z.land (u8 tag) 0x3F))
   ∧ (tag_kind tag ≠ OpRun -> l_pixels lst' = l_pixels lst ++ [l_current_pixel lst']))
  ∧ (cache_effect (save_kind image sst) cur
       (s_array sst) (s_previous_pixel sst) (s_array sst') (s_previous_pixel sst')
     ∧ (save_kind image sst = OpIndex ->
        cur = s_array sst !!! Z.to_nat (qoi_pixel_hash cur))).
Proof.
  intros Hl Hs Hload Hsave tag cur. split.
  - rewrite load_chunk_unfold in Hload. fold tag in Hload.
    destruct (_ <? _); [discriminate|].
    unfold store_and_cache, store_pixels in Hload.
    destruct (tag_kind tag) eqn:Hk; cbv zeta in Hload;
      repeat match type of Hload with
             | (if ?c then _ else _) = _ => destruct c; try discriminate Hload
             | match (if ?c then _ else _) with _ => _ end = _ =>
                 destruct c; try discriminate Hload
             end;
      injection Hload as <-; cbn;
      repeat split; try congruence;
      try (apply cache_effect_insert; assumption);
      try (apply length_insert);
      try (intros j Hj; apply cache_effect_insert; assumption).
  - rewrite save_pixel_unfold in Hsave. fold cur in Hsave. cbv zeta in Hsave.
    destruct (save_kind image sst) eqn:Hk;
      try (injection Hsave as <-; cbn;
           repeat split; try congruence;
           try (apply cache_effect_insert; assumption);
           try (apply length_insert);
           try (intros j Hj; apply cache_effect_insert; assumption)).
    + intros _. unfold save_kind in Hk. fold cur in Hk.
      destruct (qoi_pixel_equal (s_previous_pixel sst) cur); [discriminate|].
      destruct (qoi_pixel_equal cur _) eqn:E.
      * apply qoi_pixel_equal_spec in E. exact E.
      * destruct (_ || _); [destruct (_ && _); [|destruct (_ && _)] |]; discriminate.
    + apply save_run_frame in Hsave. split; [exact Hsave | discriminate].
Qed.

(** ** The chunk loop *)

Lemma load_chunk_advances (file_data : list byte) (max_pixel_index : Z) (st st' : load_state) :
  load_chunk file_data max_pixel_index st = Continue st' ->
  pixel_index st < pixel_index st' <= max_pixel_index
  ∧ l_file_index st < l_file_index st' <= l_file_index st + 5.
Proof.
  intros H. rewrite load_chunk_unfold in H.
  destruct (_ <? _); [discriminate|].
  pose proof (tag_kind_run_length (byte_at file_data (l_file_index st))) as Hrun.
  unfold store_and_cache, store_pixels in H.
  destruct (tag_kind _); cbv zeta in H;
    repeat match type of H with
           | (if ?c then _ else _) = _ => destruct c eqn:?; try discriminate H
           | match (if ?c then _ else _) with _ => _ end = _ =>
               destruct c eqn:?; try discriminate H
           end;
    injection H as <-; zbool; try specialize (Hrun eq_refl);
    unfold pixel_index in *; cbn in *;
    rewrite ?length_app, ?length_replicate in *; cbn in *; lia.
Qed.

(** The loop is never cut short by its fuel: [max_pixel_index] passes are
    enough. *)
Lemma load_chunks_fuel (file_data : list byte) (max_pixel_index : Z) (fuel : nat) :
  ∀ st, max_pixel_index - pixel_index st <= Z.of_nat fuel ->
        load_chunks file_data max_pixel_index fuel st ≠ LoopFuel.
Proof.
  induction fuel as [|fuel IH]; intros st Hfuel; cbn [load_chunks].
  - destruct (Z.ltb_spec (pixel_index st) max_pixel_index); [lia | discriminate].
  - destruct (Z.ltb_spec (pixel_index st) max_pixel_index); [|discriminate].
    destruct (load_chunk file_data max_pixel_index st) eqn:E; try discriminate.
    apply IH. apply load_chunk_advances in E. lia.
Qed.

(** The test [pixel_index > max_pixel_index + run] of the run branch is
    never true inside the loop, where [pixel_index < max_pixel_index]. *)
Lemma load_chunk_no_run_error (file_data : list byte) (max_pixel_index : Z) (st : load_state) :
  pixel_index st < max_pixel_index ->
  load_chunk file_data max_pixel_index st ≠ Fail InvalidRunLength.
Proof.
  intros Hidx. rewrite load_chunk_unfold.
  pose proof (tag_kind_run_length (byte_at file_data (l_file_index st))) as Hrun.
  destruct (_ <? _); [discriminate|].
  unfold store_and_cache, store_pixels.
  destruct (tag_kind _); cbv zeta;
    repeat match goal with
           | |- (if ?c then _ else _) ≠ _ => destruct c eqn:?
           | |- match (if ?c then _ else _) with _ => _ end ≠ _ => destruct c eqn:?
           end; try discriminate.
  zbool. specialize (Hrun eq_refl). lia.
Qed.

Lemma load_chunks_no_run_error (file_data : list byte) (max_pixel_index : Z) (fuel : nat) :
  ∀ st, load_chunks file_data max_pixel_index fuel st ≠ LoopFail InvalidRunLength.
Proof.
  induction fuel as [|fuel IH]; intros st; cbn [load_chunks];
    destruct (Z.ltb_spec (pixel_index st) max_pixel_index); try discriminate.
  destruct (load_chunk file_data max_pixel_index st) eqn:E; try discriminate.
  - apply IH.
  - intros [= ->]. revert E. apply load_chunk_no_run_error. assumption.
Qed.

Lemma check_end_marker_errors (file_data : list byte) (st : load_state) (e : load_error) :
  check_end_marker file_data st = Some e ->
  e = UnexpectedEof ∨ e = InvalidEndMarker ∨ e = TrailingData.
Proof.
  unfold check_end_marker.
  repeat match goal with |- context [if ?c then _ else _] => destruct c end;
    intros [= <-]; auto.
Qed.

Lemma load_header_errors (max_size : Z) (file_data : list byte) (e : load_error) :
  load_header max_size file_data = inl e ->
  e = UnexpectedEof ∨ e = BadMagic ∨ e = UnsupportedChannels
  ∨ e = UnsupportedColorspace ∨ e = InvalidDimensions.
Proof.
  unfold load_header.
  repeat match goal with |- context [if ?c then _ else _] => destruct c end;
    intros [= <-]; auto 6.
Qed.

(** [load_image] never reports "Too many encoded pixels.". *)
Lemma load_image_no_run_error (max_size : Z) (file_data : list byte) :
  load_image max_size file_data ≠ Rejected InvalidRunLength.
Proof.
  unfold load_image.
  destruct (load_header max_size file_data) as [e|result] eqn:Hh.
  - apply load_header_errors in Hh. intros [= ->]. intuition discriminate.
  - destruct (_ =? 0); [discriminate|].
    destruct (load_chunks _ _ _ _) eqn:Hl; try discriminate.
    + destruct (check_end_marker file_data st) eqn:Hc; [|discriminate].
      apply check_end_marker_errors in Hc. intros [= ->]. intuition discriminate.
    + intros [= ->]. revert Hl. apply load_chunks_no_run_error.
Qed.

(** [load_image] is total: the chunk loop always comes to an end. *)
Lemma load_image_fuel (max_size : Z) (file_data : list byte) :
  load_image max_size file_data ≠ LoadFuel.
Proof.
  unfold load_image.
  destruct (load_header max_size file_data) as [e|result]; [discriminate|].
  destruct (_ =? 0); [discriminate|].
  destruct (load_chunks _ _ _ _) eqn:Hl; try discriminate.
  - destruct (check_end_marker file_data st); discriminate.
  - exfalso. revert Hl. apply load_chunks_fuel.
    unfold pixel_index, load_start, wrap32. cbn.
    pose proof (Z.mod_pos_bound (width result * height result) (2 ^ 32)). lia.
Qed.

(** ** The end marker met inside the loop *)

Lemma memcmp_end_marker_shift (file_data : list byte) (i : Z) :
  0 <= i ->
  memcmp_eq file_data i QOI_END_MARKER = true ->
  memcmp_eq file_data (i + 1) QOI_END_MARKER = false.
Proof.
  intros Hi H. unfold memcmp_eq, bytes_at, QOI_END_MARKER in *. cbn [length] in *.
  apply bool_decide_eq_true in H. apply bool_decide_eq_false.
  replace (Z.to_nat (i + 1)) with (Z.to_nat i + 1)%nat by lia.
  rewrite <- drop_drop.
  destruct (drop (Z.to_nat i) file_data) as [|b0 [|b1 [|b2 [|b3 [|b4 [|b5 [|b6 [|b7 l]]]]]]]];
    try discriminate H.
  cbn in *. injection H; intros; subst. destruct l; discriminate.
Qed.

(** When the loop is left through the [break] of the index branch,
    [file_index] is one past the first byte of the end marker that was
    found, and the checks after the loop reject the file: with
    "The file ends unexpectedly." when the marker found ends the file, and
    with "Invalid end marker." otherwise. *)
Lemma end_marker_break_rejected (file_data : list byte) (max_pixel_index : Z)
    (st st' : load_state) :
  0 <= l_file_index st ->
  load_chunk file_data max_pixel_index st = EndMarkerSeen st' ->
  tag_kind (byte_at file_data (l_file_index st)) = OpIndex
  ∧ memcmp_eq file_data (l_file_index st) QOI_END_MARKER = true
  ∧ l_file_index st' = l_file_index st + 1
  ∧ check_end_marker file_data st' =
      Some (if file_size file_data <? l_file_index st + 1 + QOI_END_MARKER_SIZE
            then UnexpectedEof else InvalidEndMarker).
Proof.
  intros Hi H. rewrite load_chunk_unfold in H.
  destruct (_ <? _); [discriminate|].
  unfold store_and_cache, store_pixels in H.
  destruct (tag_kind _) eqn:Hk; cbv zeta in H;
    repeat match type of H with
           | (if ?c then _ else _) = _ => destruct c eqn:?; try discriminate H
           | match (if ?c then _ else _) with _ => _ end = _ =>
               destruct c eqn:?; try discriminate H
           end.
  injection H as <-. repeat split; try assumption.
  unfold check_end_marker, after; cbn [l_file_index].
  destruct (_ <? _); [reflexivity|].
  rewrite memcmp_end_marker_shift by assumption. reflexivity.
Qed.

(** C2 (the code departs from it). A file of one pixel whose chunk is a
    run of two: the test of the run branch does not fire, "Too many
    encoded pixels." is not reported, and the second pixel is stored past
    the end of [result->pixels]. Evaluated with the 524288 that GIMP 2.10
    has for [GIMP_MAX_IMAGE_SIZE]. *)
Theorem run_overrun_not_rejected :
  tag_kind (byte_at file_run_overrun 14) = OpRun
  ∧ load_header 524288 file_run_overrun
    = inr {| pixels := []; width := 1; height := 1;
             colorspace := QOI_COLORSPACE_SRGB; has_alpha := true |}
  ∧ load_image 524288 file_run_overrun = LoadOutOfBounds
  ∧ ∀ max_size file_data, load_image max_size file_data ≠ Rejected InvalidRunLength.
Proof.
  split; [vm_compute; reflexivity|]. split; [vm_compute; reflexivity|].
  split; [vm_compute; reflexivity|]. apply load_image_no_run_error.
Qed.

(** C3 (the code departs from it). A file in which the end marker stands
    where a chunk is expected, with nothing after it: the index branch
    finds the marker and leaves the loop, but [file_index] is then one
    past the start of the marker, so that the checks after the loop do not
    see the marker that was found, and the file is rejected with
    "The file ends unexpectedly.". *)
Theorem early_end_marker_rejected :
  Z.land (u8 (byte_at file_early_end_marker 14)) QOI_SMALL_TAG_MASK = QOI_OP_INDEX
  ∧ bytes_at file_early_end_marker 14 8 = QOI_END_MARKER
  ∧ file_size file_early_end_marker = 14 + 8
  ∧ load_chunk file_early_end_marker 1 (load_start 14)
    = EndMarkerSeen (after 1 start_pixel (load_start 14))
  ∧ load_image 524288 file_early_end_marker = Rejected UnexpectedEof.
Proof. repeat split; vm_compute; reflexivity. Qed.

(** ** The channel count of the header *)

Lemma byte_at_agree (k : nat) (fd fd' : list byte) (i : Z) :
  drop k fd = drop k fd' -> (k <= Z.to_nat i)%nat -> byte_at fd i = byte_at fd' i.
Proof.
  intros H Hi. unfold byte_at.
  replace (Z.to_nat i) with (k + (Z.to_nat i - k))%nat by lia.
  rewrite <- !lookup_total_drop, H. reflexivity.
Qed.

Lemma bytes_at_agree (k : nat) (fd fd' : list byte) (i : Z) (n : nat) :
  drop k fd = drop k fd' -> (k <= Z.to_nat i)%nat -> bytes_at fd i n = bytes_at fd' i n.
Proof.
  intros H Hi. unfold bytes_at.
  replace (Z.to_nat i) with (k + (Z.to_nat i - k))%nat by lia.
  rewrite <- !drop_drop, H. reflexivity.
Qed.

Lemma load_chunk_agree (k : nat) (fd fd' : list byte) (max_pixel_index : Z) (st : load_state) :
  length fd = length fd' -> drop k fd = drop k fd' -> (k <= Z.to_nat (l_file_index st))%nat ->
  load_chunk fd max_pixel_index st = load_chunk fd' max_pixel_index st.
Proof.
  intros Hlen H Hi. rewrite !load_chunk_unfold. cbv zeta.
  unfold file_size, memcmp_eq. rewrite Hlen.
  rewrite (byte_at_agree k fd fd' (l_file_index st)) by (assumption || lia).
  rewrite (byte_at_agree k fd fd' (l_file_index st + 1)) by (assumption || lia).
  rewrite (byte_at_agree k fd fd' (l_file_index st + 2)) by (assumption || lia).
  rewrite (byte_at_agree k fd fd' (l_file_index st + 3)) by (assumption || lia).
  rewrite (byte_at_agree k fd fd' (l_file_index st + 4)) by (assumption || lia).
  rewrite (bytes_at_agree k fd fd' (l_file_index st)) by (assumption || lia).
  reflexivity.
Qed.

Lemma load_chunks_agree (k : nat) (fd fd' : list byte) (max_pixel_index : Z) (fuel : nat) :
  length fd = length fd' -> drop k fd = drop k fd' ->
  ∀ st, (k <= Z.to_nat (l_file_index st))%nat ->
        load_chunks fd max_pixel_index fuel st = load_chunks fd' max_pixel_index fuel st.
Proof.
  intros Hlen H. induction fuel as [|fuel IH]; intros st Hi; cbn [load_chunks]; [reflexivity|].
  destruct (_ <? _); [|reflexivity].
  rewrite <- (load_chunk_agree k fd fd') by assumption.
  destruct (load_chunk fd max_pixel_index st) eqn:E; try reflexivity.
  apply IH. apply load_chunk_advances in E. lia.
Qed.

Lemma check_end_marker_agree (k : nat) (fd fd' : list byte) (st : load_state) :
  length fd = length fd' -> drop k fd = drop k fd' -> (k <= Z.to_nat (l_file_index st))%nat ->
  check_end_marker fd st = check_end_marker fd' st.
Proof.
  intros Hlen H Hi. unfold check_end_marker, file_size, memcmp_eq. rewrite Hlen.
  rewrite (bytes_at_agree k fd fd' (l_file_index st)) by (assumption || lia).
  reflexivity.
Qed.

(** The chunk loop and the checks after it read the file from offset 14
    on, so that they do not see the header. *)
Lemma load_chunks_from_header (fd fd' : list byte) (max_pixel_index : Z) (fuel : nat) :
  length fd = length fd' -> drop 14 fd = drop 14 fd' ->
  load_chunks fd max_pixel_index fuel (load_start QOI_HEADER_SIZE)
  = load_chunks fd' max_pixel_index fuel (load_start QOI_HEADER_SIZE)
  ∧ ∀ st, load_chunks fd max_pixel_index fuel (load_start QOI_HEADER_SIZE) = LoopDone st ->
          check_end_marker fd st = check_end_marker fd' st.
Proof.
  intros Hlen H. split.
  - apply (load_chunks_agree 14); [assumption..|]. unfold QOI_HEADER_SIZE. cbn. lia.
  - intros st Hst. apply (check_end_marker_agree 14); [assumption..|].
    enough (Hge : ∀ fuel st0 st1, 14 <= l_file_index st0 ->
              load_chunks fd max_pixel_index fuel st0 = LoopDone st1 -> 14 <= l_file_index st1).
    { assert (H14 : 14 <= l_file_index (load_start QOI_HEADER_SIZE))
        by (unfold QOI_HEADER_SIZE; cbn; lia).
      specialize (Hge fuel _ _ H14 Hst). lia. }
    clear. induction fuel as [|fuel IH]; intros st0 st1 H0; cbn [load_chunks].
    + destruct (_ <? _); [discriminate|]. intros [= <-]. assumption.
    + destruct (_ <? _); [|intros [= <-]; assumption].
      destruct (load_chunk fd max_pixel_index st0) eqn:E; try discriminate.
      * apply IH. apply load_chunk_advances in E. lia.
      * intros [= <-]. rewrite load_chunk_unfold in E. destruct (_ <? _); [discriminate|].
        unfold store_and_cache, store_pixels in E.
        destruct (tag_kind _); cbv zeta in E;
          repeat match type of E with
                 | (if ?c then _ else _) = _ => destruct c eqn:?; try discriminate E
                 | match (if ?c then _ else _) with _ => _ end = _ =>
                     destruct c eqn:?; try discriminate E
                 end.
        injection E as <-. cbn. lia.
Qed.

Lemma header_load_set_channels (fd : list byte) (c : byte) :
  (12 < length fd)%nat ->
  header_load (<[12%nat := c]> fd) 0 =
  {| magic := magic (header_load fd 0);
     h_width := h_width (header_load fd 0);
     h_height := h_height (header_load fd 0);
     channels := c;
     h_colorspace := h_colorspace (header_load fd 0) |}.
Proof.
  intros Hlen. unfold header_load, guint32_load, bytes_at, byte_at. cbn [magic h_width h_height h_colorspace].
  change (Z.to_nat 0) with 0%nat. rewrite !drop_0.
  rewrite take_insert_ge by lia.
  rewrite list_lookup_total_insert_eq by (cbn; lia).
  rewrite !list_lookup_total_insert_ne by (cbn; lia). reflexivity.
Qed.

(** C9. Two files that differ in the channel count of the header only,
    3 in one and 4 in the other, load alike: the same failure, or two
    images with the same pixels (alpha included), width, height and
    colorspace, the first without the alpha flag and the second with
    it. *)
Theorem channel_count_independence (max_size : Z) (file_data : list byte) :
  let rgb := <[12%nat := Byte.x03]> file_data in
  let rgba := <[12%nat := Byte.x04]> file_data in
  load_image max_size rgb = with_has_alpha false (load_image max_size rgba)
  ∧ load_image max_size rgba = with_has_alpha true (load_image max_size rgb)
  ∧ ∀ image, load_image max_size rgba = Loaded image ->
      has_alpha image = true
      ∧ ∃ image', load_image max_size rgb = Loaded image'
                  ∧ has_alpha image' = false
                  ∧ pixels image' = pixels image
                  ∧ width image' = width image
                  ∧ height image' = height image
                  ∧ colorspace image' = colorspace image.
Proof.
  intros rgb rgba.
  assert (Hlen : length rgb = length rgba) by (subst rgb rgba; rewrite !length_insert; reflexivity).
  assert (Hdrop : drop 14 rgb = drop 14 rgba)
    by (subst rgb rgba; rewrite !drop_insert_lt by lia; reflexivity).
  assert (Hcases :
    (∃ e, load_image max_size rgb = Rejected e ∧ load_image max_size rgba = Rejected e)
    ∨ (load_image max_size rgb = LoadOutOfBounds ∧ load_image max_size rgba = LoadOutOfBounds)
    ∨ (load_image max_size rgb = LoadFuel ∧ load_image max_size rgba = LoadFuel)
    ∨ (∃ p w h c, load_image max_size rgb
                  = Loaded {| pixels := p; width := w; height := h; colorspace := c;
                              has_alpha := false |}
                  ∧ load_image max_size rgba
                    = Loaded {| pixels := p; width := w; height := h; colorspace := c;
                                has_alpha := true |})).
  { unfold load_image, load_header, file_size. rewrite <- Hlen.
    destruct (Z.ltb_spec (Z.of_nat (length rgb)) (0 + QOI_HEADER_SIZE)) as [Hs|Hs]; [eauto|].
    assert (12 < length file_data)%nat
      by (subst rgb; rewrite length_insert in Hs; unfold QOI_HEADER_SIZE in Hs; lia).
    subst rgb rgba. rewrite !header_load_set_channels by assumption.
    cbn [magic h_width h_height channels h_colorspace].
    set (rgb := <[12%nat := Byte.x03]> file_data) in *.
    set (rgba := <[12%nat := Byte.x04]> file_data) in *.
    destruct (negb _); [eauto|].
    change (u8 Byte.x03 =? QOI_CHANNELS_RGB) with true.
    change (u8 Byte.x04 =? QOI_CHANNELS_RGB) with false.
    change (u8 Byte.x04 =? QOI_CHANNELS_RGBA) with true. cbv iota.
    destruct (_ =? colorspace_value QOI_COLORSPACE_SRGB);
      [|destruct (_ =? colorspace_value QOI_COLORSPACE_LINEAR); [|eauto]].
    all: destruct (_ || _); [eauto|]; destruct (_ || _); [eauto|].
    all: cbn [width height colorspace has_alpha pixels].
    all: destruct (_ =? 0); [eauto|].
    all: destruct (load_chunks_from_header rgb rgba
                     (wrap32 (guint32_swap_local_and_big_endian (h_width (header_load file_data 0))
                              * guint32_swap_local_and_big_endian
                                  (h_height (header_load file_data 0))))
                     (Z.to_nat (wrap32 (guint32_swap_local_and_big_endian
                                          (h_width (header_load file_data 0))
                              * guint32_swap_local_and_big_endian
                                  (h_height (header_load file_data 0)))))
                     Hlen Hdrop) as [Hloop Hend].
    all: rewrite <- Hloop.
    all: destruct (load_chunks rgb _ _ _) eqn:E; eauto 10.
    all: rewrite <- (Hend st eq_refl).
    all: destruct (check_end_marker rgb st); eauto 10.
    all: right; right; right; eauto 10. }
  destruct Hcases as [(e & -> & ->) | [(-> & ->) | [(-> & ->) | (p & w & h & c & -> & ->)]]];
    cbn; (split; [reflexivity|split; [reflexivity|]]); intros image Heq;
    try discriminate Heq.
  injection Heq as <-. cbn. split; [reflexivity|]. eexists; repeat split.
Qed.

(** ** The header *)

(** The byte swap, in arithmetic. *)
Lemma swap_bits (x : Z) :
  guint32_swap_local_and_big_endian x =
  (x / 2 ^ 24) mod 2 ^ 8 + ((x / 2 ^ 16) mod 2 ^ 8) * 2 ^ 8
  + ((x / 2 ^ 8) mod 2 ^ 8) * 2 ^ 16 + (x mod 2 ^ 8) * 2 ^ 24.
Proof.
  rewrite <- !Z.land_ones by lia. rewrite <- !Z.shiftr_div_pow2 by lia.
  rewrite <- !Z.shiftl_mul_pow2 by lia.
  set (A := Z.land (Z.shiftr x 24) (Z.ones 8)).
  set (B := Z.shiftl (Z.land (Z.shiftr x 16) (Z.ones 8)) 8).
  set (C := Z.shiftl (Z.land (Z.shiftr x 8) (Z.ones 8)) 16).
  set (D := Z.shiftl (Z.land x (Z.ones 8)) 24).
  assert (HD : Z.land (Z.lor (Z.lor A B) C) D = 0) by (subst A B C D; Z.bitblast).
  assert (HC : Z.land (Z.lor A B) C = 0) by (subst A B C D; Z.bitblast).
  assert (HB : Z.land A B = 0) by (subst A B C D; Z.bitblast).
  rewrite <- (Z.or_to_plus A B HB), <- (Z.or_to_plus _ C HC), <- (Z.or_to_plus _ D HD).
  unfold guint32_swap_local_and_big_endian.
  change 0xFF000000 with (Z.shiftl (Z.ones 8) 24).
  change 0x00FF0000 with (Z.shiftl (Z.ones 8) 16).
  change 0x0000FF00 with (Z.shiftl (Z.ones 8) 8).
  change 0x000000FF with (Z.ones 8).
  replace (Z.shiftr (Z.land x (Z.shiftl (Z.ones 8) 24)) 24) with A
    by (subst A; Z.bitblast).
  replace (Z.shiftr (Z.land x (Z.shiftl (Z.ones 8) 16)) 8) with B
    by (subst B; Z.bitblast).
  replace (Z.shiftl (Z.land x (Z.shiftl (Z.ones 8) 8)) 8) with C
    by (subst C; Z.bitblast).
  reflexivity.
Qed.

Lemma swap_little_endian (b0 b1 b2 b3 : Z) :
  0 <= b0 < 256 -> 0 <= b1 < 256 -> 0 <= b2 < 256 -> 0 <= b3 < 256 ->
  guint32_swap_local_and_big_endian (b0 + b1 * 2 ^ 8 + b2 * 2 ^ 16 + b3 * 2 ^ 24)
  = b0 * 2 ^ 24 + b1 * 2 ^ 16 + b2 * 2 ^ 8 + b3.
Proof.
  intros. rewrite swap_bits.
  change (2^8) with 256. change (2^16) with 65536. change (2^24) with 16777216.
  Z.div_mod_to_equations. lia.
Qed.

Lemma swap_guint32_load (file_data : list byte) (i : Z) :
  guint32_swap_local_and_big_endian (guint32_load file_data i)
  = big_endian (byte_at file_data i) (byte_at file_data (i + 1))
      (byte_at file_data (i + 2)) (byte_at file_data (i + 3)).
Proof.
  unfold guint32_load, big_endian. apply swap_little_endian; apply u8_range.
Qed.

(** [load_header], test by test and in the order of the tests: fewer
    than 14 bytes; the magic; the channel count, 3 or 4; the colorspace,
    0 or 1; the width and the height, read most significant byte first,
    from 1 to the maximum; otherwise the four fields of the image. A
    failure of the header is the failure of [load_image]. *)
Lemma load_header_spec (max_size : Z) (file_data : list byte) :
  let b := byte_at file_data in
  let w := big_endian (b 4) (b 5) (b 6) (b 7) in
  let h := big_endian (b 8) (b 9) (b 10) (b 11) in
  let r := load_header max_size file_data in
  (file_size file_data < 14 → r = inl UnexpectedEof)
  ∧ (14 <= file_size file_data →
     (take 4 file_data ≠ QOI_MAGIC → r = inl BadMagic)
     ∧ (take 4 file_data = QOI_MAGIC →
        (u8 (b 12) ≠ 3 → u8 (b 12) ≠ 4 → r = inl UnsupportedChannels)
        ∧ (u8 (b 12) = 3 ∨ u8 (b 12) = 4 →
           (u8 (b 13) ≠ 0 → u8 (b 13) ≠ 1 → r = inl UnsupportedColorspace)
           ∧ (u8 (b 13) = 0 ∨ u8 (b 13) = 1 →
              (w = 0 ∨ w > max_size ∨ h = 0 ∨ h > max_size → r = inl InvalidDimensions)
              ∧ (1 <= w <= max_size → 1 <= h <= max_size →
                 r = inr {| pixels := [];
                            width := w;
                            height := h;
                            colorspace := if u8 (b 13) =? 0 then QOI_COLORSPACE_SRGB
                                          else QOI_COLORSPACE_LINEAR;
                            has_alpha := u8 (b 12) =? 4 |})))))
  ∧ (∀ e, r = inl e → load_image max_size file_data = Rejected e).
Proof.
  intros b w h r.
  assert (Hw : guint32_swap_local_and_big_endian (h_width (header_load file_data 0)) = w).
  { unfold header_load; cbn [h_width]. rewrite swap_guint32_load. reflexivity. }
  assert (Hh : guint32_swap_local_and_big_endian (h_height (header_load file_data 0)) = h).
  { unfold header_load; cbn [h_height]. rewrite swap_guint32_load. reflexivity. }
  pose proof (u8_range (b 12)) as Hc. pose proof (u8_range (b 13)) as Hs.
  split; [|split].
  - intros Hlt. subst r. unfold load_header, QOI_HEADER_SIZE.
    destruct (Z.ltb_spec (file_size file_data) (0 + 14)); [reflexivity | lia].
  - intros Hge. subst r. unfold load_header, QOI_HEADER_SIZE.
    destruct (Z.ltb_spec (file_size file_data) (0 + 14)); [lia|].
    rewrite Hw, Hh.
    change (channels (header_load file_data 0)) with (b 12).
    change (h_colorspace (header_load file_data 0)) with (b 13).
    change (magic (header_load file_data 0)) with (take 4 file_data).
    unfold QOI_CHANNELS_RGB, QOI_CHANNELS_RGBA, colorspace_value.
    split; [intros Hm | intros Hm; split; [intros H3 H4 | intros H34; split;
      [intros H0 H1 | intros H01; split; [intros Hd | intros Hwr Hhr]]]].
    + rewrite bool_decide_eq_false_2 by assumption. reflexivity.
    + rewrite bool_decide_eq_true_2 by assumption. cbn [negb].
      destruct (Z.eqb_spec (u8 (b 12)) 3); [lia|].
      destruct (Z.eqb_spec (u8 (b 12)) 4); [lia|]. reflexivity.
    + rewrite bool_decide_eq_true_2 by assumption. cbn [negb].
      destruct (Z.eqb_spec (u8 (b 12)) 3); [|destruct (Z.eqb_spec (u8 (b 12)) 4); [|lia]];
        (destruct (Z.eqb_spec (u8 (b 13)) 0); [lia|];
         destruct (Z.eqb_spec (u8 (b 13)) 1); [lia|]; reflexivity).
    + rewrite bool_decide_eq_true_2 by assumption. cbn [negb].
      destruct (Z.eqb_spec (u8 (b 12)) 3); [|destruct (Z.eqb_spec (u8 (b 12)) 4); [|lia]];
        (destruct (Z.eqb_spec (u8 (b 13)) 0); [|destruct (Z.eqb_spec (u8 (b 13)) 1); [|lia]]);
        (destruct (Z.eqb_spec w 0); cbn [orb]; [reflexivity|];
         destruct (Z.gtb_spec w max_size); cbn [orb]; [reflexivity|];
         destruct (Z.eqb_spec h 0); cbn [orb]; [reflexivity|];
         destruct (Z.gtb_spec h max_size); cbn [orb]; [reflexivity|]; lia).
    + rewrite bool_decide_eq_true_2 by assumption. cbn [negb].
      destruct (Z.eqb_spec (u8 (b 12)) 3); [|destruct (Z.eqb_spec (u8 (b 12)) 4); [|lia]];
        (destruct (Z.eqb_spec (u8 (b 13)) 0); [|destruct (Z.eqb_spec (u8 (b 13)) 1); [|lia]]);
        (destruct (Z.eqb_spec w 0); cbn [orb]; [lia|];
         destruct (Z.gtb_spec w max_size); cbn [orb]; [lia|];
         destruct (Z.eqb_spec h 0); cbn [orb]; [lia|];
         destruct (Z.gtb_spec h max_size); cbn [orb]; [lia|];
         repeat f_equal; symmetry; first [apply Z.eqb_eq | apply Z.eqb_neq]; lia).
  - intros e He. unfold load_image. subst r. rewrite He. reflexivity.
Qed.

(** C5 (the code departs from it for three sizes of file). What
    [load_image] makes of the header of a file, by the size of the file.
    A file of 16 bytes or more goes through the tests in their order:
    the magic ([BadMagic]); the channel count, 3 or 4
    ([UnsupportedChannels]); the colorspace, 0 or 1
    ([UnsupportedColorspace]); the width and the height, read most
    significant byte first, from 1 to the maximum ([InvalidDimensions]);
    otherwise the four fields of the image. A file of 1 to 13 bytes is
    rejected with [UnexpectedEof]. A file of no bytes is not: the
    allocation of no bytes returns NULL, and the code reports "Could not
    read from file.". For a file of 14 or 15 bytes the copy of the
    header reads [sizeof (QoiHeader)] = 16 bytes, past the end of the
    block: the empty file and [header_1x1], 14 bytes that are a header
    without a flaw, are two such files. *)
Theorem load_header_of_file_spec (max_size : Z) (contents : list byte) :
  let b := byte_at contents in
  let w := big_endian (b 4) (b 5) (b 6) (b 7) in
  let h := big_endian (b 8) (b 9) (b 10) (b 11) in
  let r := load_header_of_file max_size contents in
  (file_size contents = 0 → r = CouldNotRead)
  ∧ (1 <= file_size contents < 14 → r = HeaderRejected UnexpectedEof)
  ∧ (14 <= file_size contents < 16 → r = HeaderCopyOutOfBounds)
  ∧ (16 <= file_size contents →
     (take 4 contents ≠ QOI_MAGIC → r = HeaderRejected BadMagic)
     ∧ (take 4 contents = QOI_MAGIC →
        (u8 (b 12) ≠ 3 → u8 (b 12) ≠ 4 → r = HeaderRejected UnsupportedChannels)
        ∧ (u8 (b 12) = 3 ∨ u8 (b 12) = 4 →
           (u8 (b 13) ≠ 0 → u8 (b 13) ≠ 1 → r = HeaderRejected UnsupportedColorspace)
           ∧ (u8 (b 13) = 0 ∨ u8 (b 13) = 1 →
              (w = 0 ∨ w > max_size ∨ h = 0 ∨ h > max_size
               → r = HeaderRejected InvalidDimensions)
              ∧ (1 <= w <= max_size → 1 <= h <= max_size →
                 r = HeaderLoaded
                       {| pixels := [];
                          width := w;
                          height := h;
                          colorspace := if u8 (b 13) =? 0 then QOI_COLORSPACE_SRGB
                                        else QOI_COLORSPACE_LINEAR;
                          has_alpha := u8 (b 12) =? 4 |})))))
  ∧ load_header_of_file max_size [] = CouldNotRead
  ∧ load_header_of_file max_size header_1x1 = HeaderCopyOutOfBounds.
Proof.
  intros b w h r.
  assert (Hr : 16 <= file_size contents →
               r = match load_header max_size contents with
                   | inl e => HeaderRejected e
                   | inr result => HeaderLoaded result
                   end).
  { intros Hge. subst r. unfold load_header_of_file, QOI_HEADER_SIZE, sizeof_QoiHeader.
    cbv zeta.
    destruct (Z.eqb_spec (file_size contents) 0); [lia|].
    destruct (Z.ltb_spec (file_size contents) (0 + 14)); [lia|].
    destruct (Z.ltb_spec (file_size contents) (0 + 16)); [lia|]. reflexivity. }
  split; [|split; [|split; [|split; [|split]]]].
  - intros Hsize. subst r. unfold load_header_of_file. cbv zeta.
    rewrite Hsize. reflexivity.
  - intros Hsize. subst r. unfold load_header_of_file, QOI_HEADER_SIZE. cbv zeta.
    destruct (Z.eqb_spec (file_size contents) 0); [lia|].
    destruct (Z.ltb_spec (file_size contents) (0 + 14)); [reflexivity | lia].
  - intros Hsize. subst r.
    unfold load_header_of_file, QOI_HEADER_SIZE, sizeof_QoiHeader. cbv zeta.
    destruct (Z.eqb_spec (file_size contents) 0); [lia|].
    destruct (Z.ltb_spec (file_size contents) (0 + 14)); [lia|].
    destruct (Z.ltb_spec (file_size contents) (0 + 16)); [reflexivity | lia].
  - intros Hsize. specialize (Hr Hsize).
    pose proof (load_header_spec max_size contents) as Hspec. cbv zeta in Hspec.
    destruct Hspec as (_ & Hspec & _).
    destruct (Hspec ltac:(lia)) as (Hbad & Hmagic).
    split; [intros Hm; rewrite Hr, (Hbad Hm); reflexivity|].
    intros Hm. destruct (Hmagic Hm) as (Hch & Hchannels).
    split; [intros H3 H4; rewrite Hr, (Hch H3 H4); reflexivity|].
    intros H34. destruct (Hchannels H34) as (Hcs & Hcolorspace).
    split; [intros H0 H1; rewrite Hr, (Hcs H0 H1); reflexivity|].
    intros H01. destruct (Hcolorspace H01) as (Hdim & Hok).
    split; [intros Hd; rewrite Hr, (Hdim Hd); reflexivity|].
    intros Hwr Hhr. rewrite Hr, (Hok Hwr Hhr). reflexivity.
  - reflexivity.
  - reflexivity.
Qed.

(** ** Runs *)

(** The run loop over the last [S m] pixels of a run, entered with [run]
    pixels counted and not yet stored: full chunks of 62, then a chunk for
    what remains. *)
Lemma save_run_spec (image : QoiImage) (max_pixel_index : Z) (m : nat) :
  ∀ (fuel : nat) (run : byte) (st : save_state),
    let i := s_pixel_index st in
    let n := Z.of_nat (S m) in
    (S m <= fuel)%nat ->
    u8 run < 62 ->
    i + n <= max_pixel_index ->
    (∀ k, 1 <= k < n → pixel_at image (i + k) = s_previous_pixel st) ->
    (i + n < max_pixel_index → pixel_at image (i + n) ≠ s_previous_pixel st) ->
    save_run image max_pixel_index fuel run st =
    Some {| s_file_data :=
              s_file_data st
              ++ replicate (Z.to_nat ((u8 run + n - 1) / 62)) Byte.xfd
              ++ [to_u8 (Z.lor QOI_OP_RUN ((u8 run + n - 1) mod 62))];
            s_pixel_index := i + n;
            s_previous_pixel := s_previous_pixel st;
            s_array := s_array st |}.
Proof.
  induction m as [|m IH]; intros fuel run st i n Hfuel Hrun Hmax Hsame Hnext;
    (destruct fuel as [|fuel]; [lia|]); cbn [save_run];
    pose proof (u8_range run) as Hr;
    rewrite (u8_to_u8_small (u8 run + 1)) by lia;
    cbn [next_pixel s_pixel_index s_previous_pixel]; fold i.
  - (* the last pixel of the run *)
    assert (Hp : (i + 1 <? max_pixel_index)
                 && qoi_pixel_equal (s_previous_pixel st) (pixel_at image (i + 1)) = false).
    { destruct (Z.ltb_spec (i + 1) max_pixel_index); [|reflexivity]. cbn [andb].
      apply qoi_pixel_equal_false. intros E. apply Hnext; [subst n; lia | symmetry; exact E]. }
    rewrite Hp, orb_true_r. subst n. change (Z.of_nat 1) with 1.
    unfold put; cbn [s_file_data s_pixel_index s_previous_pixel s_array].
    replace (u8 run + 1 - 1) with (u8 run) by lia.
    rewrite Z.div_small, Z.mod_small by lia. reflexivity.
  - (* a pixel inside the run *)
    assert (Hp : (i + 1 <? max_pixel_index)
                 && qoi_pixel_equal (s_previous_pixel st) (pixel_at image (i + 1)) = true).
    { apply andb_true_intro. split; [apply Z.ltb_lt; subst n; lia|].
      apply qoi_pixel_equal_spec. symmetry. apply Hsame. subst n. lia. }
    rewrite Hp, orb_false_r. unfold QOI_MAX_RUN_LENGTH.
    destruct (Z.eqb_spec (u8 run + 1) 62) as [E|E].
    + rewrite IH; cbn [put next_pixel s_pixel_index s_previous_pixel s_file_data s_array].
      * f_equal. f_equal; [|subst n; lia].
        change (u8 (to_u8 0)) with 0.
        replace (u8 run + n - 1) with (Z.of_nat (S m) - 1 + 1 * 62) by (subst n; lia).
        rewrite Z.div_add, Z.mod_add by lia.
        replace (Z.to_nat ((Z.of_nat (S m) - 1) / 62 + 1))
          with (S (Z.to_nat ((Z.of_nat (S m) - 1) / 62)))
          by (assert (0 <= (Z.of_nat (S m) - 1) / 62) by (apply Z.div_pos; lia); lia).
        rewrite E. cbn [replicate]. rewrite <- app_assoc. cbn [app].
        replace (0 + Z.of_nat (S m) - 1) with (Z.of_nat (S m) - 1) by lia. reflexivity.
      * lia.
      * change (u8 (to_u8 0)) with 0. lia.
      * subst n. lia.
      * intros k Hk. replace (s_pixel_index st + 1 + k) with (i + (k + 1)) by (subst i; lia).
        apply Hsame. subst n. lia.
      * intros Hlt.
        replace (s_pixel_index st + 1 + Z.of_nat (S m)) with (i + n) in * by (subst i n; lia).
        apply Hnext. exact Hlt.
    + rewrite IH; cbn [put next_pixel s_pixel_index s_previous_pixel s_file_data s_array].
      * f_equal. rewrite (u8_to_u8_small (u8 run + 1)) by lia.
        replace (u8 run + 1 + Z.of_nat (S m) - 1) with (u8 run + n - 1) by (subst n; lia).
        f_equal. subst n. lia.
      * lia.
      * rewrite u8_to_u8_small by lia. lia.
      * subst n. lia.
      * intros k Hk. replace (s_pixel_index st + 1 + k) with (i + (k + 1)) by (subst i; lia).
        apply Hsame. subst n. lia.
      * intros Hlt.
        replace (s_pixel_index st + 1 + Z.of_nat (S m)) with (i + n) in * by (subst i n; lia).
        apply Hnext. exact Hlt.
Qed.

(** The run branch of [save_pixel] over a run of [n] pixels. *)
Lemma save_pixel_run (image : QoiImage) (max_pixel_index : Z) (st : save_state) (n : Z) :
  let i := s_pixel_index st in
  1 <= n ->
  i + n <= max_pixel_index ->
  (∀ k, 0 <= k < n → pixel_at image (i + k) = s_previous_pixel st) ->
  (i + n < max_pixel_index → pixel_at image (i + n) ≠ s_previous_pixel st) ->
  save_pixel image max_pixel_index st =
  Some {| s_file_data :=
            s_file_data st ++ replicate (Z.to_nat ((n - 1) / 62)) Byte.xfd
            ++ [to_u8 (Z.lor QOI_OP_RUN ((n - 1) mod 62))];
          s_pixel_index := i + n;
          s_previous_pixel := s_previous_pixel st;
          s_array := s_array st |}.
Proof.
  intros i Hn Hmax Hsame Hnext.
  assert (Hrun : save_pixel image max_pixel_index st
                 = save_run image max_pixel_index (Z.to_nat (max_pixel_index - i)) (to_u8 0) st).
  { unfold save_pixel. fold i.
    replace (qoi_pixel_equal (s_previous_pixel st) (pixel_at image i)) with true; [reflexivity|].
    symmetry. apply qoi_pixel_equal_spec. symmetry.
    replace i with (i + 0) by lia. apply Hsame. lia. }
  pose proof (save_run_spec image max_pixel_index (Z.to_nat (n - 1))
                (Z.to_nat (max_pixel_index - i)) (to_u8 0) st) as Hspec.
  cbv zeta in Hspec. fold i in Hspec.
  replace (Z.of_nat (S (Z.to_nat (n - 1)))) with n in Hspec by lia.
  change (u8 (to_u8 0)) with 0 in Hspec.
  replace (0 + n - 1) with (n - 1) in Hspec by lia.
  rewrite Hrun. apply Hspec; try lia.
  - intros k Hk. apply Hsame. lia.
  - exact Hnext.
Qed.

(** C6. A run of [n] pixels equal to the previous pixel, with a different
    pixel or the end of the image after it, is stored as chunks of 62
    (stored length 61, the byte 0xFD), as many as fit, and one chunk for
    what remains, from 1 to 62 pixels: a run of 62 is the one byte 0xFD,
    a run of 63 the bytes 0xFD 0xC0. The cache and the previous pixel are
    left as they are. *)
Theorem run_chunks (image : QoiImage) (max_pixel_index : Z) (st : save_state) (n : Z) :
  let i := s_pixel_index st in
  1 <= n ->
  i + n <= max_pixel_index ->
  (∀ k, 0 <= k < n → pixel_at image (i + k) = s_previous_pixel st) ->
  (i + n < max_pixel_index → pixel_at image (i + n) ≠ s_previous_pixel st) ->
  ∃ st',
    save_pixel image max_pixel_index st = Some st'
    ∧ s_file_data st' =
        s_file_data st ++ replicate (Z.to_nat ((n - 1) / 62)) Byte.xfd
        ++ [to_u8 (Z.lor QOI_OP_RUN ((n - 1) mod 62))]
    ∧ 0 <= (n - 1) mod 62 <= 61
    ∧ s_pixel_index st' = i + n
    ∧ s_previous_pixel st' = s_previous_pixel st
    ∧ s_array st' = s_array st
    ∧ (n = 62 → s_file_data st' = s_file_data st ++ [Byte.xfd])
    ∧ (n = 63 → s_file_data st' = s_file_data st ++ [Byte.xfd; Byte.xc0]).
Proof.
  intros i Hn Hmax Hsame Hnext.
  eexists. split; [apply save_pixel_run; eassumption|].
  cbn [s_file_data s_pixel_index s_previous_pixel s_array].
  split; [reflexivity|]. split; [pose proof (Z.mod_pos_bound (n - 1) 62); lia|].
  repeat split; intros ->; reflexivity.
Qed.

(** ** The pixel loop: it ends, and what it stores *)

(** A store to [file_data[file_index++]] adds one byte. *)
Lemma put_length (value : Z) (st : save_state) :
  length (s_file_data (put value st)) = S (length (s_file_data st)).
Proof. unfold put; cbn. rewrite length_app. cbn. lia. Qed.

(** The run loop ends, one pixel further at least and within the image,
    with no more bytes stored than pixels passed, and with the bytes that
    were there before in front. *)
Lemma save_run_total (image : QoiImage) (max_pixel_index : Z) (fuel : nat) :
  ∀ (run : byte) (st : save_state),
    s_pixel_index st < max_pixel_index ->
    max_pixel_index - s_pixel_index st <= Z.of_nat fuel ->
    ∃ st' more,
      save_run image max_pixel_index fuel run st = Some st'
      ∧ s_pixel_index st < s_pixel_index st' <= max_pixel_index
      ∧ s_file_data st' = s_file_data st ++ more
      ∧ Z.of_nat (length more) <= s_pixel_index st' - s_pixel_index st.
Proof.
  induction fuel as [|fuel IH]; intros run st Hidx Hfuel; [lia|].
  cbn [save_run]. cbn [next_pixel s_pixel_index s_previous_pixel].
  destruct (Z.ltb_spec (s_pixel_index st + 1) max_pixel_index) as [Hlt|Hge]; cbn [andb].
  - destruct (qoi_pixel_equal _ _).
    + destruct (_ || _).
      * edestruct (IH (to_u8 0) (put (Z.lor QOI_OP_RUN (u8 (to_u8 (u8 run + 1)) - 1))
                                     (next_pixel st)))
          as (st' & more & -> & Hi & Hd & Hl); [cbn; lia..|].
        cbn [put next_pixel s_pixel_index s_file_data] in Hi, Hd, Hl.
        rewrite <- app_assoc in Hd.
        eexists _, _. split; [reflexivity|]. split; [lia|]. split; [exact Hd|].
        rewrite length_app. cbn [length]. lia.
      * edestruct (IH (to_u8 (u8 run + 1)) (next_pixel st))
          as (st' & more & -> & Hi & Hd & Hl); [cbn; lia..|].
        cbn [put next_pixel s_pixel_index s_file_data] in Hi, Hd, Hl.
        eexists _, _. split; [reflexivity|]. split; [lia|].
        split; [exact Hd|]. lia.
    + rewrite orb_true_r. eexists _, _. split; [reflexivity|]. cbn.
      split; [lia|]. split; [reflexivity|]. cbn. lia.
  - rewrite orb_true_r. eexists _, _. split; [reflexivity|]. cbn.
    split; [lia|]. split; [reflexivity|]. cbn. lia.
Qed.

(** The body of the loop ends, one pixel further at least and within the
    image, with at most five bytes stored for each pixel passed. *)
Lemma save_pixel_total (image : QoiImage) (max_pixel_index : Z) (st : save_state) :
  s_pixel_index st < max_pixel_index ->
  ∃ st' more,
    save_pixel image max_pixel_index st = Some st'
    ∧ s_pixel_index st < s_pixel_index st' <= max_pixel_index
    ∧ s_file_data st' = s_file_data st ++ more
    ∧ Z.of_nat (length more) <= 5 * (s_pixel_index st' - s_pixel_index st).
Proof.
  intros Hidx. rewrite save_pixel_unfold. cbv zeta.
  destruct (save_kind image st);
    try (eexists _, _; split; [reflexivity|]; cbn; split; [lia|]; split; [reflexivity|];
         cbn; lia).
  destruct (save_run_total image max_pixel_index
              (Z.to_nat (max_pixel_index - s_pixel_index st)) (to_u8 0) st)
    as (st' & more & -> & Hi & Hd & Hl); [lia..|].
  eexists _, _. split; [reflexivity|]. split; [lia|]. split; [exact Hd|]. lia.
Qed.

(** The pixel loop ends, at the end of the image, with at most five bytes
    stored for each pixel. *)
Lemma save_pixels_total (image : QoiImage) (max_pixel_index : Z) (fuel : nat) :
  ∀ st,
    s_pixel_index st <= max_pixel_index ->
    max_pixel_index - s_pixel_index st <= Z.of_nat fuel ->
    ∃ st' more,
      save_pixels image max_pixel_index fuel st = Some st'
      ∧ s_pixel_index st' = max_pixel_index
      ∧ s_file_data st' = s_file_data st ++ more
      ∧ Z.of_nat (length more) <= 5 * (max_pixel_index - s_pixel_index st).
Proof.
  induction fuel as [|fuel IH]; intros st Hidx Hfuel; cbn [save_pixels];
    destruct (Z.ltb_spec (s_pixel_index st) max_pixel_index) as [Hlt|Hge]; try lia;
    try (exists st, []; rewrite app_nil_r; cbn; repeat split; lia).
  destruct (save_pixel_total image max_pixel_index st Hlt)
    as (st1 & more1 & -> & Hi1 & Hd1 & Hl1).
  destruct (IH st1) as (st' & more & -> & Hi & Hd & Hl); [lia..|].
  exists st', (more1 ++ more). split; [reflexivity|]. split; [exact Hi|].
  split; [rewrite Hd, Hd1, app_assoc; reflexivity|]. rewrite length_app. lia.
Qed.

Lemma header_store_length (image : QoiImage) :
  length (header_store (save_header image)) = 14%nat.
Proof. reflexivity. Qed.

(** [save_image] stores the header, the chunks and the end marker,
    whatever the pixels are: 22 bytes and at most five for each pixel. *)
Lemma save_bytes_total (image : QoiImage) :
  ∃ chunks,
    save_bytes image = Some (header_store (save_header image) ++ chunks ++ QOI_END_MARKER)
    ∧ Z.of_nat (length chunks) <= 5 * wrap32 (width image * height image).
Proof.
  unfold save_bytes.
  pose proof (Z.mod_pos_bound (width image * height image) (2 ^ 32) eq_refl) as Hm.
  fold (wrap32 (width image * height image)) in Hm.
  destruct (save_pixels_total image (wrap32 (width image * height image))
              (Z.to_nat (wrap32 (width image * height image)))
              (save_start (header_store (save_header image))))
    as (st' & more & -> & Hi & Hd & Hl); [cbn; lia..|].
  exists more. cbn [save_start s_file_data s_pixel_index] in Hd, Hl.
  rewrite Hd, <- app_assoc. split; [reflexivity|]. lia.
Qed.

Lemma save_pixels_step (image : QoiImage) (max_pixel_index : Z) (fuel : nat) (st : save_state) :
  s_pixel_index st < max_pixel_index ->
  save_pixels image max_pixel_index (S fuel) st =
  match save_pixel image max_pixel_index st with
  | Some st' => save_pixels image max_pixel_index fuel st'
  | None => None
  end.
Proof.
  intros H. cbn [save_pixels].
  destruct (Z.ltb_spec (s_pixel_index st) max_pixel_index); [reflexivity | lia].
Qed.

Lemma save_pixels_done (image : QoiImage) (max_pixel_index : Z) (fuel : nat) (st : save_state) :
  max_pixel_index <= s_pixel_index st ->
  save_pixels image max_pixel_index fuel st = Some st.
Proof.
  intros H. destruct fuel; cbn [save_pixels];
    (destruct (Z.ltb_spec (s_pixel_index st) max_pixel_index); [lia | reflexivity]).
Qed.

(** When the worst-case file size is below 2^31, the size of the request
    to [g_try_malloc] does not wrap around, the block holds all that
    [save_image] stores and [file_index] does not overflow. *)
Lemma save_image_saved (image : QoiImage) :
  0 <= width image * height image ->
  14 + width image * height image * 5 + 8 < 2 ^ 31 ->
  ∃ chunks,
    save_image image = Saved (header_store (save_header image) ++ chunks ++ QOI_END_MARKER)
    ∧ save_bytes image = Some (header_store (save_header image) ++ chunks ++ QOI_END_MARKER).
Proof.
  intros H0 Hfit. destruct (save_bytes_total image) as (chunks & Hb & Hl).
  exists chunks. split; [|exact Hb]. unfold save_image. rewrite Hb.
  assert (Ha : save_alloc_size image = 14 + width image * height image * 5 + 8).
  { unfold save_alloc_size, wrap32, QOI_HEADER_SIZE, QOI_MAX_BYTES_PER_PIXEL,
      QOI_END_MARKER_SIZE.
    change (2 ^ 31) with 2147483648 in *. change (2 ^ 32) with 4294967296 in *.
    rewrite (Z.mod_small (width image * height image)) by lia.
    rewrite (Z.mod_small (width image * height image * 5)) by lia.
    rewrite (Z.mod_small (14 + width image * height image * 5)) by lia.
    apply Z.mod_small. lia. }
  assert (Hw : wrap32 (width image * height image) = width image * height image)
    by (unfold wrap32; change (2 ^ 31) with 2147483648 in *;
        change (2 ^ 32) with 4294967296 in *; rewrite Z.mod_small; lia).
  rewrite Ha, Hw in *.
  destruct (Z.eqb_spec (14 + width image * height image * 5 + 8) 0); [lia|].
  rewrite !length_app, header_store_length. cbn [length QOI_END_MARKER].
  destruct (Z.leb_spec (Z.of_nat (14 + (length chunks + 8)))
              (14 + width image * height image * 5 + 8)); [|lia].
  change (2 ^ 31) with 2147483648 in *.
  destruct (Z.ltb_spec (Z.of_nat (14 + (length chunks + 8))) 2147483648);
    [reflexivity | lia].
Qed.


(** ** The bytes of the chunks, read back *)

(** A test that holds of 0, 1, ..., n - 1 holds of every number in this
    range. *)
Lemma forall_below (test : Z → bool) (n : nat) :
  forallb test (map Z.of_nat (seq 0 n)) = true ->
  ∀ z, 0 <= z < Z.of_nat n → test z = true.
Proof.
  intros H z Hz. rewrite forallb_forall in H. apply H.
  apply in_map_iff. exists (Z.to_nat z). split; [lia|]. apply in_seq. lia.
Qed.

Lemma index_byte (h : Z) :
  0 <= h < 64 ->
  let b := to_u8 (Z.lor QOI_OP_INDEX h) in
  tag_kind b = OpIndex ∧ Z.land (u8 b) 0x3F = h ∧ u8 b = h.
Proof.
  intros Hh b. assert (H : index_byte_ok h = true).
  { apply (forall_below index_byte_ok 64); [vm_compute; reflexivity | lia]. }
  unfold index_byte_ok in H. fold b in H.
  apply andb_true_iff in H as [H H3]. apply andb_true_iff in H as [H1 H2].
  apply bool_decide_eq_true in H1. zbool. auto.
Qed.

Lemma run_byte (r : Z) :
  0 <= r < 62 ->
  let b := to_u8 (Z.lor QOI_OP_RUN r) in
  tag_kind b = OpRun ∧ Z.land (u8 b) 0x3F = r ∧ b ≠ Byte.x00.
Proof.
  intros Hr b. assert (H : run_byte_ok r = true).
  { apply (forall_below run_byte_ok 62); [vm_compute; reflexivity | lia]. }
  unfold run_byte_ok in H. fold b in H.
  apply andb_true_iff in H as [H H3]. apply andb_true_iff in H as [H1 H2].
  apply bool_decide_eq_true in H1. apply negb_true_iff in H3. zbool.
  repeat split; try assumption. intros E. rewrite E in H3. apply H3. reflexivity.
Qed.

Lemma diff_byte (dr dg db : Z) :
  -2 <= dr <= 1 -> -2 <= dg <= 1 -> -2 <= db <= 1 ->
  let t := to_u8 (Z.lor (Z.lor (Z.lor QOI_OP_DIFF (Z.shiftl (dr + 2) 4)) (Z.shiftl (dg + 2) 2))
                    (db + 2)) in
  tag_kind t = OpDiff ∧ diff_deltas t = (dr, dg, db).
Proof.
  intros Hr Hg Hb t.
  set (z := (dr + 2) * 16 + (dg + 2) * 4 + (db + 2)).
  assert (H : diff_byte_ok z = true).
  { apply (forall_below diff_byte_ok 64); [vm_compute; reflexivity | subst z; lia]. }
  unfold diff_byte_ok in H.
  assert (E1 : z / 16 = dr + 2) by (subst z; Z.div_mod_to_equations; lia).
  assert (E2 : (z / 4) mod 4 = dg + 2) by (subst z; Z.div_mod_to_equations; lia).
  assert (E3 : z mod 4 = db + 2) by (subst z; Z.div_mod_to_equations; lia).
  rewrite E1, E2, E3 in H. fold t in H. apply andb_true_iff in H as [H1 H2].
  apply bool_decide_eq_true in H1, H2. split; [exact H1|]. rewrite H2. f_equal; [f_equal|]; lia.
Qed.

Lemma luma_bytes (dr dg db : Z) :
  -32 <= dg <= 31 -> -8 <= dr - dg <= 7 -> -8 <= db - dg <= 7 ->
  let t := to_u8 (Z.lor QOI_OP_LUMA (dg + 32)) in
  let t' := to_u8 (Z.lor (Z.shiftl (dr - dg + 8) 4) (db - dg + 8)) in
  tag_kind t = OpLuma ∧ luma_deltas t t' = (dr, dg, db).
Proof.
  intros Hg Hr Hb t t'.
  assert (H : luma_tag_ok (dg + 32) = true).
  { apply (forall_below luma_tag_ok 64); [vm_compute; reflexivity | lia]. }
  set (z := (dr - dg + 8) * 16 + (db - dg + 8)).
  assert (H' : luma_second_ok z = true).
  { apply (forall_below luma_second_ok 256); [vm_compute; reflexivity | subst z; lia]. }
  unfold luma_tag_ok in H. unfold luma_second_ok in H'.
  assert (E1 : z / 16 = dr - dg + 8) by (subst z; Z.div_mod_to_equations; lia).
  assert (E2 : z mod 16 = db - dg + 8) by (subst z; Z.div_mod_to_equations; lia).
  rewrite E1, E2 in H'. fold t in H. fold t' in H'.
  apply andb_true_iff in H as [H1 H2]. apply andb_true_iff in H' as [H3 H4].
  apply bool_decide_eq_true in H1. zbool. split; [exact H1|].
  unfold luma_deltas. rewrite H2, H3, H4. f_equal; [f_equal|]; lia.
Qed.

(** ** The choice of the encoder *)

(** What the chain of tests of [save_pixel] has established when it
    chooses a chunk. *)
Lemma save_kind_cases (image : QoiImage) (st : save_state) :
  let cur := pixel_at image (s_pixel_index st) in
  let prev := s_previous_pixel st in
  let dr := u8 (red cur) - u8 (red prev) in
  let dg := u8 (green cur) - u8 (green prev) in
  let db := u8 (blue cur) - u8 (blue prev) in
  let same_alpha := has_alpha image = false ∨ alpha cur = alpha prev in
  match save_kind image st with
  | OpRun => prev = cur
  | OpIndex => prev ≠ cur ∧ s_array st !!! Z.to_nat (qoi_pixel_hash cur) = cur
  | OpDiff => prev ≠ cur ∧ same_alpha ∧ -2 <= dr <= 1 ∧ -2 <= dg <= 1 ∧ -2 <= db <= 1
  | OpLuma => prev ≠ cur ∧ same_alpha
              ∧ -32 <= dg <= 31 ∧ -8 <= dr - dg <= 7 ∧ -8 <= db - dg <= 7
  | OpRgb => prev ≠ cur ∧ same_alpha
  | OpRgba => prev ≠ cur
  end.
Proof.
  intros cur prev dr dg db same_alpha. unfold save_kind. fold cur prev dr dg db.
  destruct (qoi_pixel_equal prev cur) eqn:Heq.
  { apply qoi_pixel_equal_spec. exact Heq. }
  apply qoi_pixel_equal_false in Heq.
  destruct (qoi_pixel_equal cur _) eqn:Hhit.
  { apply qoi_pixel_equal_spec in Hhit. split; [exact Heq | symmetry; exact Hhit]. }
  destruct (negb (has_alpha image) || _) eqn:Halpha; [|exact Heq].
  assert (Hsame : same_alpha).
  { apply orb_true_iff in Halpha as [H|H].
    - left. apply negb_true_iff. exact H.
    - right. apply u8_inj. apply Z.eqb_eq. exact H. }
  unfold QOI_DIFF_LOWER_BOUND, QOI_DIFF_UPPER_BOUND, QOI_LUMA_GREEN_LOWER_BOUND,
    QOI_LUMA_GREEN_UPPER_BOUND, QOI_LUMA_RED_BLUE_LOWER_BOUND, QOI_LUMA_RED_BLUE_UPPER_BOUND.
  match goal with |- context [if ?c then OpDiff else _] => destruct c eqn:Hd end.
  { repeat (apply andb_true_iff in Hd as [Hd ?]). zbool. repeat split; (assumption || lia). }
  match goal with |- context [if ?c then OpLuma else _] => destruct c eqn:Hl end.
  { repeat (apply andb_true_iff in Hl as [Hl ?]). zbool. repeat split; (assumption || lia). }
  split; assumption.
Qed.

(** ** The decoder on a file that continues another *)

Lemma byte_at_app (pre l : list byte) (i : Z) :
  0 <= i -> byte_at (pre ++ l) (i + Z.of_nat (length pre)) = byte_at l i.
Proof.
  intros Hi. unfold byte_at. rewrite lookup_total_app_r by lia. f_equal. lia.
Qed.

Lemma bytes_at_app (pre l : list byte) (i : Z) (n : nat) :
  0 <= i -> bytes_at (pre ++ l) (i + Z.of_nat (length pre)) n = bytes_at l i n.
Proof.
  intros Hi. unfold bytes_at.
  replace (Z.to_nat (i + Z.of_nat (length pre))) with (length pre + Z.to_nat i)%nat by lia.
  rewrite <- drop_drop, drop_app_length. reflexivity.
Qed.

Lemma store_pixels_shift (max_pixel_index count k : Z) (st : load_state) :
  store_pixels max_pixel_index count (shift k st)
  = shift_result k (store_pixels max_pixel_index count st).
Proof. unfold store_pixels, pixel_index, shift; cbn. destruct (_ <=? _); reflexivity. Qed.

Lemma store_and_cache_shift (max_pixel_index k : Z) (st : load_state) :
  store_and_cache max_pixel_index (shift k st)
  = shift_result k (store_and_cache max_pixel_index st).
Proof.
  unfold store_and_cache. rewrite store_pixels_shift.
  destruct (store_pixels max_pixel_index 1 st); reflexivity.
Qed.

Lemma after_shift (n k : Z) (pixel : QoiPixel) (st : load_state) :
  after n pixel (shift k st) = shift k (after n pixel st).
Proof. unfold after, shift; cbn. f_equal. lia. Qed.

(** A pass of the loop over [pre ++ l], entered [length pre] bytes further
    than a pass over [l], does the same and ends [length pre] bytes
    further. *)
Lemma load_chunk_shift (pre l : list byte) (max_pixel_index : Z) (st : load_state) :
  0 <= l_file_index st ->
  load_chunk (pre ++ l) max_pixel_index (shift (Z.of_nat (length pre)) st)
  = shift_result (Z.of_nat (length pre)) (load_chunk l max_pixel_index st).
Proof.
  intros Hi. rewrite !load_chunk_unfold. cbv zeta.
  set (k := Z.of_nat (length pre)).
  unfold file_size, memcmp_eq. cbn [shift l_file_index l_current_pixel l_array].
  rewrite length_app.
  replace (l_file_index st + k + 1) with (l_file_index st + 1 + k) by lia.
  replace (l_file_index st + k + 2) with (l_file_index st + 2 + k) by lia.
  replace (l_file_index st + k + 3) with (l_file_index st + 3 + k) by lia.
  replace (l_file_index st + k + 4) with (l_file_index st + 4 + k) by lia.
  subst k. rewrite !byte_at_app, bytes_at_app by lia.
  destruct (Z.ltb_spec (Z.of_nat (length l)) (l_file_index st + QOI_END_MARKER_SIZE));
    destruct (Z.ltb_spec (Z.of_nat (length pre + length l))
                (l_file_index st + Z.of_nat (length pre) + QOI_END_MARKER_SIZE));
    try lia; [reflexivity|].
  destruct (tag_kind _); cbv zeta; rewrite !after_shift;
    rewrite ?store_and_cache_shift, ?store_pixels_shift; try reflexivity.
  - destruct (bool_decide _); reflexivity.
  - change (pixel_index (shift (Z.of_nat (length pre)) st)) with (pixel_index st).
    destruct (_ >? _); reflexivity.
Qed.

(** ** A chunk of the encoder, read by the decoder *)

Lemma pixel_eta (r g b a : byte) (pixel : QoiPixel) :
  r = red pixel -> g = green pixel -> b = blue pixel -> a = alpha pixel ->
  {| red := r; green := g; blue := b; alpha := a |} = pixel.
Proof. intros -> -> -> ->. destruct pixel; reflexivity. Qed.

Lemma to_u8_add_sub (x y : byte) : to_u8 (u8 x + (u8 y - u8 x)) = y.
Proof. replace (u8 x + (u8 y - u8 x)) with (u8 y) by lia. apply to_u8_u8. Qed.

Lemma byte_at_0 (b0 : byte) (l : list byte) : byte_at (b0 :: l) 0 = b0.
Proof. reflexivity. Qed.

Lemma byte_at_1 (b0 b1 : byte) (l : list byte) : byte_at (b0 :: b1 :: l) (0 + 1) = b1.
Proof. reflexivity. Qed.

Lemma byte_at_2 (b0 b1 b2 : byte) (l : list byte) :
  byte_at (b0 :: b1 :: b2 :: l) (0 + 2) = b2.
Proof. reflexivity. Qed.

Lemma byte_at_3 (b0 b1 b2 b3 : byte) (l : list byte) :
  byte_at (b0 :: b1 :: b2 :: b3 :: l) (0 + 3) = b3.
Proof. reflexivity. Qed.

Lemma byte_at_4 (b0 b1 b2 b3 b4 : byte) (l : list byte) :
  byte_at (b0 :: b1 :: b2 :: b3 :: b4 :: l) (0 + 4) = b4.
Proof. reflexivity. Qed.

(** The decoder reads the chunk that the encoder stores for a pixel, and
    gets the pixel and the cache of the encoder. *)
Lemma load_chunk_of_bytes (kind : chunk_kind) (prev cur : QoiPixel)
    (array out : list QoiPixel) (rest : list byte) (max_pixel_index : Z) :
  chunk_fits kind prev cur array ->
  (8 <= length rest)%nat ->
  Z.of_nat (length out) < max_pixel_index ->
  (kind = OpIndex → take 8 (chunk_bytes kind prev cur ++ rest) ≠ QOI_END_MARKER) ->
  load_chunk (chunk_bytes kind prev cur ++ rest) max_pixel_index
    {| l_file_index := 0; l_current_pixel := prev; l_array := array; l_pixels := out |}
  = Continue
      {| l_file_index := Z.of_nat (length (chunk_bytes kind prev cur));
         l_current_pixel := cur;
         l_array := match kind with
                    | OpIndex => array
                    | _ => <[Z.to_nat (qoi_pixel_hash cur) := cur]> array
                    end;
         l_pixels := out ++ [cur] |}.
Proof.
  intros Hfits Hrest Hout Hmarker. rewrite load_chunk_unfold.
  cbn [l_file_index l_current_pixel l_array].
  assert (Hsize : (file_size (chunk_bytes kind prev cur ++ rest) <? 0 + QOI_END_MARKER_SIZE)
                  = false).
  { apply Z.ltb_ge. unfold file_size, QOI_END_MARKER_SIZE. rewrite length_app. lia. }
  rewrite Hsize. clear Hsize.
  destruct kind; cbn [chunk_fits] in Hfits; cbv zeta in Hfits; cbn [chunk_bytes app];
    rewrite ?byte_at_0, ?byte_at_1, ?byte_at_2, ?byte_at_3, ?byte_at_4.
  - (* RGB literal *)
    change (tag_kind (to_u8 QOI_OP_RGB)) with OpRgb. cbv iota.
    rewrite store_and_cache_fits by exact Hout.
    unfold after; cbn [l_file_index l_current_pixel l_array l_pixels length].
    rewrite (pixel_eta _ _ _ _ cur) by (reflexivity || (symmetry; exact Hfits)). reflexivity.
  - (* RGBA literal *)
    change (tag_kind (to_u8 QOI_OP_RGBA)) with OpRgba. cbv iota.
    rewrite store_and_cache_fits by exact Hout.
    unfold after; cbn [l_file_index l_current_pixel l_array l_pixels length].
    rewrite (pixel_eta _ _ _ _ cur) by reflexivity. reflexivity.
  - (* index *)
    specialize (Hmarker eq_refl). cbn [chunk_bytes app] in Hmarker.
    destruct (index_byte (qoi_pixel_hash cur) (qoi_pixel_hash_range cur)) as (Hk & Hlow & _).
    rewrite Hk. cbv iota. rewrite Hlow.
    unfold memcmp_eq, bytes_at. change (Z.to_nat 0) with 0%nat. rewrite drop_0.
    change (length QOI_END_MARKER) with 8%nat.
    rewrite bool_decide_eq_false_2 by exact Hmarker.
    rewrite store_pixels_fits by (unfold pixel_index, after; cbn; lia).
    unfold after; cbn [l_file_index l_current_pixel l_array l_pixels length].
    change (Z.to_nat 1) with 1%nat. cbn [replicate]. rewrite Hfits. reflexivity.
  - (* small difference *)
    destruct Hfits as (Ha & Hr & Hg & Hb).
    destruct (diff_byte _ _ _ Hr Hg Hb) as (Hk & Hd). cbv zeta in Hk, Hd.
    rewrite Hk. cbv iota zeta. rewrite Hd. cbn [fst snd].
    rewrite store_and_cache_fits by exact Hout.
    unfold after; cbn [l_file_index l_current_pixel l_array l_pixels length].
    rewrite !to_u8_add_sub.
    rewrite (pixel_eta _ _ _ _ cur) by (reflexivity || (symmetry; exact Ha)). reflexivity.
  - (* luma *)
    destruct Hfits as (Ha & Hg & Hr & Hb).
    destruct (luma_bytes _ _ _ Hg Hr Hb) as (Hk & Hd). cbv zeta in Hk, Hd.
    rewrite Hk. cbv iota zeta. rewrite Hd. cbn [fst snd].
    rewrite store_and_cache_fits by exact Hout.
    unfold after; cbn [l_file_index l_current_pixel l_array l_pixels length].
    rewrite !to_u8_add_sub.
    rewrite (pixel_eta _ _ _ _ cur) by (reflexivity || (symmetry; exact Ha)). reflexivity.
  - destruct Hfits.
Qed.

(** ** Passes of the decoder *)

Lemma steps_trans (file_data : list byte) (max_pixel_index : Z) (a b c : load_state) :
  steps file_data max_pixel_index a b ->
  steps file_data max_pixel_index b c ->
  steps file_data max_pixel_index a c.
Proof.
  intros Hab Hbc. induction Hab as [st | st st1 st2 Hidx Hstep _ IH]; [exact Hbc|].
  eapply steps_next; [exact Hidx | exact Hstep | exact (IH Hbc)].
Qed.

Lemma steps_one (file_data : list byte) (max_pixel_index : Z) (a b : load_state) :
  pixel_index a < max_pixel_index ->
  load_chunk file_data max_pixel_index a = Continue b ->
  steps file_data max_pixel_index a b.
Proof. intros Hidx Hstep. eapply steps_next; [exact Hidx | exact Hstep | apply steps_refl]. Qed.

(** Passes that lead to a state with no pixel missing are what the loop
    does, whatever fuel it has beyond the number of missing pixels. *)
Lemma steps_load_chunks (file_data : list byte) (max_pixel_index : Z) (st st' : load_state) :
  steps file_data max_pixel_index st st' ->
  max_pixel_index <= pixel_index st' ->
  ∀ fuel, max_pixel_index - pixel_index st <= Z.of_nat fuel ->
          load_chunks file_data max_pixel_index fuel st = LoopDone st'.
Proof.
  intros Hsteps Hend. induction Hsteps as [st | st st1 st2 Hidx Hstep _ IH]; intros fuel Hfuel.
  - destruct fuel; cbn [load_chunks];
      (destruct (Z.ltb_spec (pixel_index st) max_pixel_index); [lia | reflexivity]).
  - destruct fuel as [|fuel]; [lia|]. cbn [load_chunks].
    destruct (Z.ltb_spec (pixel_index st) max_pixel_index); [|lia].
    rewrite Hstep. apply (IH Hend). apply load_chunk_advances in Hstep. lia.
Qed.

Lemma load_state_eq (i i' : Z) (pixel : QoiPixel) (array out out' : list QoiPixel) :
  i = i' -> out = out' ->
  {| l_file_index := i; l_current_pixel := pixel; l_array := array; l_pixels := out |}
  = {| l_file_index := i'; l_current_pixel := pixel; l_array := array; l_pixels := out' |}.
Proof. intros -> ->. reflexivity. Qed.

(** A state is the state at offset 0 moved to its [file_index]. *)
Lemma shift_from_0 (st : load_state) :
  st = shift (l_file_index st)
         {| l_file_index := 0;
            l_current_pixel := l_current_pixel st;
            l_array := l_array st;
            l_pixels := l_pixels st |}.
Proof. destruct st; reflexivity. Qed.

Lemma load_chunk_run_byte (r : Z) (prev : QoiPixel) (array out : list QoiPixel)
    (rest : list byte) (max_pixel_index : Z) :
  0 <= r < 62 ->
  (8 <= length rest)%nat ->
  Z.of_nat (length out) + r + 1 <= max_pixel_index ->
  load_chunk (to_u8 (Z.lor QOI_OP_RUN r) :: rest) max_pixel_index
    {| l_file_index := 0; l_current_pixel := prev; l_array := array; l_pixels := out |}
  = Continue
      {| l_file_index := 1;
         l_current_pixel := prev;
         l_array := array;
         l_pixels := out ++ replicate (Z.to_nat (r + 1)) prev |}.
Proof.
  intros Hr Hrest Hout. rewrite load_chunk_unfold.
  cbn [l_file_index l_current_pixel l_array].
  assert (Hsize : (file_size (to_u8 (Z.lor QOI_OP_RUN r) :: rest) <? 0 + QOI_END_MARKER_SIZE)
                  = false).
  { apply Z.ltb_ge. unfold file_size, QOI_END_MARKER_SIZE. cbn [length]. lia. }
  rewrite Hsize, byte_at_0. destruct (run_byte r Hr) as (Hk & Hlow & _).
  rewrite Hk. cbv iota zeta. rewrite Hlow.
  unfold pixel_index at 1. cbn [l_pixels].
  destruct (Z.gtb_spec (Z.of_nat (length out)) (max_pixel_index + (r + 1))); [lia|].
  rewrite store_pixels_fits by (unfold pixel_index, after; cbn [l_pixels]; lia).
  reflexivity.
Qed.

(** The decoder over the chunks of a run. *)
Lemma load_run_chunks (max_pixel_index r : Z) (rest : list byte) (q : nat) :
  0 <= r < 62 ->
  (8 <= length rest)%nat ->
  ∀ (pre : list byte) (prev : QoiPixel) (array out : list QoiPixel),
    Z.of_nat (length out) + 62 * Z.of_nat q + r + 1 <= max_pixel_index ->
    steps (pre ++ replicate q Byte.xfd ++ [to_u8 (Z.lor QOI_OP_RUN r)] ++ rest) max_pixel_index
      {| l_file_index := Z.of_nat (length pre);
         l_current_pixel := prev;
         l_array := array;
         l_pixels := out |}
      {| l_file_index := Z.of_nat (length pre) + Z.of_nat q + 1;
         l_current_pixel := prev;
         l_array := array;
         l_pixels := out ++ replicate (Z.to_nat (62 * Z.of_nat q + r + 1)) prev |}.
Proof.
  intros Hr Hrest. induction q as [|q IH]; intros pre prev array out Hout.
  - apply steps_one; [unfold pixel_index; cbn [l_pixels]; lia|].
    cbn [replicate app].
    rewrite (shift_from_0 {| l_file_index := Z.of_nat (length pre); l_current_pixel := prev;
                             l_array := array; l_pixels := out |}).
    cbn [l_file_index l_current_pixel l_array l_pixels].
    rewrite load_chunk_shift by (cbn; lia).
    rewrite load_chunk_run_byte by (assumption || lia).
    cbn [shift_result]. unfold shift; cbn [l_file_index l_current_pixel l_array l_pixels].
    f_equal. apply load_state_eq; [lia | do 2 f_equal; lia].
  - eapply steps_next; [unfold pixel_index; cbn [l_pixels]; lia | |].
    + cbn [replicate app].
      rewrite (shift_from_0 {| l_file_index := Z.of_nat (length pre); l_current_pixel := prev;
                               l_array := array; l_pixels := out |}).
      cbn [l_file_index l_current_pixel l_array l_pixels].
      rewrite load_chunk_shift by (cbn; lia).
      change Byte.xfd with (to_u8 (Z.lor QOI_OP_RUN 61)).
      rewrite load_chunk_run_byte; [reflexivity | try lia..].
      rewrite !length_app, length_replicate. cbn [length]. lia.
    + cbn [shift l_file_index l_current_pixel l_array l_pixels].
      specialize (IH (pre ++ [Byte.xfd]) prev array
                    (out ++ replicate (Z.to_nat (61 + 1)) prev)).
      rewrite <- app_assoc in IH. cbn [app] in IH.
      rewrite !length_app, length_replicate in IH. cbn [length] in IH.
      replace (Z.of_nat (length pre + 1)) with (1 + Z.of_nat (length pre)) in IH by lia.
      replace (1 + Z.of_nat (length pre) + Z.of_nat q + 1)
        with (Z.of_nat (length pre) + Z.of_nat (S q) + 1) in IH by lia.
      rewrite <- app_assoc, <- replicate_add in IH.
      replace (Z.to_nat (61 + 1) + Z.to_nat (62 * Z.of_nat q + r + 1))%nat
        with (Z.to_nat (62 * Z.of_nat (S q) + r + 1)) in IH by lia.
      apply IH. lia.
Qed.

(** ** The pixels of the image *)

Lemma take_pixel (image : QoiImage) (i : Z) :
  0 <= i < Z.of_nat (length (pixels image)) ->
  take (Z.to_nat i) (pixels image) ++ [pixel_at image i] = take (Z.to_nat (i + 1)) (pixels image).
Proof.
  intros Hi. replace (Z.to_nat (i + 1)) with (S (Z.to_nat i)) by lia.
  symmetry. apply take_S_r. unfold pixel_at. apply list_lookup_lookup_total_lt. lia.
Qed.

Lemma take_run (image : QoiImage) (pixel : QoiPixel) (i : Z) (n : nat) :
  0 <= i ->
  i + Z.of_nat n <= Z.of_nat (length (pixels image)) ->
  (∀ k, 0 <= k < Z.of_nat n → pixel_at image (i + k) = pixel) ->
  take (Z.to_nat i) (pixels image) ++ replicate n pixel
  = take (Z.to_nat (i + Z.of_nat n)) (pixels image).
Proof.
  intros Hi. induction n as [|n IH]; intros Hlen Hsame.
  - cbn [replicate]. rewrite app_nil_r. f_equal. lia.
  - replace (S n) with (n + 1)%nat at 1 by lia.
    rewrite replicate_add, app_assoc, IH by (try lia; intros k Hk; apply Hsame; lia).
    cbn [replicate]. rewrite <- (Hsame (Z.of_nat n)) by lia.
    rewrite take_pixel by lia. f_equal. lia.
Qed.

(** From a pixel equal to the previous pixel on, the image has a longest
    run of pixels equal to it. *)
Lemma run_length_exists (image : QoiImage) (pixel : QoiPixel) (d : nat) :
  ∀ i, 0 <= i ->
       Z.of_nat (length (pixels image)) - i <= Z.of_nat (S d) ->
       i < Z.of_nat (length (pixels image)) ->
       pixel_at image i = pixel ->
       ∃ n, 1 <= n
            ∧ i + n <= Z.of_nat (length (pixels image))
            ∧ (∀ k, 0 <= k < n → pixel_at image (i + k) = pixel)
            ∧ (i + n < Z.of_nat (length (pixels image)) → pixel_at image (i + n) ≠ pixel).
Proof.
  induction d as [|d IH]; intros i Hi Hd Hlt Hpix.
  - exists 1. split; [lia|]. split; [lia|]. split; [|lia].
    intros k Hk. replace (i + k) with i by lia. exact Hpix.
  - destruct (decide (i + 1 < Z.of_nat (length (pixels image))
                      ∧ pixel_at image (i + 1) = pixel)) as [[Hlt' Hpix']|Hno].
    + destruct (IH (i + 1)) as (n & Hn & Hlen & Hsame & Hnext); try (assumption || lia).
      exists (n + 1). split; [lia|]. split; [lia|]. split.
      * intros k Hk. destruct (decide (k = 0)) as [->|Hk0].
        -- replace (i + 0) with i by lia. exact Hpix.
        -- replace (i + k) with (i + 1 + (k - 1)) by lia. apply Hsame. lia.
      * replace (i + (n + 1)) with (i + 1 + n) by lia. exact Hnext.
    + exists 1. split; [lia|]. split; [lia|]. split.
      * intros k Hk. replace (i + k) with i by lia. exact Hpix.
      * intros Hlt' Hpix'. apply Hno. split; assumption.
Qed.

(** ** The first byte of what the encoder stores next *)

Lemma save_pixel_prefix (image : QoiImage) (max_pixel_index : Z) (st st' : save_state) :
  s_pixel_index st < max_pixel_index ->
  save_pixel image max_pixel_index st = Some st' ->
  s_pixel_index st < s_pixel_index st' <= max_pixel_index
  ∧ ∃ more, s_file_data st' = s_file_data st ++ more.
Proof.
  intros Hidx H. destruct (save_pixel_total image max_pixel_index st Hidx)
    as (st1 & more & H1 & Hi & Hd & _).
  rewrite H in H1. injection H1 as <-. split; [exact Hi | exists more; exact Hd].
Qed.

Lemma save_pixels_prefix (image : QoiImage) (max_pixel_index : Z) (fuel : nat) :
  ∀ st st', save_pixels image max_pixel_index fuel st = Some st' ->
            ∃ more, s_file_data st' = s_file_data st ++ more.
Proof.
  induction fuel as [|fuel IH]; intros st st'; cbn [save_pixels];
    destruct (Z.ltb_spec (s_pixel_index st) max_pixel_index) as [Hlt|Hge];
    try discriminate; try (intros [= <-]; exists []; rewrite app_nil_r; reflexivity).
  destruct (save_pixel image max_pixel_index st) as [st1|] eqn:H1; [|discriminate].
  intros H. apply IH in H as (more & Hm).
  apply save_pixel_prefix in H1 as (_ & more1 & Hm1); [|exact Hlt].
  exists (more1 ++ more). rewrite Hm, Hm1, app_assoc. reflexivity.
Qed.

Lemma save_run_prefix (image : QoiImage) (max_pixel_index : Z) (fuel : nat) :
  ∀ run st st',
    save_run image max_pixel_index fuel run st = Some st' ->
    ∃ more, s_file_data st' = s_file_data st ++ more.
Proof.
  induction fuel as [|fuel IH]; intros run st st' H; [discriminate|].
  cbn [save_run] in H.
  destruct ((s_pixel_index (next_pixel st) <? max_pixel_index) && _).
  - destruct (_ || _); apply IH in H as (more & Hd); cbn [put next_pixel s_file_data] in Hd.
    + rewrite <- app_assoc in Hd. eexists. exact Hd.
    + eexists. exact Hd.
  - rewrite orb_true_r in H. injection H as <-. cbn [put next_pixel s_file_data].
    eexists. reflexivity.
Qed.

(** The run loop stores a run chunk first. *)
Lemma save_run_first_byte (image : QoiImage) (max_pixel_index : Z) (fuel : nat) :
  ∀ run st st',
    s_pixel_index st < max_pixel_index ->
    save_run image max_pixel_index fuel run st = Some st' ->
    u8 run < 62 ->
    ∃ b more, s_file_data st' = s_file_data st ++ b :: more ∧ b ≠ Byte.x00.
Proof.
  induction fuel as [|fuel IH]; intros run st st' Hidx H Hrun; [discriminate|].
  cbn [save_run] in H. pose proof (u8_range run) as Hr.
  rewrite (u8_to_u8_small (u8 run + 1)) in H by lia.
  replace (u8 run + 1 - 1) with (u8 run) in H by lia.
  destruct (run_byte (u8 run)) as (_ & _ & Hnz); [lia|].
  destruct ((s_pixel_index (next_pixel st) <? max_pixel_index) && _) eqn:Hnext.
  - apply andb_true_iff in Hnext as [Hlt _]. zbool.
    destruct (_ || _) eqn:Hflush.
    + apply save_run_prefix in H as (more & Hd). cbn [put next_pixel s_file_data] in Hd.
      rewrite <- app_assoc in Hd. eexists _, _. split; [exact Hd | exact Hnz].
    + rewrite orb_false_r in Hflush. unfold QOI_MAX_RUN_LENGTH in Hflush. zbool.
      apply IH in H as (b & more & Hd & Hb); [| exact Hlt | rewrite u8_to_u8_small; lia].
      eexists _, _. split; [exact Hd | exact Hb].
  - rewrite orb_true_r in H. injection H as <-. cbn [put next_pixel s_file_data].
    eexists _, _. split; [reflexivity | exact Hnz].
Qed.

(** After an index chunk for slot 0 the previous pixel is the pixel of
    slot 0, and then the next chunk does not start with a zero byte: the
    bytes of the end marker do not come up among the chunks. *)
Lemma save_pixel_first_byte (image : QoiImage) (max_pixel_index : Z) (st st' : save_state) :
  s_pixel_index st < max_pixel_index ->
  s_array st !!! 0%nat = s_previous_pixel st ->
  save_pixel image max_pixel_index st = Some st' ->
  ∃ b more, s_file_data st' = s_file_data st ++ b :: more ∧ b ≠ Byte.x00.
Proof.
  intros Hidx Hslot H. rewrite save_pixel_unfold in H. cbv zeta in H.
  pose proof (save_kind_cases image st) as Hcases. cbv zeta in Hcases.
  destruct (save_kind image st) eqn:Hk.
  - injection H as <-. cbn [s_file_data chunk_bytes]. eexists _, _. split; [reflexivity|].
    discriminate.
  - injection H as <-. cbn [s_file_data chunk_bytes]. eexists _, _. split; [reflexivity|].
    discriminate.
  - injection H as <-. cbn [s_file_data chunk_bytes]. eexists _, _. split; [reflexivity|].
    destruct Hcases as (Hne & Hhit).
    destruct (index_byte _ (qoi_pixel_hash_range (pixel_at image (s_pixel_index st))))
      as (_ & _ & Hb).
    intros E. rewrite E in Hb. change (u8 Byte.x00) with 0 in Hb.
    rewrite <- Hb in Hhit. change (Z.to_nat 0) with 0%nat in Hhit. congruence.
  - injection H as <-. cbn [s_file_data chunk_bytes]. eexists _, _. split; [reflexivity|].
    destruct Hcases as (_ & _ & Hr & Hg & Hb).
    destruct (diff_byte _ _ _ Hr Hg Hb) as (Ht & _). cbv zeta in Ht.
    intros E. rewrite E in Ht. discriminate Ht.
  - injection H as <-. cbn [s_file_data chunk_bytes]. eexists _, _. split; [reflexivity|].
    destruct Hcases as (_ & _ & Hg & Hr & Hb).
    destruct (luma_bytes _ _ _ Hg Hr Hb) as (Ht & _). cbv zeta in Ht.
    intros E. rewrite E in Ht. discriminate Ht.
  - eapply save_run_first_byte; [exact Hidx | exact H | reflexivity].
Qed.

Lemma save_pixels_first_byte (image : QoiImage) (max_pixel_index : Z) (fuel : nat)
    (st st' : save_state) :
  s_array st !!! 0%nat = s_previous_pixel st ->
  save_pixels image max_pixel_index fuel st = Some st' ->
  s_file_data st' = s_file_data st
  ∨ ∃ b more, s_file_data st' = s_file_data st ++ b :: more ∧ b ≠ Byte.x00.
Proof.
  intros Hslot H. destruct fuel as [|fuel]; cbn [save_pixels] in H;
    destruct (Z.ltb_spec (s_pixel_index st) max_pixel_index) as [Hlt|Hge];
    try discriminate; try (injection H as <-; left; reflexivity).
  destruct (save_pixel image max_pixel_index st) as [st1|] eqn:H1; [|discriminate].
  right. apply save_pixel_first_byte in H1 as (b & more1 & Hd1 & Hb); [|assumption..].
  apply save_pixels_prefix in H as (more & Hd).
  exists b, (more1 ++ more). split; [|exact Hb].
  rewrite Hd, Hd1, <- app_assoc. reflexivity.
Qed.

(** An index chunk followed by what the encoder stores next, and in the
    end by the end marker, is not taken for the end marker. *)
Lemma index_chunk_not_end_marker (h : Z) (more : list byte) :
  0 <= h < 64 ->
  (h = 0 → more = [] ∨ ∃ b more', more = b :: more' ∧ b ≠ Byte.x00) ->
  take 8 ([to_u8 (Z.lor QOI_OP_INDEX h)] ++ more ++ QOI_END_MARKER) ≠ QOI_END_MARKER.
Proof.
  intros Hh Hmore. destruct (index_byte h Hh) as (_ & _ & Hb). cbv zeta in Hb.
  destruct (decide (h = 0)) as [->|Hnz].
  - destruct (Hmore eq_refl) as [->|(b & more' & -> & Hnz)].
    + vm_compute. discriminate.
    + cbn [app take]. unfold QOI_END_MARKER. intros [= E _]. apply Hnz. exact E.
  - cbn [app take]. unfold QOI_END_MARKER. intros [= E _]. apply Hnz.
    rewrite <- Hb, E. reflexivity.
Qed.

(** ** The decoder follows the encoder *)

Lemma pixel_at_elem_of (image : QoiImage) (i : Z) :
  0 <= i < Z.of_nat (length (pixels image)) -> pixel_at image i ∈ pixels image.
Proof.
  intros Hi. unfold pixel_at. apply list_elem_of_lookup. exists (Z.to_nat i).
  apply list_lookup_lookup_total_lt. lia.
Qed.

Lemma pixel_index_load_state_of (image : QoiImage) (st : save_state) :
  0 <= s_pixel_index st <= Z.of_nat (length (pixels image)) ->
  pixel_index (load_state_of image st) = s_pixel_index st.
Proof.
  intros Hi. unfold pixel_index, load_state_of; cbn [l_pixels]. rewrite length_take. lia.
Qed.

(** The chunk that the encoder chooses stands for the pixel. *)
Lemma save_kind_fits (image : QoiImage) (st : save_state) :
  (has_alpha image = false → ∀ pixel, pixel ∈ pixels image → alpha pixel = Byte.xff) ->
  save_invariant image st ->
  s_pixel_index st < Z.of_nat (length (pixels image)) ->
  save_kind image st ≠ OpRun ->
  chunk_fits (save_kind image st) (s_previous_pixel st)
    (pixel_at image (s_pixel_index st)) (s_array st).
Proof.
  intros Hopaque (Hidx & _ & Hprev) Hlt Hk.
  pose proof (save_kind_cases image st) as Hcases. cbv zeta in Hcases.
  assert (Hsame : has_alpha image = false
                  ∨ alpha (pixel_at image (s_pixel_index st)) = alpha (s_previous_pixel st)
                  → alpha (pixel_at image (s_pixel_index st)) = alpha (s_previous_pixel st)).
  { intros [Hrgb|Heq]; [|exact Heq].
    rewrite (Hprev Hrgb). apply (Hopaque Hrgb). apply pixel_at_elem_of. lia. }
  destruct (save_kind image st); cbn [chunk_fits]; cbv zeta; try exact I; try congruence.
  - destruct Hcases as (_ & Ha). exact (Hsame Ha).
  - apply Hcases.
  - destruct Hcases as (_ & Ha & H). split; [exact (Hsame Ha) | exact H].
  - destruct Hcases as (_ & Ha & H). split; [exact (Hsame Ha) | exact H].
Qed.

(** One pass of the pixel loop, and the passes of the decoder over the
    bytes that it stores. *)
Lemma save_pixel_steps (image : QoiImage) (fuel : nat) (st st1 st' : save_state) :
  let max_pixel_index := Z.of_nat (length (pixels image)) in
  (has_alpha image = false → ∀ pixel, pixel ∈ pixels image → alpha pixel = Byte.xff) ->
  save_invariant image st ->
  s_pixel_index st < max_pixel_index ->
  save_pixel image max_pixel_index st = Some st1 ->
  save_pixels image max_pixel_index fuel st1 = Some st' ->
  steps (s_file_data st' ++ QOI_END_MARKER) max_pixel_index
    (load_state_of image st) (load_state_of image st1)
  ∧ save_invariant image st1.
Proof.
  intros max_pixel_index Hopaque Hinv Hlt H1 H'.
  pose proof Hinv as (Hidx & Harr & Hprev).
  pose proof (save_kind_fits image st Hopaque Hinv Hlt) as Hfits.
  pose proof (save_kind_cases image st) as Hcases. cbv zeta in Hcases.
  pose proof (save_pixels_prefix _ _ _ _ _ H') as (more & Hmore).
  set (cur := pixel_at image (s_pixel_index st)) in *.
  set (kind := save_kind image st) in *.
  destruct (decide (kind = OpRun)) as [Hrun|Hrun].
  - (* a run *)
    rewrite Hrun in Hcases. clear Hfits.
    destruct (run_length_exists image (s_previous_pixel st)
                (Z.to_nat (max_pixel_index - s_pixel_index st)) (s_pixel_index st))
      as (n & Hn & Hlen & Hsame & Hnext); [lia | lia | exact Hlt | symmetry; exact Hcases |].
    rewrite (save_pixel_run image max_pixel_index st n Hn Hlen Hsame Hnext) in H1.
    injection H1 as <-. cbn [s_file_data] in Hmore.
    set (q := (n - 1) / 62) in *. set (r := (n - 1) mod 62) in *.
    assert (Hq : 0 <= q) by (apply Z.div_pos; lia).
    assert (Hr : 0 <= r < 62) by (apply Z.mod_pos_bound; lia).
    assert (Hqr : 62 * Z.of_nat (Z.to_nat q) + r + 1 = n).
    { rewrite Z2Nat.id by exact Hq. subst q r. pose proof (Z.div_mod (n - 1) 62). lia. }
    split.
    + rewrite Hmore, <- !app_assoc.
      pose proof (load_run_chunks max_pixel_index r (more ++ QOI_END_MARKER) (Z.to_nat q) Hr)
        as Hsteps.
      specialize (Hsteps ltac:(rewrite length_app; cbn [length QOI_END_MARKER]; lia)
                    (s_file_data st) (s_previous_pixel st) (s_array st)
                    (take (Z.to_nat (s_pixel_index st)) (pixels image))).
      rewrite Hqr in Hsteps. rewrite take_run in Hsteps; [| lia | lia |].
      * specialize (Hsteps ltac:(rewrite length_take; lia)).
        match type of Hsteps with
        | steps _ _ _ ?final =>
            replace (load_state_of image
                       {| s_file_data :=
                            s_file_data st ++ replicate (Z.to_nat q) Byte.xfd
                            ++ [to_u8 (Z.lor QOI_OP_RUN r)];
                          s_pixel_index := s_pixel_index st + n;
                          s_previous_pixel := s_previous_pixel st;
                          s_array := s_array st |}) with final; [exact Hsteps|]
        end.
        unfold load_state_of. cbn [s_file_data s_pixel_index s_previous_pixel s_array].
        apply load_state_eq.
        -- rewrite !length_app, length_replicate. cbn [length]. lia.
        -- f_equal. lia.
      * intros k Hk. apply Hsame. lia.
    + split; [cbn [s_pixel_index]; lia|]. split; [exact Harr | exact Hprev].
  - (* a chunk for one pixel *)
    specialize (Hfits Hrun). rewrite save_pixel_unfold in H1. cbv zeta in H1.
    fold cur kind in H1.
    assert (Hst1 : st1 = {| s_file_data :=
                              s_file_data st ++ chunk_bytes kind (s_previous_pixel st) cur;
                            s_pixel_index := s_pixel_index st + 1;
                            s_previous_pixel := cur;
                            s_array :=
                              match kind with
                              | OpIndex => s_array st
                              | _ => <[Z.to_nat (qoi_pixel_hash cur) := cur]> (s_array st)
                              end |}).
    { destruct kind; congruence. }
    clear H1. subst st1. cbn [s_file_data] in Hmore. split.
    + apply steps_one; [rewrite pixel_index_load_state_of by exact Hidx; exact Hlt|].
      rewrite Hmore, <- !app_assoc.
      rewrite (shift_from_0 (load_state_of image st)).
      unfold load_state_of at 1 2 3 4. cbn [l_file_index l_current_pixel l_array l_pixels].
      rewrite load_chunk_shift by (cbn [l_file_index]; lia).
      rewrite load_chunk_of_bytes.
      * cbn [shift_result]. unfold shift, load_state_of.
        cbn [l_file_index l_current_pixel l_array l_pixels
             s_file_data s_pixel_index s_previous_pixel s_array].
        f_equal. rewrite length_app, take_pixel by lia.
        apply load_state_eq; [lia | reflexivity].
      * exact Hfits.
      * rewrite length_app. cbn [length QOI_END_MARKER]. lia.
      * rewrite length_take. lia.
      * intros Hindex. rewrite Hindex in *. cbn [chunk_bytes].
        apply index_chunk_not_end_marker; [apply qoi_pixel_hash_range|].
        intros Hzero. destruct Hcases as (_ & Hhit). rewrite Hzero in Hhit.
        assert (Hfirst := λ Hslot,
                    save_pixels_first_byte image max_pixel_index fuel _ st' Hslot H').
        destruct (Hfirst Hhit) as [Hd|(b & more' & Hd & Hb)];
          cbn [s_file_data chunk_bytes] in Hd; rewrite Hd in Hmore.
        -- left. rewrite <- (app_nil_r (_ ++ _)) in Hmore at 1.
           apply app_inv_head in Hmore. symmetry. exact Hmore.
        -- right. apply app_inv_head in Hmore. exists b, more'. split; [symmetry; exact Hmore|].
           exact Hb.
    + split; [cbn [s_pixel_index]; lia|]. split.
      * cbn [s_array]. destruct kind; rewrite ?length_insert; exact Harr.
      * cbn [s_previous_pixel]. intros Hrgb. apply (Hopaque Hrgb).
        apply pixel_at_elem_of. lia.
Qed.

(** The pixel loop, and the passes of the decoder over the bytes that it
    stores: they end with all the pixels of the image stored, and with
    [file_index] where the end marker is going to be. *)
Lemma save_pixels_steps (image : QoiImage) (fuel : nat) :
  let max_pixel_index := Z.of_nat (length (pixels image)) in
  (has_alpha image = false → ∀ pixel, pixel ∈ pixels image → alpha pixel = Byte.xff) ->
  ∀ st st',
    save_invariant image st ->
    save_pixels image max_pixel_index fuel st = Some st' ->
    steps (s_file_data st' ++ QOI_END_MARKER) max_pixel_index
      (load_state_of image st) (load_state_of image st')
    ∧ s_pixel_index st' = max_pixel_index.
Proof.
  intros max_pixel_index Hopaque.
  induction fuel as [|fuel IH]; intros st st' Hinv H; cbn [save_pixels] in H;
    destruct (Z.ltb_spec (s_pixel_index st) max_pixel_index) as [Hlt|Hge];
    try discriminate;
    try (injection H as <-; split; [apply steps_refl | destruct Hinv; subst max_pixel_index; lia]).
  destruct (save_pixel image max_pixel_index st) as [st1|] eqn:H1; [|discriminate].
  destruct (save_pixel_steps image fuel st st1 st' Hopaque Hinv Hlt H1 H) as (Hsteps & Hinv1).
  destruct (IH st1 st' Hinv1 H) as (Hrest & Hend).
  split; [exact (steps_trans _ _ _ _ _ Hsteps Hrest) | exact Hend].
Qed.

(** ** The header, stored and loaded *)

Lemma swap_range (x : Z) : 0 <= guint32_swap_local_and_big_endian x < 2 ^ 32.
Proof.
  rewrite swap_bits.
  pose proof (Z.mod_pos_bound (x / 2 ^ 24) (2 ^ 8) eq_refl).
  pose proof (Z.mod_pos_bound (x / 2 ^ 16) (2 ^ 8) eq_refl).
  pose proof (Z.mod_pos_bound (x / 2 ^ 8) (2 ^ 8) eq_refl).
  pose proof (Z.mod_pos_bound x (2 ^ 8) eq_refl).
  change (2 ^ 8) with 256 in *. change (2 ^ 16) with 65536 in *.
  change (2 ^ 24) with 16777216 in *. change (2 ^ 32) with 4294967296. lia.
Qed.

Lemma swap_swap (x : Z) :
  0 <= x < 2 ^ 32 ->
  guint32_swap_local_and_big_endian (guint32_swap_local_and_big_endian x) = x.
Proof.
  intros Hx. rewrite (swap_bits x).
  rewrite swap_little_endian by (apply Z.mod_pos_bound; reflexivity).
  change (2 ^ 8) with 256 in *. change (2 ^ 16) with 65536 in *.
  change (2 ^ 24) with 16777216 in *. change (2 ^ 32) with 4294967296 in *.
  Z.div_mod_to_equations. lia.
Qed.

(** The four bytes of a [guint32], least significant first, add up to
    it. *)
Lemma guint32_bytes (v : Z) :
  0 <= v < 2 ^ 32 ->
  u8 (to_u8 v) + u8 (to_u8 (Z.shiftr v 8)) * 2 ^ 8 + u8 (to_u8 (Z.shiftr v 16)) * 2 ^ 16
  + u8 (to_u8 (Z.shiftr v 24)) * 2 ^ 24 = v.
Proof.
  intros Hv. rewrite !u8_to_u8, !Z.shiftr_div_pow2 by lia.
  change (2 ^ 8) with 256 in *. change (2 ^ 16) with 65536 in *.
  change (2 ^ 24) with 16777216 in *. change (2 ^ 32) with 4294967296 in *.
  Z.div_mod_to_equations. lia.
Qed.

(** The header that [save_image] stores is the header that [load_image]
    reads at the start of the file. *)
Lemma header_load_store (image : QoiImage) (rest : list byte) :
  header_load (header_store (save_header image) ++ rest) 0 = save_header image.
Proof.
  unfold header_load, header_store, guint32_load, save_header.
  cbn [magic h_width h_height channels h_colorspace].
  set (w := guint32_swap_local_and_big_endian (width image)).
  set (h := guint32_swap_local_and_big_endian (height image)).
  set (c := to_u8 (if has_alpha image then QOI_CHANNELS_RGBA else QOI_CHANNELS_RGB)).
  set (s := to_u8 (colorspace_value (colorspace image))).
  change (bytes_at ((QOI_MAGIC ++ guint32_store w ++ guint32_store h ++ [c; s]) ++ rest) 0 4)
    with QOI_MAGIC.
  change (byte_at ((QOI_MAGIC ++ guint32_store w ++ guint32_store h ++ [c; s]) ++ rest) (0 + 4))
    with (to_u8 w).
  change (byte_at ((QOI_MAGIC ++ guint32_store w ++ guint32_store h ++ [c; s]) ++ rest)
            (0 + 4 + 1)) with (to_u8 (Z.shiftr w 8)).
  change (byte_at ((QOI_MAGIC ++ guint32_store w ++ guint32_store h ++ [c; s]) ++ rest)
            (0 + 4 + 2)) with (to_u8 (Z.shiftr w 16)).
  change (byte_at ((QOI_MAGIC ++ guint32_store w ++ guint32_store h ++ [c; s]) ++ rest)
            (0 + 4 + 3)) with (to_u8 (Z.shiftr w 24)).
  change (byte_at ((QOI_MAGIC ++ guint32_store w ++ guint32_store h ++ [c; s]) ++ rest) (0 + 8))
    with (to_u8 h).
  change (byte_at ((QOI_MAGIC ++ guint32_store w ++ guint32_store h ++ [c; s]) ++ rest)
            (0 + 8 + 1)) with (to_u8 (Z.shiftr h 8)).
  change (byte_at ((QOI_MAGIC ++ guint32_store w ++ guint32_store h ++ [c; s]) ++ rest)
            (0 + 8 + 2)) with (to_u8 (Z.shiftr h 16)).
  change (byte_at ((QOI_MAGIC ++ guint32_store w ++ guint32_store h ++ [c; s]) ++ rest)
            (0 + 8 + 3)) with (to_u8 (Z.shiftr h 24)).
  change (byte_at ((QOI_MAGIC ++ guint32_store w ++ guint32_store h ++ [c; s]) ++ rest)
            (0 + 12)) with c.
  change (byte_at ((QOI_MAGIC ++ guint32_store w ++ guint32_store h ++ [c; s]) ++ rest)
            (0 + 13)) with s.
  rewrite !guint32_bytes by apply swap_range. reflexivity.
Qed.

(** [load_header] on a file that [save_image] stored. *)
Lemma load_header_saved (max_size : Z) (image : QoiImage) (rest : list byte) :
  1 <= width image <= max_size ->
  1 <= height image <= max_size ->
  width image < 2 ^ 32 ->
  height image < 2 ^ 32 ->
  colorspace image ≠ QOI_COLORSPACE_COUNT ->
  load_header max_size (header_store (save_header image) ++ rest)
  = inr {| pixels := [];
           width := width image;
           height := height image;
           colorspace := colorspace image;
           has_alpha := has_alpha image |}.
Proof.
  intros Hw Hh Hw32 Hh32 Hcs. unfold load_header.
  assert (Hsize : (file_size (header_store (save_header image) ++ rest) <? 0 + QOI_HEADER_SIZE)
                  = false).
  { apply Z.ltb_ge. unfold file_size, QOI_HEADER_SIZE.
    rewrite length_app, header_store_length. lia. }
  rewrite Hsize, header_load_store. unfold save_header.
  cbn [magic h_width h_height channels h_colorspace].
  rewrite !swap_swap by lia.
  rewrite bool_decide_eq_true_2 by reflexivity. cbn [negb].
  destruct (Z.eqb_spec (width image) 0); [lia|].
  destruct (Z.gtb_spec (width image) max_size); [lia|].
  destruct (Z.eqb_spec (height image) 0); [lia|].
  destruct (Z.gtb_spec (height image) max_size); [lia|]. cbn [orb].
  destruct (has_alpha image), (colorspace image); try congruence; reflexivity.
Qed.

(** ** The round trip *)

Lemma check_end_marker_saved (file_data : list byte) (st : load_state) :
  l_file_index st = Z.of_nat (length file_data) ->
  check_end_marker (file_data ++ QOI_END_MARKER) st = None.
Proof.
  intros Hi. unfold check_end_marker, file_size, memcmp_eq, bytes_at, QOI_END_MARKER_SIZE.
  rewrite Hi, length_app, Nat2Z.id, drop_app_length. cbn [length QOI_END_MARKER take].
  destruct (Z.ltb_spec (Z.of_nat (length file_data + 8)) (Z.of_nat (length file_data) + 8));
    [lia|].
  rewrite bool_decide_eq_true_2 by reflexivity. cbn [negb].
  destruct (Z.eqb_spec (Z.of_nat (length file_data) + 8) (Z.of_nat (length file_data + 8)));
    [reflexivity | lia].
Qed.

(** C1, amended. [load_image] returns the image that [save_image] stored,
    when the image has from 1 to the maximum of pixels on each side and
    width times height pixels, a worst-case file size 14 + width * height
    * 5 + 8 below 2^31, one of the two colorspaces and, without the alpha
    flag, opaque pixels only. *)
Theorem round_trip_holds (max_size : Z) (image : QoiImage) :
  round_trip_domain max_size image -> round_trip max_size image.
Proof.
  intros ((Hw & Hh & Hlen) & Hfit & Hcs & Hopaque).
  change (2 ^ 31) with 2147483648 in Hfit.
  assert (Hmax : wrap32 (width image * height image) = Z.of_nat (length (pixels image))).
  { rewrite Hlen. unfold wrap32. apply Z.mod_small. change (2 ^ 32) with 4294967296. nia. }
  destruct (save_image_saved image) as (chunks & Hsave & Hbytes);
    [nia | change (2 ^ 31) with 2147483648; lia |].
  exists (header_store (save_header image) ++ chunks ++ QOI_END_MARKER).
  split; [exact Hsave|].
  (* the encoder *)
  unfold save_bytes in Hbytes. rewrite Hmax in Hbytes.
  destruct (save_pixels image _ _ _) as [st'|] eqn:Hpixels; [|discriminate].
  apply (inj Some) in Hbytes. rename Hbytes into Hdata.
  rewrite app_assoc in Hdata. apply app_inv_tail in Hdata.
  assert (Hstart : save_invariant image (save_start (header_store (save_header image)))).
  { unfold save_invariant, save_start. cbn [s_pixel_index s_array s_previous_pixel].
    split; [lia|]. split; [reflexivity|]. intros _. reflexivity. }
  destruct (save_pixels_steps image _ Hopaque _ _ Hstart Hpixels) as (Hsteps & Hend).
  rewrite Hdata, <- app_assoc in Hsteps.
  (* the decoder *)
  unfold load_image.
  rewrite load_header_saved by (assumption || (change (2 ^ 32) with 4294967296; nia)).
  cbn [width height colorspace has_alpha]. rewrite Hmax.
  destruct (Z.eqb_spec (Z.of_nat (length (pixels image)) * 4) 0) as [E|_]; [nia|].
  change (load_start QOI_HEADER_SIZE)
    with (load_state_of image (save_start (header_store (save_header image)))).
  rewrite (steps_load_chunks _ _ _ _ Hsteps).
  - rewrite app_assoc, check_end_marker_saved
      by (unfold load_state_of; cbn [l_file_index]; rewrite Hdata; reflexivity).
    unfold load_state_of; cbn [l_pixels]. rewrite Hend, Nat2Z.id, firstn_all.
    destruct image; reflexivity.
  - rewrite pixel_index_load_state_of by lia. lia.
  - rewrite pixel_index_load_state_of by (cbn; lia). cbn [s_pixel_index save_start]. lia.
Qed.

(** C1 as it is stated fails: an image of one pixel that is not opaque,
    without the alpha flag, is stored as a luma chunk, which carries no
    alpha, and is loaded as an opaque pixel. *)
Lemma round_trip_fails_without_alpha :
  claimed_valid 524288 translucent_rgb ∧ ¬ round_trip 524288 translucent_rgb.
Proof.
  split.
  - unfold claimed_valid, translucent_rgb; cbn. lia.
  - intros (file_data & Hsave & Hload).
    vm_compute in Hsave. injection Hsave as <-.
    vm_compute in Hload. discriminate Hload.
Qed.

(** C4 (the code departs from it). For [huge_black], an image of 32768 by
    26215 opaque black pixels, the size of the request to [g_try_malloc],
    evaluated in 32 bits, is 98326 bytes, and [save_image] stores 14 bytes
    of header, 13855051 run chunks of one byte and the 8 bytes of the end
    marker: the stores run past the end of the block. *)
Theorem save_image_overruns_block :
  Z.of_nat (length (pixels huge_black)) = width huge_black * height huge_black
  ∧ 14 + width huge_black * height huge_black * 5 + 8 = 4295065622
  ∧ save_alloc_size huge_black = 98326
  ∧ save_bytes huge_black
    = Some (header_store (save_header huge_black)
            ++ (replicate (Z.to_nat 13855050) Byte.xfd ++ [Byte.xd3])
            ++ QOI_END_MARKER)
  ∧ save_image huge_black = SaveOutOfBounds.
Proof.
  assert (Hlen : Z.of_nat (length (pixels huge_black)) = 859013120).
  { unfold huge_black; cbn [pixels]. rewrite length_replicate. rewrite Z2Nat.id by lia. reflexivity. }
  assert (Halloc : save_alloc_size huge_black = 98326).
  { unfold save_alloc_size, huge_black; cbn [width height]. reflexivity. }
  assert (Hbytes : save_bytes huge_black
                   = Some (header_store (save_header huge_black)
                           ++ (replicate (Z.to_nat 13855050) Byte.xfd ++ [Byte.xd3])
                           ++ QOI_END_MARKER)).
  { unfold save_bytes.
    replace (wrap32 (width huge_black * height huge_black)) with 859013120
      by (unfold huge_black; cbn [width height]; reflexivity).
    replace (Z.to_nat 859013120) with (S (Z.to_nat 859013119)) by lia.
    rewrite save_pixels_step by (unfold save_start; cbn [s_pixel_index]; lia).
    pose proof (save_pixel_run huge_black 859013120
                  (save_start (header_store (save_header huge_black))) 859013120) as Hrun.
    cbv zeta in Hrun. cbn [s_pixel_index s_previous_pixel s_file_data s_array save_start] in Hrun.
    rewrite Hrun.
    - rewrite save_pixels_done by (cbn [s_pixel_index]; lia).
      cbn [s_file_data].
      replace ((859013120 - 1) / 62) with 13855050 by reflexivity.
      replace ((859013120 - 1) mod 62) with 19 by reflexivity.
      replace (to_u8 (Z.lor QOI_OP_RUN 19)) with Byte.xd3 by reflexivity.
      rewrite <- !app_assoc. reflexivity.
    - lia.
    - lia.
    - intros k Hk. unfold pixel_at, huge_black; cbn [pixels].
      apply lookup_total_replicate_2. lia.
    - lia. }
  split; [rewrite Hlen; unfold huge_black; cbn [width height]; reflexivity|].
  split; [unfold huge_black; cbn [width height]; reflexivity|].
  split; [exact Halloc|]. split; [exact Hbytes|].
  unfold save_image. rewrite Hbytes, Halloc.
  change (98326 =? 0) with false. cbv iota.
  rewrite !length_app, length_replicate, header_store_length. cbn [length QOI_END_MARKER].
  destruct (Z.leb_spec (Z.of_nat (14 + (Z.to_nat 13855050 + 1 + 8))) 98326); [lia | reflexivity].
Qed.

(** ** The theorems on small inputs *)

Lemma round_trip_sample : round_trip_domain 524288 sample_rgba ∧ round_trip 524288 sample_rgba.
Proof.
  assert (H : round_trip_domain 524288 sample_rgba).
  { unfold round_trip_domain, claimed_valid, sample_rgba.
    cbn [width height pixels colorspace has_alpha length].
    split; [split; [lia | split; [lia | reflexivity]]|].
    split; [reflexivity|]. split; [discriminate | intros H; discriminate H]. }
  split; [exact H | exact (round_trip_holds 524288 sample_rgba H)].
Defined.

Lemma run_chunks_sample :
  ∃ st', save_pixel sample_run 63 (save_start []) = Some st'
         ∧ s_file_data st' = [Byte.xfd]
         ∧ s_pixel_index st' = 62.
Proof.
  destruct (run_chunks sample_run 63 (save_start []) 62) as (st' & H & _ & _ & Hi & _ & _ & Hd & _).
  - lia.
  - cbn [s_pixel_index save_start]. lia.
  - intros k Hk. apply qoi_pixel_equal_spec.
    apply (forall_below (λ k, qoi_pixel_equal (pixel_at sample_run (0 + k)) start_pixel) 62);
      [vm_compute; reflexivity | lia].
  - intros _. vm_compute. discriminate.
  - exists st'. split; [exact H|]. split; [exact (Hd eq_refl) | exact Hi].
Defined.

Lemma chunk_cache_effect_sample :
  l_current_pixel sample_rgb_loaded = px 1 2 3 255
  ∧ l_array sample_rgb_loaded !!! Z.to_nat (qoi_pixel_hash (px 1 2 3 255)) = px 1 2 3 255
  ∧ s_previous_pixel sample_pixel_saved = px 200 100 50 255
  ∧ s_array sample_pixel_saved !!! Z.to_nat (qoi_pixel_hash (px 200 100 50 255))
    = px 200 100 50 255.
Proof.
  destruct (chunk_cache_effect sample_rgb_file 1 (load_start 0) sample_rgb_loaded
              sample_pixel 1 (save_start []) sample_pixel_saved)
    as ((Hload & _) & (Hsave & _)); try (vm_compute; reflexivity).
  change (tag_kind (byte_at sample_rgb_file (l_file_index (load_start 0)))) with OpRgb in Hload.
  change (save_kind sample_pixel (save_start [])) with OpRgb in Hsave.
  destruct Hload as (H1 & _ & H2 & _). destruct Hsave as (H3 & _ & H4 & _).
  repeat split; assumption.
Defined.

Lemma qoi_pixel_hash_formula_sample :
  qoi_pixel_hash (px 200 100 50 255) = 31
  ∧ (∃ st', load_chunk sample_rgb_file 1 (load_start 0) = Continue st'
            ∧ l_array st'
              = <[Z.to_nat (qoi_pixel_hash (l_current_pixel st')) := l_current_pixel st']>
                  (replicate 64 zero_pixel))
  ∧ save_pixel sample_pixel 1 (set_array 31 (px 200 100 50 255) (save_start []))
    = Some {| s_file_data := mk_file [0x1F];
              s_pixel_index := 1;
              s_previous_pixel := px 200 100 50 255;
              s_array := <[31%nat := px 200 100 50 255]> (replicate 64 zero_pixel) |}
  ∧ (∃ st', save_pixel sample_pixel 1 (save_start []) = Some st'
            ∧ s_array st' = <[31%nat := px 200 100 50 255]> (replicate 64 zero_pixel)).
Proof.
  pose proof qoi_pixel_hash_formula as (Hformula & Hload & Hsave). cbv zeta in *.
  split; [|split; [|split]].
  - rewrite (proj1 (Hformula (px 200 100 50 255))). reflexivity.
  - destruct (Hload sample_rgb_file 1 (load_start 0)) as (st' & H & Harray & _);
      try (vm_compute; congruence).
    exists st'. split; [exact H|].
    rewrite (proj1 (Hformula (l_current_pixel st'))). exact Harray.
  - apply (proj1 (Hsave sample_pixel 1
                    (set_array 31 (px 200 100 50 255) (save_start []))
                    ltac:(vm_compute; discriminate))).
    vm_compute. reflexivity.
  - destruct (proj2 (Hsave sample_pixel 1 (save_start []) ltac:(vm_compute; discriminate)))
      as (st' & H & Harray & _).
    + vm_compute. discriminate.
    + exists st'. split; [exact H | exact Harray].
Defined.

Lemma diff_luma_chunk_decodes_sample :
  (∃ st', load_chunk sample_diff_file 1 (sample_state (px 1 255 255 255)) = Continue st'
          ∧ shifted_by (-2, 1, 1) (px 1 255 255 255) (l_current_pixel st')
          ∧ l_current_pixel st' = px 255 0 0 255)
  ∧ (∃ st', load_chunk sample_luma_file 1 (sample_state (px 250 3 1 255)) = Continue st'
            ∧ shifted_by (38, 31, 23) (px 250 3 1 255) (l_current_pixel st')
            ∧ l_current_pixel st' = px 32 34 24 255).
Proof.
  split.
  - destruct (diff_luma_chunk_decodes sample_diff_file 1 (sample_state (px 1 255 255 255)))
      as (st' & H & Hs & _).
    + vm_compute. discriminate.
    + vm_compute. reflexivity.
    + left. vm_compute. reflexivity.
    + exists st'. split; [exact H|]. split; [exact Hs|].
      destruct Hs as (Hr & Hg & Hb & Ha).
      destruct (l_current_pixel st') as [r g b a]. cbn [red green blue alpha] in *.
      unfold px. f_equal; [apply u8_inj, Hr | apply u8_inj, Hg | apply u8_inj, Hb | exact Ha].
  - destruct (diff_luma_chunk_decodes sample_luma_file 1 (sample_state (px 250 3 1 255)))
      as (st' & H & Hs & _).
    + vm_compute. discriminate.
    + vm_compute. reflexivity.
    + right. vm_compute. reflexivity.
    + exists st'. split; [exact H|]. split; [exact Hs|].
      destruct Hs as (Hr & Hg & Hb & Ha).
      destruct (l_current_pixel st') as [r g b a]. cbn [red green blue alpha] in *.
      unfold px. f_equal; [apply u8_inj, Hr | apply u8_inj, Hg | apply u8_inj, Hb | exact Ha].
Defined.

(** * Further properties of the decoder *)

(** ** What a pass reads *)

Lemma byte_at_bytes_at (fd : list byte) (i k : Z) (n : nat) :
  0 <= i -> 0 <= k < Z.of_nat n ->
  byte_at fd (i + k) = bytes_at fd i n !!! Z.to_nat k.
Proof.
  intros Hi Hk. unfold byte_at, bytes_at.
  rewrite lookup_total_take. destruct (decide (Z.to_nat k < n)%nat); [|lia].
  rewrite lookup_total_drop. f_equal. lia.
Qed.

Lemma byte_at_window (fd fd' : list byte) (i k : Z) :
  0 <= i -> 0 <= k < 8 ->
  bytes_at fd i 8 = bytes_at fd' i 8 ->
  byte_at fd (i + k) = byte_at fd' (i + k).
Proof.
  intros Hi Hk H. rewrite !(byte_at_bytes_at _ i k 8) by lia. rewrite H. reflexivity.
Qed.

(** A pass of the loop depends on the file through the eight bytes at
    [file_index] only, once both files have them. *)
Lemma load_chunk_window (fd fd' : list byte) (max_pixel_index : Z) (st : load_state) :
  0 <= l_file_index st ->
  l_file_index st + 8 <= file_size fd ->
  l_file_index st + 8 <= file_size fd' ->
  bytes_at fd (l_file_index st) 8 = bytes_at fd' (l_file_index st) 8 ->
  load_chunk fd max_pixel_index st = load_chunk fd' max_pixel_index st.
Proof.
  intros Hi Hs Hs' H.
  rewrite !load_chunk_unfold. cbv zeta.
  unfold QOI_END_MARKER_SIZE.
  destruct (Z.ltb_spec (file_size fd) (l_file_index st + 8)); [lia|].
  destruct (Z.ltb_spec (file_size fd') (l_file_index st + 8)); [lia|].
  assert (Htag : byte_at fd (l_file_index st) = byte_at fd' (l_file_index st)).
  { pose proof (byte_at_window fd fd' (l_file_index st) 0 Hi ltac:(lia) H) as E.
    rewrite Z.add_0_r in E. exact E. }
  rewrite <- Htag.
  rewrite <- (byte_at_window fd fd' (l_file_index st) 1 Hi ltac:(lia) H).
  rewrite <- (byte_at_window fd fd' (l_file_index st) 2 Hi ltac:(lia) H).
  rewrite <- (byte_at_window fd fd' (l_file_index st) 3 Hi ltac:(lia) H).
  rewrite <- (byte_at_window fd fd' (l_file_index st) 4 Hi ltac:(lia) H).
  unfold memcmp_eq. change (length QOI_END_MARKER) with 8%nat. rewrite <- H.
  reflexivity.
Qed.

(** ** The file behind a loaded image *)

(** A pass that goes on to the next one had its eight bytes; it moves
    [file_index] by one to five bytes and stores one to 62 pixels, all of
    them inside the block. *)
Lemma load_chunk_progress (fd : list byte) (max_pixel_index : Z) (st st' : load_state) :
  load_chunk fd max_pixel_index st = Continue st' ->
  l_file_index st + 8 <= file_size fd
  ∧ l_file_index st < l_file_index st' <= l_file_index st + 5
  ∧ pixel_index st < pixel_index st' <= pixel_index st + 62
  ∧ pixel_index st' <= max_pixel_index
  ∧ ∃ more, l_pixels st' = l_pixels st ++ more.
Proof.
  intros H. rewrite load_chunk_unfold in H. cbv zeta in H.
  unfold QOI_END_MARKER_SIZE in H.
  destruct (Z.ltb_spec (file_size fd) (l_file_index st + 8)); [discriminate|].
  pose proof (tag_kind_run_length (byte_at fd (l_file_index st))) as Hrun.
  unfold store_and_cache, store_pixels in H.
  destruct (tag_kind _); cbv zeta in H;
    repeat match type of H with
           | (if ?c then _ else _) = _ => destruct c eqn:?; try discriminate H
           | match (if ?c then _ else _) with _ => _ end = _ =>
               destruct c eqn:?; try discriminate H
           end;
    injection H as <-; zbool; try specialize (Hrun eq_refl);
    unfold pixel_index in *; cbn in *;
    rewrite ?length_app, ?length_replicate in *; cbn in *;
    (split; [lia|]); (split; [lia|]); (split; [lia|]); (split; [lia|]); eauto.
Qed.

(** The passes that [steps] stands for: bytes and pixels go up together,
    at most five bytes for a pixel and at most 62 pixels for a byte. *)
Lemma steps_progress (fd : list byte) (max_pixel_index : Z) (st st' : load_state) :
  steps fd max_pixel_index st st' ->
  l_file_index st <= l_file_index st'
  ∧ l_file_index st' - l_file_index st <= 5 * (pixel_index st' - pixel_index st)
  ∧ pixel_index st' - pixel_index st <= 62 * (l_file_index st' - l_file_index st)
  ∧ (pixel_index st <= max_pixel_index → pixel_index st' <= max_pixel_index)
  ∧ ∃ more, l_pixels st' = l_pixels st ++ more.
Proof.
  induction 1 as [st|st st1 st2 Hidx Hstep _ IH].
  - repeat split; try lia. exists []. rewrite app_nil_r. reflexivity.
  - apply load_chunk_progress in Hstep.
    destruct Hstep as (_ & Hi & Hp & Hm & more & Hmore).
    destruct IH as (IH1 & IH2 & IH3 & IH4 & more' & Hmore').
    repeat split; try lia.
    exists (more ++ more'). rewrite Hmore', Hmore, app_assoc. reflexivity.
Qed.

(** How the loop can be left with [LoopDone]: after passes that all went
    on, with no pixel missing; or through the [break] of a pass. *)
Lemma load_chunks_done (fd : list byte) (max_pixel_index : Z) (fuel : nat) :
  ∀ st st',
    load_chunks fd max_pixel_index fuel st = LoopDone st' ->
    (steps fd max_pixel_index st st' ∧ max_pixel_index <= pixel_index st')
    ∨ (∃ st1, steps fd max_pixel_index st st1
              ∧ pixel_index st1 < max_pixel_index
              ∧ load_chunk fd max_pixel_index st1 = EndMarkerSeen st').
Proof.
  induction fuel as [|fuel IH]; intros st st' H; cbn [load_chunks] in H.
  - destruct (Z.ltb_spec (pixel_index st) max_pixel_index); [discriminate|].
    injection H as <-. left. split; [apply steps_refl | lia].
  - destruct (Z.ltb_spec (pixel_index st) max_pixel_index) as [Hlt|Hge].
    + destruct (load_chunk fd max_pixel_index st) as [st1|st1| |] eqn:E; try discriminate.
      * destruct (IH _ _ H) as [(Hs & Hm) | (st2 & Hs & Hm & Hb)].
        -- left. split; [|exact Hm]. eapply steps_next; eassumption.
        -- right. exists st2. split; [|split; assumption].
           eapply steps_next; eassumption.
      * injection H as <-. right. exists st. split; [apply steps_refl|]. split; assumption.
    + injection H as <-. left. split; [apply steps_refl | lia].
Qed.

(** What [load_header] has checked when it goes on. *)
Lemma load_header_inr (max_size : Z) (fd : list byte) (result : QoiImage) :
  load_header max_size fd = inr result ->
  14 <= file_size fd
  ∧ 1 <= width result <= max_size
  ∧ 1 <= height result <= max_size
  ∧ width result < 2 ^ 32
  ∧ height result < 2 ^ 32
  ∧ colorspace result ≠ QOI_COLORSPACE_COUNT
  ∧ pixels result = [].
Proof.
  unfold load_header, QOI_HEADER_SIZE. cbv zeta.
  destruct (Z.ltb_spec (file_size fd) (0 + 14)); [discriminate|].
  destruct (negb _); [discriminate|].
  set (w := guint32_swap_local_and_big_endian _).
  set (h := guint32_swap_local_and_big_endian _).
  pose proof (swap_range (h_width (header_load fd 0))) as Hw.
  pose proof (swap_range (h_height (header_load fd 0))) as Hh.
  fold w in Hw. fold h in Hh.
  destruct (_ =? QOI_CHANNELS_RGB); [|destruct (_ =? QOI_CHANNELS_RGBA); [|discriminate]].
  all: destruct (_ =? colorspace_value QOI_COLORSPACE_SRGB);
    [|destruct (_ =? colorspace_value QOI_COLORSPACE_LINEAR); [|discriminate]].
  all: destruct (Z.eqb_spec w 0); cbn [orb]; [discriminate|].
  all: destruct (Z.gtb_spec w max_size); [discriminate|].
  all: destruct (Z.eqb_spec h 0); cbn [orb]; [discriminate|].
  all: destruct (Z.gtb_spec h max_size); [discriminate|].
  all: intros [= <-]; cbn [width height colorspace pixels].
  all: repeat split; try lia; discriminate.
Qed.

(** What lies behind a successful [load_image]. *)
Lemma load_image_loaded (max_size : Z) (fd : list byte) (image : QoiImage) :
  load_image max_size fd = Loaded image ->
  ∃ result st,
    let max_pixel_index := wrap32 (width result * height result) in
    load_header max_size fd = inr result
    ∧ 1 <= max_pixel_index
    ∧ steps fd max_pixel_index (load_start QOI_HEADER_SIZE) st
    ∧ pixel_index st = max_pixel_index
    ∧ check_end_marker fd st = None
    ∧ image = {| pixels := l_pixels st;
                 width := width result;
                 height := height result;
                 colorspace := colorspace result;
                 has_alpha := has_alpha result |}.
Proof.
  unfold load_image. intros H.
  destruct (load_header max_size fd) as [e|result] eqn:Hh; [discriminate|].
  cbv zeta in H.
  assert (Hpos : 0 <= wrap32 (width result * height result))
    by (unfold wrap32; apply Z.mod_pos_bound; reflexivity).
  destruct (Z.eqb_spec (wrap32 (width result * height result) * 4) 0); [discriminate|].
  destruct (load_chunks _ _ _ _) as [st| | |] eqn:Hl; try discriminate.
  destruct (check_end_marker fd st) eqn:Hc; [discriminate|].
  injection H as <-.
  exists result, st. cbv zeta. split; [reflexivity|]. split; [lia|].
  apply load_chunks_done in Hl.
  destruct Hl as [(Hs & Hm) | (st1 & Hs & Hm & Hb)].
  - split; [exact Hs|]. split; [|split; [exact Hc | reflexivity]].
    apply steps_progress in Hs. destruct Hs as (_ & _ & _ & Hmax & _).
    unfold pixel_index at 1, load_start in Hmax. cbn in Hmax. lia.
  - exfalso. apply end_marker_break_rejected in Hb.
    + destruct Hb as (_ & _ & _ & Hb). rewrite Hb in Hc. discriminate.
    + apply steps_progress in Hs. unfold load_start, QOI_HEADER_SIZE in Hs. cbn in Hs. lia.
Qed.

(** X1. What [load_image] has checked when it returns [true]: width and
    height lie between 1 and the maximum, the colorspace is one of the
    two of the format, the pixels stored are as many as width times
    height reduced modulo 2^32 and at least one, the file ends with the
    end marker, and its chunks take at least one byte for 62 pixels and at
    most five bytes for a pixel: between 22 + n / 62 and 22 + 5 n bytes
    for n pixels. *)
Theorem loaded_image_well_formed (max_size : Z) (file_data : list byte) (image : QoiImage) :
  load_image max_size file_data = Loaded image ->
  let n := Z.of_nat (length (pixels image)) in
  1 <= width image <= max_size
  ∧ 1 <= height image <= max_size
  ∧ colorspace image ≠ QOI_COLORSPACE_COUNT
  ∧ n = wrap32 (width image * height image)
  ∧ 1 <= n
  ∧ bytes_at file_data (file_size file_data - 8) 8 = QOI_END_MARKER
  ∧ n <= 62 * (file_size file_data - 22)
  ∧ file_size file_data - 22 <= 5 * n.
Proof.
  intros H n. apply load_image_loaded in H.
  destruct H as (result & st & Hh & Hpos & Hs & Hn & Hc & ->). cbv zeta in *.
  apply load_header_inr in Hh. destruct Hh as (_ & Hw & Hhe & _ & _ & Hcs & _).
  subst n. cbn [pixels width height colorspace]. fold (pixel_index st).
  apply steps_progress in Hs. destruct Hs as (_ & Hb & Hp & _).
  unfold load_start, QOI_HEADER_SIZE in Hb, Hp.
  unfold pixel_index at 2 in Hb. unfold pixel_index at 2 in Hp. cbn in Hb, Hp.
  unfold check_end_marker, QOI_END_MARKER_SIZE in Hc.
  destruct (Z.ltb_spec (file_size file_data) (l_file_index st + 8)); [discriminate|].
  destruct (memcmp_eq file_data (l_file_index st) QOI_END_MARKER) eqn:Hm; [|discriminate].
  destruct (Z.eqb_spec (l_file_index st + 8) (file_size file_data)) as [He|]; [|discriminate].
  cbn in Hc. apply bool_decide_eq_true in Hm.
  replace (file_size file_data - 8) with (l_file_index st) by lia.
  repeat split; try assumption; try lia.
Qed.

(** ** Stores past the end of the pixels *)

(** X2. In a pass of the chunk loop, entered with a pixel still missing,
    a store goes past the end of [result->pixels] exactly when the pass
    has its eight bytes, the tag is a run, and the run is longer than the
    pixels that are missing: no other chunk stores outside the block. *)
Theorem store_out_of_bounds_iff_run_overrun
    (file_data : list byte) (max_pixel_index : Z) (st : load_state) :
  let tag := byte_at file_data (l_file_index st) in
  pixel_index st < max_pixel_index ->
  load_chunk file_data max_pixel_index st = StoreOutOfBounds
  <-> l_file_index st + 8 <= file_size file_data
      ∧ tag_kind tag = OpRun
      ∧ max_pixel_index < pixel_index st + (Z.land (u8 tag) 0x3F + 1).
Proof.
  intros tag Hidx. rewrite load_chunk_unfold. cbv zeta. fold tag.
  unfold QOI_END_MARKER_SIZE.
  destruct (Z.ltb_spec (file_size file_data) (l_file_index st + 8)).
  { split; [discriminate | lia]. }
  pose proof (tag_kind_run_length tag) as Hrun.
  destruct (tag_kind tag) eqn:Hk.
  1,2,4,5: rewrite store_and_cache_fits by exact Hidx;
    split; [discriminate | intros (_ & [=] & _)].
  - destruct (memcmp_eq _ _ _); [split; [discriminate | intros (_ & [=] & _)]|].
    rewrite store_pixels_fits by (change (pixel_index (after _ _ st)) with (pixel_index st); lia).
    split; [discriminate | intros (_ & [=] & _)].
  - specialize (Hrun eq_refl).
    destruct (Z.gtb_spec (pixel_index st) (max_pixel_index + (Z.land (u8 tag) 63 + 1))); [lia|].
    unfold store_pixels. change (pixel_index (after _ _ st)) with (pixel_index st).
    destruct (Z.leb_spec (pixel_index st + (Z.land (u8 tag) 63 + 1)) max_pixel_index).
    + split; [discriminate | lia].
    + split; [intros _; repeat split; [lia | lia] | reflexivity].
Qed.

(** X3. A pass of the chunk loop reads no byte but the eight at
    [file_index] that the test at its start asks for: on two files that
    both have these eight bytes, and the same ones, the pass does the
    same; and it leaves [file_index] one to five bytes further. *)
Theorem load_chunk_reads_checked_bytes
    (file_data file_data' : list byte) (max_pixel_index : Z) (st : load_state) :
  0 <= l_file_index st ->
  l_file_index st + 8 <= file_size file_data ->
  l_file_index st + 8 <= file_size file_data' ->
  bytes_at file_data (l_file_index st) 8 = bytes_at file_data' (l_file_index st) 8 ->
  load_chunk file_data max_pixel_index st = load_chunk file_data' max_pixel_index st
  ∧ ∀ st', load_chunk file_data max_pixel_index st = Continue st'
           ∨ load_chunk file_data max_pixel_index st = EndMarkerSeen st' →
           l_file_index st < l_file_index st' <= l_file_index st + 5.
Proof.
  intros Hi Hs Hs' H. split; [apply load_chunk_window; assumption|].
  intros st' [Hc|Hb].
  - apply load_chunk_progress in Hc. lia.
  - apply end_marker_break_rejected in Hb; [|exact Hi]. lia.
Qed.

(** ** Files cut short, files with more bytes *)

Lemma load_chunk_eof (fd : list byte) (max_pixel_index : Z) (st : load_state) :
  file_size fd < l_file_index st + 8 ->
  load_chunk fd max_pixel_index st = Fail UnexpectedEof.
Proof.
  intros H. rewrite load_chunk_unfold. cbv zeta. unfold QOI_END_MARKER_SIZE.
  destruct (Z.ltb_spec (file_size fd) (l_file_index st + 8)); [reflexivity | lia].
Qed.

(** On a file with the same bytes, the loop does the same passes as long
    as the file has the eight bytes that every pass asks for. *)
Lemma load_chunks_same_windows (fd fd' : list byte) (max_pixel_index : Z) (fuel : nat) :
  same_windows fd fd' ->
  ∀ st st',
    0 <= l_file_index st ->
    load_chunks fd max_pixel_index fuel st = LoopDone st' ->
    check_end_marker fd st' = None ->
    load_chunks fd' max_pixel_index fuel st = LoopDone st'
    ∨ (file_size fd' < file_size fd
       ∧ load_chunks fd' max_pixel_index fuel st = LoopFail UnexpectedEof).
Proof.
  intros Hsame. induction fuel as [|fuel IH]; intros st st' Hi H Hc; cbn [load_chunks] in *.
  - destruct (_ <? _); [discriminate|]. left. exact H.
  - destruct (_ <? _); [|left; exact H].
    destruct (load_chunk fd max_pixel_index st) as [st1|st1| |] eqn:E; try discriminate.
    + pose proof (load_chunk_progress _ _ _ _ E) as (Hs & Hidx & _).
      destruct (Z.lt_ge_cases (file_size fd') (l_file_index st + 8)) as [Hshort|Hlong].
      * right. rewrite load_chunk_eof by exact Hshort. split; [lia | reflexivity].
      * rewrite <- (load_chunk_window fd fd') by (try apply Hsame; lia).
        rewrite E. apply IH; [lia | exact H | exact Hc].
    + injection H as <-. apply end_marker_break_rejected in E; [|exact Hi].
      destruct E as (_ & _ & _ & E). rewrite E in Hc. discriminate.
Qed.

Lemma same_windows_app (fd extra : list byte) : same_windows fd (fd ++ extra).
Proof.
  intros i Hi Hs _. unfold bytes_at, file_size in *.
  rewrite drop_app_le by lia. rewrite take_app_le; [reflexivity|].
  rewrite length_drop. lia.
Qed.

Lemma same_windows_take (fd : list byte) (n : nat) : same_windows fd (take n fd).
Proof.
  intros i Hi _ Hs. unfold bytes_at, file_size in *. rewrite length_take in Hs.
  rewrite skipn_firstn_comm, take_take. f_equal. lia.
Qed.

Lemma same_windows_sym (fd fd' : list byte) : same_windows fd fd' -> same_windows fd' fd.
Proof. intros H i Hi Hs Hs'. symmetry. apply H; assumption. Qed.

(** [load_header] reads the first 14 bytes. *)
Lemma load_header_window (max_size : Z) (fd fd' : list byte) :
  14 <= file_size fd -> 14 <= file_size fd' -> take 14 fd = take 14 fd' ->
  load_header max_size fd = load_header max_size fd'.
Proof.
  intros Hs Hs' H. unfold load_header, QOI_HEADER_SIZE. cbv zeta.
  destruct (Z.ltb_spec (file_size fd) (0 + 14)); [lia|].
  destruct (Z.ltb_spec (file_size fd') (0 + 14)); [lia|].
  assert (Hb : ∀ k, 0 <= k < 14 → byte_at fd k = byte_at fd' k).
  { intros k Hk. unfold byte_at.
    rewrite <- (lookup_total_take_lt fd 14) by lia.
    rewrite <- (lookup_total_take_lt fd' 14) by lia. rewrite H. reflexivity. }
  assert (Hh : header_load fd 0 = header_load fd' 0).
  { unfold header_load, guint32_load, bytes_at. cbn [Z.add Z.to_nat drop].
    rewrite !Hb by lia. f_equal.
    change (Z.to_nat 0) with 0%nat. rewrite !drop_0.
    change 4%nat with (4 `min` 14)%nat. rewrite <- !take_take, H. reflexivity. }
  rewrite Hh. reflexivity.
Qed.

Lemma load_image_loaded_loop (max_size : Z) (fd : list byte) (image : QoiImage) :
  load_image max_size fd = Loaded image ->
  ∃ result st,
    let max_pixel_index := wrap32 (width result * height result) in
    load_header max_size fd = inr result
    ∧ 1 <= max_pixel_index
    ∧ load_chunks fd max_pixel_index (Z.to_nat max_pixel_index) (load_start QOI_HEADER_SIZE)
      = LoopDone st
    ∧ check_end_marker fd st = None.
Proof.
  unfold load_image. intros H.
  destruct (load_header max_size fd) as [e|result] eqn:Hh; [discriminate|].
  cbv zeta in H.
  assert (Hpos : 0 <= wrap32 (width result * height result))
    by (unfold wrap32; apply Z.mod_pos_bound; reflexivity).
  destruct (Z.eqb_spec (wrap32 (width result * height result) * 4) 0); [discriminate|].
  destruct (load_chunks _ _ _ _) as [st| | |] eqn:Hl; try discriminate.
  destruct (check_end_marker fd st) eqn:Hc; [discriminate|].
  exists result, st. cbv zeta. repeat split; try assumption; try reflexivity. lia.
Qed.

Lemma check_end_marker_none (fd : list byte) (st : load_state) :
  check_end_marker fd st = None ->
  l_file_index st + 8 = file_size fd
  ∧ bytes_at fd (l_file_index st) 8 = QOI_END_MARKER.
Proof.
  unfold check_end_marker, QOI_END_MARKER_SIZE. intros Hc.
  destruct (Z.ltb_spec (file_size fd) (l_file_index st + 8)); [discriminate|].
  destruct (memcmp_eq fd (l_file_index st) QOI_END_MARKER) eqn:Hm; [|discriminate].
  destruct (Z.eqb_spec (l_file_index st + 8) (file_size fd)) as [He|]; [|discriminate].
  apply bool_decide_eq_true in Hm. split; assumption.
Qed.

(** X4. A file that [load_image] accepts is rejected, with "File
    contains data past the end marker.", once any bytes are added at its
    end. *)
Theorem trailing_data_rejected
    (max_size : Z) (file_data extra : list byte) (image : QoiImage) :
  load_image max_size file_data = Loaded image ->
  extra ≠ [] ->
  load_image max_size (file_data ++ extra) = Rejected TrailingData.
Proof.
  intros H Hextra.
  apply load_image_loaded_loop in H. destruct H as (result & st & Hh & Hpos & Hl & Hc).
  cbv zeta in *.
  pose proof (load_header_inr _ _ _ Hh) as (Hsize & _).
  assert (Hlen : file_size (file_data ++ extra) = file_size file_data + Z.of_nat (length extra))
    by (unfold file_size; rewrite length_app; lia).
  assert (Hmore : 0 < Z.of_nat (length extra)) by (destruct extra; [congruence | cbn; lia]).
  unfold load_image.
  rewrite <- (load_header_window max_size file_data)
    by (try lia; unfold file_size in Hsize; rewrite take_app_le by lia; reflexivity).
  rewrite Hh. cbv zeta.
  destruct (Z.eqb_spec (wrap32 (width result * height result) * 4) 0); [lia|].
  assert (Hstart : 0 <= l_file_index (load_start QOI_HEADER_SIZE))
    by (unfold load_start, QOI_HEADER_SIZE; cbn; lia).
  destruct (load_chunks_same_windows file_data (file_data ++ extra) _ _
              (same_windows_app file_data extra) _ _ Hstart Hl Hc)
    as [Hl'|[Hshort _]]; [|lia].
  rewrite Hl'.
  pose proof (check_end_marker_none _ _ Hc) as (Hidx & Hmark).
  assert (0 <= l_file_index st).
  { apply load_chunks_done in Hl. destruct Hl as [(Hs & _) | (st1 & Hs & _ & Hb)];
      apply steps_progress in Hs; unfold load_start, QOI_HEADER_SIZE in Hs; cbn in Hs; [lia|].
    apply end_marker_break_rejected in Hb; [|lia].
    destruct Hb as (_ & _ & _ & Hb). rewrite Hb in Hc. discriminate. }
  unfold check_end_marker, QOI_END_MARKER_SIZE, memcmp_eq.
  change (length QOI_END_MARKER) with 8%nat.
  rewrite <- (same_windows_app file_data extra) by lia. rewrite Hmark.
  destruct (Z.ltb_spec (file_size (file_data ++ extra)) (l_file_index st + 8)); [lia|].
  rewrite bool_decide_eq_true_2 by reflexivity. cbn [negb].
  destruct (Z.eqb_spec (l_file_index st + 8) (file_size (file_data ++ extra))); [lia|].
  reflexivity.
Qed.

(** X5. A file that [load_image] accepts, cut to its first [n] bytes,
    is rejected with "The file ends unexpectedly.", for [n] from 1 to 13
    and from 16 on. (Cut to no byte the file is not read, and cut to 14 or
    15 bytes the copy of the header reads past the end of the block:
    [load_header_of_file].) *)
Theorem truncated_file_rejected
    (max_size : Z) (file_data : list byte) (image : QoiImage) (n : nat) :
  load_image max_size file_data = Loaded image ->
  (n < length file_data)%nat ->
  (1 <= n < 14)%nat ∨ (16 <= n)%nat ->
  load_image max_size (take n file_data) = Rejected UnexpectedEof.
Proof.
  intros H Hn _.
  apply load_image_loaded_loop in H. destruct H as (result & st & Hh & Hpos & Hl & Hc).
  cbv zeta in *.
  pose proof (load_header_inr _ _ _ Hh) as (Hsize & _).
  assert (Hlen : file_size (take n file_data) = Z.of_nat n)
    by (unfold file_size; rewrite length_take; lia).
  unfold load_image.
  destruct (Z.lt_ge_cases (Z.of_nat n) 14) as [Hshort|Hlong].
  { unfold load_header, QOI_HEADER_SIZE. cbv zeta.
    destruct (Z.ltb_spec (file_size (take n file_data)) (0 + 14)); [reflexivity | lia]. }
  rewrite <- (load_header_window max_size file_data)
    by (try lia; rewrite take_take; f_equal; lia).
  rewrite Hh. cbv zeta.
  destruct (Z.eqb_spec (wrap32 (width result * height result) * 4) 0); [lia|].
  assert (Hstart : 0 <= l_file_index (load_start QOI_HEADER_SIZE))
    by (unfold load_start, QOI_HEADER_SIZE; cbn; lia).
  destruct (load_chunks_same_windows file_data (take n file_data) _ _
              (same_windows_take file_data n) _ _ Hstart Hl Hc)
    as [Hl'|[_ Hl']]; rewrite Hl'; [|reflexivity].
  pose proof (check_end_marker_none _ _ Hc) as (Hidx & _).
  unfold check_end_marker, QOI_END_MARKER_SIZE.
  destruct (Z.ltb_spec (file_size (take n file_data)) (l_file_index st + 8));
    [reflexivity|].
  unfold file_size in *. lia.
Qed.

(** ** The cache *)

Lemma cache_ok_start : cache_ok (replicate 64 zero_pixel).
Proof.
  split; [reflexivity|]. intros i Hi. left. apply lookup_total_replicate_2. exact Hi.
Qed.

Lemma cache_ok_insert (pixel : QoiPixel) (array : list QoiPixel) :
  cache_ok array -> cache_ok (<[Z.to_nat (qoi_pixel_hash pixel) := pixel]> array).
Proof.
  intros [Hlen Hslots].
  destruct (cache_effect_insert pixel array Hlen) as (Hlen' & Hat & Hother).
  pose proof (qoi_pixel_hash_range pixel) as Hh.
  split; [congruence|]. intros i Hi.
  destruct (decide (i = Z.to_nat (qoi_pixel_hash pixel))) as [->|Hne].
  - right. rewrite Hat. lia.
  - rewrite Hother by exact Hne. apply Hslots, Hi.
Qed.

(** A pass of the decoder leaves [array] as it is or writes
    [current_pixel] to the slot of its hash. *)
Lemma load_chunk_array (fd : list byte) (max_pixel_index : Z) (st st' : load_state) :
  load_chunk fd max_pixel_index st = Continue st'
  ∨ load_chunk fd max_pixel_index st = EndMarkerSeen st' ->
  l_array st' = l_array st
  ∨ l_array st'
    = <[Z.to_nat (qoi_pixel_hash (l_current_pixel st')) := l_current_pixel st']> (l_array st).
Proof.
  rewrite load_chunk_unfold. cbv zeta.
  destruct (_ <? _); [intros [H|H]; discriminate H|].
  unfold store_and_cache, store_pixels.
  intros [H|H]; destruct (tag_kind _); cbv zeta in H;
    repeat match type of H with
           | (if ?c then _ else _) = _ => destruct c eqn:?; try discriminate H
           | match (if ?c then _ else _) with _ => _ end = _ =>
               destruct c eqn:?; try discriminate H
           end;
    injection H as <-; cbn; auto.
Qed.

Lemma load_chunks_cache_ok (fd : list byte) (max_pixel_index : Z) (fuel : nat) :
  ∀ st st',
    cache_ok (l_array st) ->
    load_chunks fd max_pixel_index fuel st = LoopDone st' ->
    cache_ok (l_array st').
Proof.
  induction fuel as [|fuel IH]; intros st st' Hok H; cbn [load_chunks] in H.
  - destruct (_ <? _); [discriminate|]. injection H as <-. exact Hok.
  - destruct (_ <? _); [|injection H as <-; exact Hok].
    destruct (load_chunk fd max_pixel_index st) as [st1|st1| |] eqn:E; try discriminate.
    + apply (IH st1); [|exact H].
      destruct (load_chunk_array fd max_pixel_index st st1 (or_introl E)) as [->| ->];
        [exact Hok | apply cache_ok_insert, Hok].
    + injection H as <-.
      destruct (load_chunk_array fd max_pixel_index st st1 (or_intror E)) as [->| ->];
        [exact Hok | apply cache_ok_insert, Hok].
Qed.

Lemma save_pixel_array (image : QoiImage) (max_pixel_index : Z) (st st' : save_state) :
  save_pixel image max_pixel_index st = Some st' ->
  s_array st' = s_array st
  ∨ s_array st'
    = <[Z.to_nat (qoi_pixel_hash (s_previous_pixel st')) := s_previous_pixel st']> (s_array st).
Proof.
  rewrite save_pixel_unfold. cbv zeta.
  destruct (save_kind image st); intros H;
    try (injection H as <-; cbn; auto).
  apply save_run_frame in H. left. apply H.
Qed.

Lemma save_pixels_cache_ok (image : QoiImage) (max_pixel_index : Z) (fuel : nat) :
  ∀ st st',
    cache_ok (s_array st) ->
    save_pixels image max_pixel_index fuel st = Some st' ->
    cache_ok (s_array st').
Proof.
  induction fuel as [|fuel IH]; intros st st' Hok H; cbn [save_pixels] in H.
  - destruct (_ <? _); [discriminate|]. injection H as <-. exact Hok.
  - destruct (_ <? _); [|injection H as <-; exact Hok].
    destruct (save_pixel image max_pixel_index st) as [st1|] eqn:E; [|discriminate].
    apply (IH st1); [|exact H].
    destruct (save_pixel_array _ _ _ _ E) as [->| ->];
      [exact Hok | apply cache_ok_insert, Hok].
Qed.

(** X6. Both loops keep [array] in order: whenever the chunk loop of
    [load_image] or the pixel loop of [save_image] is left, [array] has
    its 64 slots, and every slot holds the zero pixel it started with or
    a pixel whose hash is the number of the slot. *)
Theorem cache_slots_hash_to_their_index :
  (∀ file_data max_pixel_index fuel file_index st,
     load_chunks file_data max_pixel_index fuel (load_start file_index) = LoopDone st →
     cache_ok (l_array st))
  ∧ (∀ image max_pixel_index fuel file_data st,
       save_pixels image max_pixel_index fuel (save_start file_data) = Some st →
       cache_ok (s_array st)).
Proof.
  split.
  - intros fd m fuel i st H.
    apply (load_chunks_cache_ok fd m fuel (load_start i) st cache_ok_start H).
  - intros image m fuel fd st H.
    apply (save_pixels_cache_ok image m fuel (save_start fd) st cache_ok_start H).
Qed.

(** ** The colorspace of the header *)

Lemma header_load_set_colorspace (fd : list byte) (c : byte) :
  (13 < length fd)%nat ->
  header_load (<[13%nat := c]> fd) 0 =
  {| magic := magic (header_load fd 0);
     h_width := h_width (header_load fd 0);
     h_height := h_height (header_load fd 0);
     channels := channels (header_load fd 0);
     h_colorspace := c |}.
Proof.
  intros Hlen. unfold header_load, guint32_load, bytes_at, byte_at.
  cbn [magic h_width h_height channels].
  change (Z.to_nat 0) with 0%nat. rewrite !drop_0.
  rewrite take_insert_ge by lia.
  rewrite list_lookup_total_insert_eq by (cbn; lia).
  rewrite !list_lookup_total_insert_ne by (cbn; lia). reflexivity.
Qed.

(** X7. The colorspace of the header takes no part in the decoding: two
    files that differ in this byte only, 0 in one and 1 in the other,
    load alike, the same failure or the same image but for the
    colorspace. *)
Theorem colorspace_independence (max_size : Z) (file_data : list byte) :
  let srgb := <[13%nat := Byte.x00]> file_data in
  let linear := <[13%nat := Byte.x01]> file_data in
  load_image max_size linear = with_colorspace QOI_COLORSPACE_LINEAR (load_image max_size srgb)
  ∧ load_image max_size srgb = with_colorspace QOI_COLORSPACE_SRGB (load_image max_size linear).
Proof.
  intros srgb linear.
  assert (Hlen : length srgb = length linear)
    by (subst srgb linear; rewrite !length_insert; reflexivity).
  assert (Hdrop : drop 14 srgb = drop 14 linear)
    by (subst srgb linear; rewrite !drop_insert_lt by lia; reflexivity).
  assert (Hcases :
    (∃ e, load_image max_size srgb = Rejected e ∧ load_image max_size linear = Rejected e)
    ∨ (load_image max_size srgb = LoadOutOfBounds ∧ load_image max_size linear = LoadOutOfBounds)
    ∨ (load_image max_size srgb = LoadFuel ∧ load_image max_size linear = LoadFuel)
    ∨ (∃ p w h a, load_image max_size srgb
                  = Loaded {| pixels := p; width := w; height := h;
                              colorspace := QOI_COLORSPACE_SRGB; has_alpha := a |}
                  ∧ load_image max_size linear
                    = Loaded {| pixels := p; width := w; height := h;
                                colorspace := QOI_COLORSPACE_LINEAR; has_alpha := a |})).
  { unfold load_image, load_header, file_size. rewrite <- Hlen.
    destruct (Z.ltb_spec (Z.of_nat (length srgb)) (0 + QOI_HEADER_SIZE)) as [Hs|Hs]; [eauto|].
    assert (13 < length file_data)%nat
      by (subst srgb; rewrite length_insert in Hs; unfold QOI_HEADER_SIZE in Hs; lia).
    subst srgb linear. rewrite !header_load_set_colorspace by assumption.
    cbn [magic h_width h_height channels h_colorspace].
    set (srgb := <[13%nat := Byte.x00]> file_data) in *.
    set (linear := <[13%nat := Byte.x01]> file_data) in *.
    destruct (negb _); [eauto|].
    change (u8 Byte.x00 =? colorspace_value QOI_COLORSPACE_SRGB) with true.
    change (u8 Byte.x01 =? colorspace_value QOI_COLORSPACE_SRGB) with false.
    change (u8 Byte.x01 =? colorspace_value QOI_COLORSPACE_LINEAR) with true. cbv iota.
    destruct (_ =? QOI_CHANNELS_RGB); [|destruct (_ =? QOI_CHANNELS_RGBA); [|eauto]].
    all: destruct (_ || _); [eauto|]; destruct (_ || _); [eauto|].
    all: cbn [width height colorspace has_alpha pixels].
    all: destruct (_ =? 0); [eauto|].
    all: destruct (load_chunks_from_header srgb linear
                     (wrap32 (guint32_swap_local_and_big_endian (h_width (header_load file_data 0))
                              * guint32_swap_local_and_big_endian
                                  (h_height (header_load file_data 0))))
                     (Z.to_nat (wrap32 (guint32_swap_local_and_big_endian
                                          (h_width (header_load file_data 0))
                              * guint32_swap_local_and_big_endian
                                  (h_height (header_load file_data 0)))))
                     Hlen Hdrop) as [Hloop Hend].
    all: rewrite <- Hloop.
    all: destruct (load_chunks srgb _ _ _) eqn:E; eauto 10.
    all: rewrite <- (Hend st eq_refl).
    all: destruct (check_end_marker srgb st); eauto 10.
    all: right; right; right; eauto 10. }
  destruct Hcases as [(e & -> & ->) | [(-> & ->) | [(-> & ->) | (p & w & h & a & -> & ->)]]];
    cbn; split; reflexivity.
Qed.

(** * Further properties of the encoder *)

(** ** The size of what is stored *)

(** The run loop stores a byte for every 62 pixels it passes, the pixels
    counted in [run] at its start included. *)
Lemma save_run_covers (image : QoiImage) (max_pixel_index : Z) (fuel : nat) :
  ∀ (run : byte) (st st' : save_state),
    u8 run < 62 ->
    save_run image max_pixel_index fuel run st = Some st' ->
    ∃ more,
      s_file_data st' = s_file_data st ++ more
      ∧ s_pixel_index st' - s_pixel_index st + u8 run <= 62 * Z.of_nat (length more).
Proof.
  induction fuel as [|fuel IH]; intros run st st' Hrun H; [discriminate|].
  cbn [save_run] in H. pose proof (u8_range run) as Hr.
  rewrite (u8_to_u8_small (u8 run + 1)) in H by lia.
  unfold QOI_MAX_RUN_LENGTH in H.
  destruct ((s_pixel_index (next_pixel st) <? max_pixel_index)
            && qoi_pixel_equal (s_previous_pixel (next_pixel st))
                 (pixel_at image (s_pixel_index (next_pixel st)))) eqn:Hnext.
  - destruct (Z.eqb_spec (u8 run + 1) 62) as [Hfull|Hroom]; cbn [orb negb] in H.
    + apply IH in H; [|rewrite u8_to_u8_small; lia].
      destruct H as (more & Hd & Hl).
      cbn [put next_pixel s_file_data s_pixel_index] in Hd, Hl.
      rewrite u8_to_u8_small in Hl by lia. rewrite <- app_assoc in Hd.
      eexists. split; [exact Hd|]. rewrite length_app. cbn [length]. lia.
    + apply IH in H; [|rewrite u8_to_u8_small; lia].
      destruct H as (more & Hd & Hl).
      cbn [next_pixel s_file_data s_pixel_index] in Hd, Hl.
      rewrite u8_to_u8_small in Hl by lia.
      exists more. split; [exact Hd|]. lia.
  - rewrite orb_true_r in H. injection H as <-.
    eexists. split; [reflexivity|]. cbn. lia.
Qed.

Lemma save_pixel_covers (image : QoiImage) (max_pixel_index : Z) (st st' : save_state) :
  save_pixel image max_pixel_index st = Some st' ->
  ∃ more,
    s_file_data st' = s_file_data st ++ more
    ∧ s_pixel_index st' - s_pixel_index st <= 62 * Z.of_nat (length more).
Proof.
  rewrite save_pixel_unfold. cbv zeta.
  destruct (save_kind image st); intros H;
    try (injection H as <-; eexists; split; [reflexivity|]; cbn; lia).
  apply save_run_covers in H; [|rewrite u8_to_u8_small; lia].
  destruct H as (more & Hd & Hl). rewrite u8_to_u8_small in Hl by lia.
  exists more. split; [exact Hd | lia].
Qed.

Lemma save_pixels_covers (image : QoiImage) (max_pixel_index : Z) (fuel : nat) :
  ∀ st st',
    save_pixels image max_pixel_index fuel st = Some st' ->
    ∃ more,
      s_file_data st' = s_file_data st ++ more
      ∧ s_pixel_index st' - s_pixel_index st <= 62 * Z.of_nat (length more).
Proof.
  induction fuel as [|fuel IH]; intros st st' H; cbn [save_pixels] in H.
  - destruct (_ <? _); [discriminate|]. injection H as <-.
    exists []. rewrite app_nil_r. split; [reflexivity | cbn; lia].
  - destruct (_ <? _).
    + destruct (save_pixel image max_pixel_index st) as [st1|] eqn:E; [|discriminate].
      apply save_pixel_covers in E. destruct E as (more1 & Hd1 & Hl1).
      apply IH in H. destruct H as (more & Hd & Hl).
      exists (more1 ++ more). split; [rewrite Hd, Hd1, app_assoc; reflexivity|].
      rewrite length_app. lia.
    + injection H as <-. exists []. rewrite app_nil_r. split; [reflexivity | cbn; lia].
Qed.

(** X8. For an image with as many pixels as width times height, and
    14 + width * height * 5 + 8 below 2^31, [save_image] stores the
    header, the chunks and the end marker inside the block it asked for,
    whatever the pixels are; the chunks take at least one byte for 62
    pixels and at most five bytes for a pixel. *)
Theorem save_image_succeeds (image : QoiImage) :
  Z.of_nat (length (pixels image)) = width image * height image ->
  14 + width image * height image * 5 + 8 < 2 ^ 31 ->
  ∃ chunks,
    save_image image = Saved (header_store (save_header image) ++ chunks ++ QOI_END_MARKER)
    ∧ width image * height image <= 62 * Z.of_nat (length chunks)
    ∧ Z.of_nat (length chunks) <= 5 * (width image * height image).
Proof.
  intros Hlen Hfit. change (2 ^ 31) with 2147483648 in Hfit.
  assert (Hmax : wrap32 (width image * height image) = width image * height image)
    by (unfold wrap32; apply Z.mod_small; change (2 ^ 32) with 4294967296; lia).
  destruct (save_image_saved image) as (chunks & Hsave & Hbytes);
    [lia | change (2 ^ 31) with 2147483648; lia |].
  exists chunks. split; [exact Hsave|].
  unfold save_bytes in Hbytes. rewrite Hmax in Hbytes.
  destruct (save_pixels image _ _ _) as [st'|] eqn:Hpixels; [|discriminate].
  apply (inj Some) in Hbytes. rewrite app_assoc in Hbytes. apply app_inv_tail in Hbytes.
  pose proof (save_pixels_covers _ _ _ _ _ Hpixels) as (more & Hd & Hl).
  destruct (save_pixels_total image (width image * height image)
              (Z.to_nat (width image * height image))
              (save_start (header_store (save_header image))))
    as (st2 & more2 & Hp2 & Hi2 & Hd2 & Hl2); [cbn; lia..|].
  rewrite Hpixels in Hp2. injection Hp2 as <-.
  cbn [save_start s_file_data s_pixel_index] in Hd, Hl, Hd2, Hl2.
  rewrite Hbytes in Hd, Hd2. apply app_inv_head in Hd, Hd2. subst more more2.
  split; lia.
Qed.

(** ** The header, stored and read back *)

(** [load_header] on a file that starts with the header that
    [save_image] stores. *)
Lemma load_header_of_saved (max_size : Z) (image : QoiImage) (rest : list byte) :
  0 <= width image < 2 ^ 32 ->
  0 <= height image < 2 ^ 32 ->
  load_header max_size (header_store (save_header image) ++ rest)
  = match colorspace image with
    | QOI_COLORSPACE_COUNT => inl UnsupportedColorspace
    | _ =>
        if (width image =? 0) || (width image >? max_size) then inl InvalidDimensions
        else if (height image =? 0) || (height image >? max_size) then inl InvalidDimensions
        else inr {| pixels := [];
                    width := width image;
                    height := height image;
                    colorspace := colorspace image;
                    has_alpha := has_alpha image |}
    end.
Proof.
  intros Hw Hh. unfold load_header.
  assert (Hsize : (file_size (header_store (save_header image) ++ rest) <? 0 + QOI_HEADER_SIZE)
                  = false).
  { apply Z.ltb_ge. unfold file_size, QOI_HEADER_SIZE.
    rewrite length_app, header_store_length. lia. }
  rewrite Hsize, header_load_store. unfold save_header.
  cbn [magic h_width h_height channels h_colorspace].
  rewrite !swap_swap by lia.
  rewrite bool_decide_eq_true_2 by reflexivity. cbn [negb].
  destruct (has_alpha image), (colorspace image); reflexivity.
Qed.

(** X9. The header that [save_image] stores has 14 bytes, and
    [load_header] reads it back, whatever follows it: as the width,
    height, colorspace and alpha flag of the image when width and height
    lie between 1 and the maximum; as "Unsupported or unknown colorspace"
    for an image whose colorspace is [QOI_COLORSPACE_COUNT]; as an
    invalid width or height otherwise. *)
Theorem saved_header_read_back (max_size : Z) (image : QoiImage) (rest : list byte) :
  0 <= width image < 2 ^ 32 ->
  0 <= height image < 2 ^ 32 ->
  length (header_store (save_header image)) = 14%nat
  ∧ (colorspace image = QOI_COLORSPACE_COUNT →
     load_header max_size (header_store (save_header image) ++ rest)
     = inl UnsupportedColorspace)
  ∧ (colorspace image ≠ QOI_COLORSPACE_COUNT →
     (width image = 0 ∨ width image > max_size ∨ height image = 0 ∨ height image > max_size →
      load_header max_size (header_store (save_header image) ++ rest) = inl InvalidDimensions)
     ∧ (1 <= width image <= max_size → 1 <= height image <= max_size →
        load_header max_size (header_store (save_header image) ++ rest)
        = inr {| pixels := [];
                 width := width image;
                 height := height image;
                 colorspace := colorspace image;
                 has_alpha := has_alpha image |})).
Proof.
  intros Hw Hh. rewrite load_header_of_saved by assumption.
  split; [reflexivity|]. split.
  - intros ->. reflexivity.
  - intros Hcs. destruct (colorspace image); [| |congruence].
    all: destruct (Z.eqb_spec (width image) 0), (Z.gtb_spec (width image) max_size),
      (Z.eqb_spec (height image) 0), (Z.gtb_spec (height image) max_size);
      cbn [orb]; split; intros; try reflexivity; lia.
Qed.

(** X10. For an image whose width times height is 0 modulo 2^32,
    [save_image] stores no chunk: the file is the header and the end
    marker, 22 bytes, and [load_image] rejects it, for its colorspace,
    its width or height, or because no pixels can be allocated. *)
Theorem save_image_without_pixels (max_size : Z) (image : QoiImage) :
  0 <= width image < 2 ^ 32 ->
  0 <= height image < 2 ^ 32 ->
  wrap32 (width image * height image) = 0 ->
  let file_data := header_store (save_header image) ++ QOI_END_MARKER in
  save_image image = Saved file_data
  ∧ file_size file_data = 22
  ∧ ∃ e, load_image max_size file_data = Rejected e
         ∧ (e = UnsupportedColorspace ∨ e = InvalidDimensions ∨ e = AllocationFailure).
Proof.
  intros Hw Hh Hnone file_data. subst file_data. split; [|split].
  - unfold save_image, save_alloc_size, save_bytes. rewrite Hnone.
    change (Z.to_nat 0) with 0%nat. cbn [save_pixels save_start s_pixel_index s_file_data].
    change (0 <? 0) with false. cbv iota.
    change (wrap32 (wrap32 (QOI_HEADER_SIZE + wrap32 (0 * QOI_MAX_BYTES_PER_PIXEL))
                    + QOI_END_MARKER_SIZE)) with 22.
    change (22 =? 0) with false. cbv iota.
    change (s_file_data (save_start (header_store (save_header image))))
      with (header_store (save_header image)).
    rewrite length_app, header_store_length. reflexivity.
  - unfold file_size. rewrite length_app, header_store_length. reflexivity.
  - unfold load_image. rewrite load_header_of_saved by assumption.
    destruct (colorspace image); [| |eauto].
    all: destruct (_ || _); [eauto|]; destruct (_ || _); [eauto|].
    all: cbn [width height]; rewrite Hnone; change (0 * 4 =? 0) with true; cbv iota; eauto 6.
Qed.

(** ** The byte order of the header *)

(** X11. [guint32_swap_local_and_big_endian] reverses the four bytes of
    a [guint32]: its value is a [guint32], applying it twice gives the
    value back (reduced modulo 2^32), and the number with the bytes
    b0 b1 b2 b3, least significant first, becomes the number with the
    same bytes, most significant first. *)
Theorem guint32_swap_reverses_bytes (x : Z) (b0 b1 b2 b3 : byte) :
  0 <= guint32_swap_local_and_big_endian x < 2 ^ 32
  ∧ guint32_swap_local_and_big_endian (guint32_swap_local_and_big_endian x) = wrap32 x
  ∧ guint32_swap_local_and_big_endian
      (u8 b0 + u8 b1 * 2 ^ 8 + u8 b2 * 2 ^ 16 + u8 b3 * 2 ^ 24)
    = big_endian b0 b1 b2 b3.
Proof.
  split; [apply swap_range|]. split.
  - rewrite (swap_bits x).
    rewrite swap_little_endian by (apply Z.mod_pos_bound; reflexivity).
    unfold wrap32.
    change (2 ^ 8) with 256. change (2 ^ 16) with 65536.
    change (2 ^ 24) with 16777216. change (2 ^ 32) with 4294967296.
    Z.div_mod_to_equations. lia.
  - apply swap_little_endian; apply u8_range.
Qed.

Lemma big_endian_store (v : Z) :
  0 <= v < 2 ^ 32 ->
  ∃ b0 b1 b2 b3,
    guint32_store (guint32_swap_local_and_big_endian v) = [b0; b1; b2; b3]
    ∧ big_endian b0 b1 b2 b3 = v.
Proof.
  intros Hv. unfold guint32_store. eexists _, _, _, _. split; [reflexivity|].
  unfold big_endian. rewrite <- swap_little_endian by apply u8_range.
  rewrite guint32_bytes by apply swap_range. apply swap_swap, Hv.
Qed.

(** X12. The 14 bytes that [save_image] stores as the header: "qoif",
    the width and the height most significant byte first, 3 or 4 for the
    channels, and the number of the colorspace. *)
Theorem saved_header_layout (image : QoiImage) :
  0 <= width image < 2 ^ 32 ->
  0 <= height image < 2 ^ 32 ->
  ∃ w0 w1 w2 w3 h0 h1 h2 h3,
    header_store (save_header image)
    = [Byte.x71; Byte.x6f; Byte.x69; Byte.x66; w0; w1; w2; w3; h0; h1; h2; h3;
       if has_alpha image then Byte.x04 else Byte.x03;
       match colorspace image with
       | QOI_COLORSPACE_SRGB => Byte.x00
       | QOI_COLORSPACE_LINEAR => Byte.x01
       | QOI_COLORSPACE_COUNT => Byte.x02
       end]
    ∧ big_endian w0 w1 w2 w3 = width image
    ∧ big_endian h0 h1 h2 h3 = height image.
Proof.
  intros Hw Hh.
  destruct (big_endian_store (width image) Hw) as (w0 & w1 & w2 & w3 & Ew & Hw').
  destruct (big_endian_store (height image) Hh) as (h0 & h1 & h2 & h3 & Eh & Hh').
  exists w0, w1, w2, w3, h0, h1, h2, h3.
  split; [|split; assumption].
  unfold header_store, save_header. cbn [magic h_width h_height channels h_colorspace].
  rewrite Ew, Eh. destruct (has_alpha image), (colorspace image); reflexivity.
Qed.

(** * The callers of [load_image] *)

Lemma load_chunk_fail (fd : list byte) (max_pixel_index : Z) (st : load_state) (e : load_error) :
  load_chunk fd max_pixel_index st = Fail e -> e = UnexpectedEof ∨ e = InvalidRunLength.
Proof.
  rewrite load_chunk_unfold. cbv zeta.
  destruct (_ <? _); [intros [= <-]; auto|].
  unfold store_and_cache, store_pixels.
  intros H; destruct (tag_kind _); cbv zeta in H;
    repeat match type of H with
           | (if ?c then _ else _) = _ => destruct c eqn:?; try discriminate H
           | match (if ?c then _ else _) with _ => _ end = _ =>
               destruct c eqn:?; try discriminate H
           end;
    injection H as <-; auto.
Qed.

Lemma load_chunks_fail (fd : list byte) (max_pixel_index : Z) (fuel : nat) :
  ∀ st e, load_chunks fd max_pixel_index fuel st = LoopFail e ->
          e = UnexpectedEof ∨ e = InvalidRunLength.
Proof.
  induction fuel as [|fuel IH]; intros st e H; cbn [load_chunks] in H.
  - destruct (_ <? _); discriminate.
  - destruct (_ <? _); [|discriminate].
    destruct (load_chunk fd max_pixel_index st) eqn:E; try discriminate.
    + apply (IH _ _ H).
    + injection H as <-. apply (load_chunk_fail _ _ _ _ E).
Qed.

(** X13. The [g_free(qoi_image.pixels)] at the end of the [LOAD_PROC]
    branch of [run] has a meaning when [load_image] returned [true] (the
    status is then success, unless no GIMP image could be made) and when
    [load_image] could not allocate the pixels (NULL is freed). After
    every other failure of [load_image] it has none: when the file could
    not be read or its header was refused the pointer was never
    assigned, and when the chunks or the end marker were refused
    [load_image] has freed the block already. *)
Theorem run_load_frees_pixels (max_size : Z) (file_data : list byte) (image : Z) :
  (∀ result, load_image max_size file_data = Loaded result →
     run_load max_size (Some file_data) image
     = Some (if image =? -1 then run_failure else run_success image))
  ∧ (load_image max_size file_data = Rejected AllocationFailure →
     run_load max_size (Some file_data) image = Some run_failure)
  ∧ (∀ e, load_image max_size file_data = Rejected e → e ≠ AllocationFailure →
     run_load max_size (Some file_data) image = None)
  ∧ run_load max_size None image = None.
Proof.
  unfold run_load, load_image_call, load_image.
  destruct (load_header max_size file_data) as [e0|result] eqn:Hh.
  { apply load_header_errors in Hh.
    split; [intros r H; discriminate H|].
    split; [intros [= ->]; intuition discriminate|].
    split; reflexivity. }
  cbv zeta. destruct (_ =? 0).
  { split; [intros r H; discriminate H|].
    split; [reflexivity|].
    split; [intros e [= <-] He; congruence | reflexivity]. }
  destruct (load_chunks _ _ _ _) as [st|e0| |] eqn:Hl.
  - destruct (check_end_marker file_data st) as [e0|] eqn:Hc.
    + apply check_end_marker_errors in Hc.
      split; [intros r H; discriminate H|].
      split; [intros [= ->]; intuition discriminate|].
      split; reflexivity.
    + split; [intros r _; cbn; destruct (image =? -1); reflexivity|].
      split; [intros H; discriminate H|].
      split; [intros e H; discriminate H | reflexivity].
  - apply load_chunks_fail in Hl.
    split; [intros r H; discriminate H|].
    split; [intros [= ->]; intuition discriminate|].
    split; reflexivity.
  - split; [intros r H; discriminate H|].
    split; [intros H; discriminate H|].
    split; [intros e H; discriminate H | reflexivity].
  - split; [intros r H; discriminate H|].
    split; [intros H; discriminate H|].
    split; [intros e H; discriminate H | reflexivity].
Qed.

(** ** The rows of a loaded image *)

(** Consecutive pieces of [w] elements, put together again. *)
Lemma concat_pieces {A : Type} (l : list A) (w : nat) (h : nat) :
  ∀ k : nat,
    concat (map (λ y : nat, take w (drop (y * w) l)) (seq k h))
    = take (h * w) (drop (k * w) l).
Proof.
  induction h as [|h IH]; intros k; [reflexivity|].
  cbn [seq map concat]. rewrite IH.
  replace (S k * w)%nat with (k * w + w)%nat by lia.
  rewrite <- drop_drop. rewrite take_take_drop. f_equal.
Qed.

Lemma image_row_inside (image : QoiImage) (y : nat) :
  0 <= width image ->
  (Z.of_nat y + 1) * width image <= Z.of_nat (length (pixels image)) ->
  Z.of_nat (length (pixels image)) < 2 ^ 32 ->
  image_row image (Z.of_nat y)
  = Some (take (Z.to_nat (width image)) (drop (y * Z.to_nat (width image)) (pixels image))).
Proof.
  intros Hw Hy Hlen. unfold image_row. cbv zeta.
  assert (Hstart : wrap32 (Z.of_nat y * width image) = Z.of_nat y * width image)
    by (unfold wrap32; apply Z.mod_small; nia).
  rewrite Hstart.
  destruct (Z.leb_spec (Z.of_nat y * width image + width image)
              (Z.of_nat (length (pixels image)))); [|lia].
  do 3 f_equal. nia.
Qed.

Lemma image_rows_tile (image : QoiImage) :
  0 <= width image ->
  0 <= height image ->
  Z.of_nat (length (pixels image)) = width image * height image ->
  width image * height image < 2 ^ 32 ->
  ∃ rows,
    image_rows image = Some rows
    ∧ concat rows = pixels image
    ∧ Z.of_nat (length rows) = height image
    ∧ Forall (λ row, Z.of_nat (length row) = width image) rows.
Proof.
  intros Hw Hh Hlen Hfit.
  set (w := Z.to_nat (width image)). set (h := Z.to_nat (height image)).
  exists (map (λ y : nat, take w (drop (y * w) (pixels image))) (seq 0 h)).
  split; [|split; [|split]].
  - unfold image_rows. fold h. apply mapM_Some_2.
    apply Forall2_fmap_r, Forall_Forall2_diag, Forall_seq.
    intros y Hy. cbn. apply image_row_inside; [exact Hw | nia | lia].
  - rewrite concat_pieces. cbn [Nat.mul drop]. apply take_ge. nia.
  - rewrite length_map, length_seq. lia.
  - apply Forall_map, Forall_seq. intros y Hy. cbn.
    rewrite length_take, length_drop. nia.
Qed.

Lemma image_rows_outside (image : QoiImage) :
  1 <= width image ->
  Z.of_nat (length (pixels image)) < 2 ^ 32 ->
  2 ^ 32 <= width image * height image ->
  image_rows image = None.
Proof.
  intros Hw Hlen Hwrap. unfold image_rows. apply mapM_None_2, Exists_exists.
  set (n := Z.of_nat (length (pixels image))) in *.
  exists (Z.to_nat (n / width image)).
  assert (Hn : 0 <= n) by (subst n; lia).
  assert (Hq : 0 <= n / width image) by (apply Z.div_pos; lia).
  assert (Hlt : n / width image < height image)
    by (apply Z.div_lt_upper_bound; lia).
  split; [apply elem_of_seq; lia|].
  unfold image_row. cbv zeta. rewrite Z2Nat.id by exact Hq.
  pose proof (Z.mul_div_le n (width image) ltac:(lia)) as Hle.
  pose proof (Z.mul_succ_div_gt n (width image) ltac:(lia)) as Hgt.
  assert (Hstart : wrap32 (n / width image * width image) = n / width image * width image)
    by (unfold wrap32; apply Z.mod_small; lia).
  rewrite Hstart. fold n.
  destruct (Z.leb_spec (n / width image * width image + width image) n); [lia | reflexivity].
Qed.

(** X14. The rows that [create_gimp_image_from_qoi_image] hands to
    [gegl_buffer_set] for an image that [load_image] returned. When width
    times height is below 2^32, they are [height] rows of [width] pixels
    that lie inside the pixels of the image and make them up, in order.
    When width times height is 2^32 or more, some row reaches outside
    the block of the pixels, which holds fewer than 2^32 of them. *)
Theorem loaded_image_rows (max_size : Z) (file_data : list byte) (image : QoiImage) :
  load_image max_size file_data = Loaded image ->
  (width image * height image < 2 ^ 32 →
   ∃ rows,
     image_rows image = Some rows
     ∧ concat rows = pixels image
     ∧ Z.of_nat (length rows) = height image
     ∧ Forall (λ row, Z.of_nat (length row) = width image) rows)
  ∧ (2 ^ 32 <= width image * height image → image_rows image = None).
Proof.
  intros H. apply load_image_loaded in H.
  destruct H as (result & st & Hh & Hpos & Hs & Hn & Hc & Himage). cbv zeta in *.
  apply load_header_inr in Hh. destruct Hh as (_ & Hw & Hhe & _).
  assert (Ew : width result = width image) by (rewrite Himage; reflexivity).
  assert (Eh : height result = height image) by (rewrite Himage; reflexivity).
  assert (Hlen : Z.of_nat (length (pixels image)) = wrap32 (width image * height image))
    by (rewrite Himage; exact Hn).
  rewrite Ew, Eh in *. clear Himage Hs Hn Hc.
  pose proof (Z.mod_pos_bound (width image * height image) (2 ^ 32) eq_refl) as Hm.
  fold (wrap32 (width image * height image)) in Hm.
  split.
  - intros Hfit. apply image_rows_tile; try lia.
    rewrite Hlen. unfold wrap32. apply Z.mod_small.
    split; [apply Z.mul_nonneg_nonneg; lia | lia].
  - intros Hwrap. apply image_rows_outside; lia.
Qed.

(** * [get_qoi_image_from_gimp] *)

(** The rows that are left to write fill the rest of the block. *)
Lemma get_rows_fill (buffer : GeglBuffer) (width : Z) (n : nat) :
  ∀ (k : nat) (done rest : list QoiPixel),
    0 <= width ->
    Z.of_nat (length done) = Z.of_nat k * width ->
    Z.of_nat (length rest) = Z.of_nat n * width ->
    (Z.of_nat k + Z.of_nat n) * width < 2 ^ 32 ->
    (∀ y, Z.of_nat k <= y < Z.of_nat k + Z.of_nat n →
          Z.of_nat (length (gegl_buffer_get buffer y)) = width) ->
    get_rows buffer width (seq k n) (done ++ rest)
    = Some (done ++ concat (map (λ y : nat, gegl_buffer_get buffer (Z.of_nat y)) (seq k n))).
Proof.
  induction n as [|n IH]; intros k done rest Hw Hdone Hrest Hfit Hrows.
  - destruct rest; [reflexivity | cbn in Hrest; lia].
  - cbn [seq get_rows map concat].
    assert (Hstart : wrap32 (Z.of_nat k * width) = Z.of_nat k * width)
      by (unfold wrap32; apply Z.mod_small; nia).
    assert (Hrow : Z.of_nat (length (gegl_buffer_get buffer (Z.of_nat k))) = width)
      by (apply Hrows; lia).
    unfold store_row. rewrite Hstart, length_app.
    destruct (Z.leb_spec (Z.of_nat k * width
                          + Z.of_nat (length (gegl_buffer_get buffer (Z.of_nat k))))
                (Z.of_nat (length done + length rest))); [|nia].
    rewrite take_app_length' by lia.
    rewrite drop_app_add' by lia.
    rewrite (app_assoc done), (app_assoc done).
    apply IH; try assumption.
    + rewrite length_app. lia.
    + rewrite length_drop. lia.
    + lia.
    + intros y Hy. apply Hrows. lia.
Qed.

Lemma get_rows_length (buffer : GeglBuffer) (width : Z) (ys : list nat) :
  ∀ block block',
    get_rows buffer width ys block = Some block' -> length block' = length block.
Proof.
  induction ys as [|y ys IH]; intros block block' H; cbn [get_rows] in H.
  - injection H as <-. reflexivity.
  - unfold store_row in H.
    destruct (Z.leb_spec (wrap32 (Z.of_nat y * width)
                          + Z.of_nat (length (gegl_buffer_get buffer (Z.of_nat y))))
                (Z.of_nat (length block))) as [Hle|]; [|discriminate].
    apply IH in H. rewrite H, !length_app, length_take, length_drop.
    pose proof (Z.mod_pos_bound (Z.of_nat y * width) (2 ^ 32) eq_refl) as Hm.
    fold (wrap32 (Z.of_nat y * width)) in Hm. lia.
Qed.

(** X15. [get_qoi_image_from_gimp] on a buffer of [w] by [h] pixels,
    both at least 1 and with a product below 2^32, for one of the two
    colorspaces, when [gegl_buffer_get] writes [w] pixels for every row:
    the call returns [true], every pixel of the block has been written,
    the pixels are the rows of the buffer one after the other, as many as
    width times height, and the image has the width and height of the
    buffer and the colorspace and alpha flag of the options. *)
Theorem get_qoi_image_from_gimp_fills_pixels
    (buffer : GeglBuffer) (options : QoiExportOptions) (memory : nat → QoiPixel) :
  let w := gegl_buffer_get_width buffer in
  let h := gegl_buffer_get_height buffer in
  1 <= w ->
  1 <= h ->
  w * h < 2 ^ 32 ->
  o_colorspace options ≠ QOI_COLORSPACE_COUNT ->
  (∀ y, 0 <= y < h → Z.of_nat (length (gegl_buffer_get buffer y)) = w) ->
  ∃ image,
    get_qoi_image_from_gimp (Some buffer) options memory = GetDone image
    ∧ pixels image
      = concat (map (λ y : nat, gegl_buffer_get buffer (Z.of_nat y)) (seq 0 (Z.to_nat h)))
    ∧ Z.of_nat (length (pixels image)) = width image * height image
    ∧ width image = w
    ∧ height image = h
    ∧ colorspace image = o_colorspace options
    ∧ has_alpha image = export_alpha options.
Proof.
  intros w h Hw Hh Hfit Hcs Hrows.
  assert (Ew : wrap32 w = w) by (unfold wrap32; apply Z.mod_small; nia).
  assert (Eh : wrap32 h = h) by (unfold wrap32; apply Z.mod_small; nia).
  assert (Ec : wrap32 (w * h) = w * h) by (unfold wrap32; apply Z.mod_small; nia).
  assert (Hfill :
    get_rows buffer w (seq 0 (Z.to_nat h)) (map memory (seq 0 (Z.to_nat (w * h))))
    = Some (concat (map (λ y : nat, gegl_buffer_get buffer (Z.of_nat y))
                      (seq 0 (Z.to_nat h))))).
  { apply (get_rows_fill buffer w (Z.to_nat h) 0 [] (map memory (seq 0 (Z.to_nat (w * h))))).
    - lia.
    - reflexivity.
    - rewrite length_map, length_seq. nia.
    - lia.
    - intros y Hy. apply Hrows. lia. }
  pose proof (get_rows_length _ _ _ _ _ Hfill) as Hlen.
  rewrite length_map, length_seq in Hlen.
  unfold get_qoi_image_from_gimp. fold w h. cbv zeta. rewrite Ew, Eh, Ec, Hfill.
  destruct (Z.eqb_spec (w * h * 4) 0); [nia|].
  destruct (o_colorspace options); [| |congruence].
  all: eexists; split; [reflexivity|]; cbn [pixels width height colorspace has_alpha].
  all: split; [reflexivity|]; split; [rewrite Hlen; nia|]; repeat split.
Qed.

(** * Pixels that cannot be allocated *)

(** X16. For a file whose header passes the checks and whose width
    times height is 0 modulo 2^32 (65536 by 65536, for one),
    [g_try_malloc] is asked for no bytes and returns NULL: [load_image]
    reports "Failed to acquire storage for pixels.", whatever follows
    the header. *)
Theorem no_pixels_allocation_failure
    (max_size : Z) (file_data : list byte) (result : QoiImage) :
  load_header max_size file_data = inr result ->
  wrap32 (width result * height result) = 0 ->
  load_image max_size file_data = Rejected AllocationFailure.
Proof.
  intros Hh Hzero. unfold load_image. rewrite Hh. cbv zeta.
  destruct (Z.eqb_spec (wrap32 (width result * height result) * 4) 0) as [E|E].
  - reflexivity.
  - lia.
Qed.

(** * What [save_image] stores is a file that [load_image] accepts *)

(** A chunk of the encoder, read by the decoder in any state: the pass
    takes the bytes of the chunk and stores one pixel. *)
Lemma load_chunk_counts (kind : chunk_kind) (prev cur : QoiPixel) (pre rest : list byte)
    (max_pixel_index : Z) (dst : load_state) :
  chunk_in_range kind prev cur ->
  (8 <= length rest)%nat ->
  l_file_index dst = Z.of_nat (length pre) ->
  pixel_index dst < max_pixel_index ->
  (kind = OpIndex → take 8 (chunk_bytes kind prev cur ++ rest) ≠ QOI_END_MARKER) ->
  ∃ dst',
    load_chunk (pre ++ chunk_bytes kind prev cur ++ rest) max_pixel_index dst = Continue dst'
    ∧ l_file_index dst' = Z.of_nat (length pre + length (chunk_bytes kind prev cur))
    ∧ pixel_index dst' = pixel_index dst + 1.
Proof.
  intros Hrange Hrest Hidx Hpix Hmark.
  set (chunk := chunk_bytes kind prev cur) in *.
  assert (Hbyte : ∀ k, 0 <= k →
            byte_at (pre ++ chunk ++ rest) (l_file_index dst + k) = byte_at (chunk ++ rest) k).
  { intros k Hk. rewrite Hidx, Z.add_comm. apply byte_at_app, Hk. }
  assert (Hlen : (1 <= length chunk)%nat) by (subst chunk; destruct kind; cbn; try lia; easy).
  assert (Hsize : (file_size (pre ++ chunk ++ rest) <? l_file_index dst + QOI_END_MARKER_SIZE)
                  = false).
  { apply Z.ltb_ge. unfold file_size, QOI_END_MARKER_SIZE. rewrite !length_app. lia. }
  assert (Hmem : kind = OpIndex →
            memcmp_eq (pre ++ chunk ++ rest) (l_file_index dst) QOI_END_MARKER = false).
  { intros Hk. unfold memcmp_eq. apply bool_decide_eq_false.
    rewrite Hidx. rewrite <- (Z.add_0_l (Z.of_nat (length pre))).
    rewrite bytes_at_app by lia. exact (Hmark Hk). }
  assert (Htag : tag_kind (byte_at (pre ++ chunk ++ rest) (l_file_index dst)) = kind).
  { rewrite <- (Z.add_0_r (l_file_index dst)), Hbyte by lia. subst chunk.
    destruct kind; cbn [chunk_bytes app]; rewrite ?byte_at_0; cbv zeta;
      try reflexivity; cbn [chunk_in_range] in Hrange; cbv zeta in Hrange.
    - apply index_byte, qoi_pixel_hash_range.
    - apply diff_byte; lia.
    - apply (luma_bytes (u8 (red cur) - u8 (red prev)) (u8 (green cur) - u8 (green prev))
               (u8 (blue cur) - u8 (blue prev))); lia.
    - destruct Hrange. }
  rewrite load_chunk_unfold. cbv zeta. rewrite Hsize, Htag.
  assert (Hafter : ∀ n pixel, pixel_index (after n pixel dst) = pixel_index dst)
    by reflexivity.
  destruct kind; cbv zeta;
    try (rewrite store_and_cache_fits by (rewrite Hafter; exact Hpix);
         eexists; split; [reflexivity|];
         cbn [l_file_index after]; unfold pixel_index; cbn [l_pixels after];
         rewrite length_app; subst chunk; cbn [chunk_bytes length]; split; lia).
  - rewrite (Hmem eq_refl).
    rewrite store_pixels_fits by (rewrite Hafter; lia).
    eexists; split; [reflexivity|].
    cbn [l_file_index after]; unfold pixel_index; cbn [l_pixels after l_current_pixel].
    rewrite length_app, length_replicate. subst chunk; cbn [chunk_bytes length].
    split; lia.
  - destruct Hrange.
Qed.

(** One pass of the pixel loop, whatever the pixels are, and the passes
    of the decoder over the bytes that it stores. *)
Lemma save_pixel_follows (image : QoiImage) (fuel : nat) (st st1 st' : save_state)
    (dst : load_state) :
  let max_pixel_index := Z.of_nat (length (pixels image)) in
  0 <= s_pixel_index st < max_pixel_index ->
  follows st dst ->
  save_pixel image max_pixel_index st = Some st1 ->
  save_pixels image max_pixel_index fuel st1 = Some st' ->
  ∃ dst1,
    steps (s_file_data st' ++ QOI_END_MARKER) max_pixel_index dst dst1
    ∧ follows st1 dst1
    ∧ 0 <= s_pixel_index st1 <= max_pixel_index.
Proof.
  intros max_pixel_index Hidx (Hfile & Hpix) H1 H'.
  pose proof (save_kind_cases image st) as Hcases. cbv zeta in Hcases.
  pose proof (save_pixels_prefix _ _ _ _ _ H') as (more & Hmore).
  set (cur := pixel_at image (s_pixel_index st)) in *.
  set (kind := save_kind image st) in *.
  destruct (decide (kind = OpRun)) as [Hrun|Hrun].
  - (* a run *)
    rewrite Hrun in Hcases.
    destruct (run_length_exists image (s_previous_pixel st)
                (Z.to_nat (max_pixel_index - s_pixel_index st)) (s_pixel_index st))
      as (n & Hn & Hlen & Hsame & Hnext); [lia | lia | lia | symmetry; exact Hcases |].
    rewrite (save_pixel_run image max_pixel_index st n Hn Hlen Hsame Hnext) in H1.
    injection H1 as <-. cbn [s_file_data] in Hmore.
    set (q := (n - 1) / 62) in *. set (r := (n - 1) mod 62) in *.
    assert (Hq : 0 <= q) by (apply Z.div_pos; lia).
    assert (Hr : 0 <= r < 62) by (apply Z.mod_pos_bound; lia).
    assert (Hqr : 62 * Z.of_nat (Z.to_nat q) + r + 1 = n).
    { rewrite Z2Nat.id by exact Hq. subst q r. pose proof (Z.div_mod (n - 1) 62). lia. }
    pose proof (load_run_chunks max_pixel_index r (more ++ QOI_END_MARKER) (Z.to_nat q) Hr)
      as Hsteps.
    specialize (Hsteps ltac:(rewrite length_app; cbn [length QOI_END_MARKER]; lia)
                  (s_file_data st) (l_current_pixel dst) (l_array dst) (l_pixels dst)).
    rewrite Hqr in Hsteps. fold (pixel_index dst) in Hsteps.
    specialize (Hsteps ltac:(lia)).
    rewrite <- Hfile in Hsteps.
    replace {| l_file_index := l_file_index dst; l_current_pixel := l_current_pixel dst;
               l_array := l_array dst; l_pixels := l_pixels dst |} with dst in Hsteps
      by (destruct dst; reflexivity).
    eexists. split; [|split].
    + rewrite Hmore, <- !app_assoc. exact Hsteps.
    + split.
      * cbn [l_file_index s_file_data]. rewrite !length_app, length_replicate.
        cbn [length]. lia.
      * unfold pixel_index in *. cbn [l_pixels s_pixel_index].
        rewrite length_app, length_replicate. lia.
    + cbn [s_pixel_index]. lia.
  - (* a chunk for one pixel *)
    rewrite save_pixel_unfold in H1. cbv zeta in H1. fold cur kind in H1.
    assert (Hst1 : s_file_data st1 = s_file_data st ++ chunk_bytes kind (s_previous_pixel st) cur
                   ∧ s_pixel_index st1 = s_pixel_index st + 1
                   ∧ s_previous_pixel st1 = cur).
    { destruct kind; try congruence; injection H1 as <-; repeat split. }
    destruct Hst1 as (Hdata1 & Hidx1 & Hprev1). rewrite Hdata1 in Hmore.
    destruct (load_chunk_counts kind (s_previous_pixel st) cur (s_file_data st)
                (more ++ QOI_END_MARKER) max_pixel_index dst) as (dst1 & Hstep & Hi1 & Hp1).
    + destruct kind; cbn [chunk_in_range]; cbv zeta; try exact I; try congruence;
        apply Hcases.
    + rewrite length_app. cbn [length QOI_END_MARKER]. lia.
    + exact Hfile.
    + lia.
    + intros Hindex. rewrite Hindex in *. cbn [chunk_bytes].
      apply index_chunk_not_end_marker; [apply qoi_pixel_hash_range|].
      intros Hzero. destruct Hcases as (_ & Hhit). rewrite Hzero in Hhit.
      assert (Hslot : s_array st1 !!! 0%nat = s_previous_pixel st1).
      { rewrite Hprev1. injection H1 as <-. cbn [s_array]. exact Hhit. }
      destruct (save_pixels_first_byte image max_pixel_index fuel st1 st' Hslot H')
        as [Hd|(b & more' & Hd & Hb)]; rewrite Hdata1 in Hd; cbn [chunk_bytes] in Hd;
        rewrite Hd in Hmore.
      * left. rewrite <- (app_nil_r (_ ++ _)) in Hmore at 1.
        apply app_inv_head in Hmore. symmetry. exact Hmore.
      * right. apply app_inv_head in Hmore. exists b, more'. split; [symmetry; exact Hmore|].
        exact Hb.
    + exists dst1. split; [|split].
      * apply steps_one; [lia|]. rewrite Hmore, <- !app_assoc. exact Hstep.
      * split; [rewrite Hi1, Hdata1, length_app; reflexivity | lia].
      * lia.
Qed.

Lemma save_pixels_follows (image : QoiImage) (fuel : nat) :
  let max_pixel_index := Z.of_nat (length (pixels image)) in
  ∀ st st' dst,
    0 <= s_pixel_index st <= max_pixel_index ->
    follows st dst ->
    save_pixels image max_pixel_index fuel st = Some st' ->
    ∃ dst',
      steps (s_file_data st' ++ QOI_END_MARKER) max_pixel_index dst dst'
      ∧ follows st' dst'
      ∧ s_pixel_index st' = max_pixel_index.
Proof.
  intros max_pixel_index.
  induction fuel as [|fuel IH]; intros st st' dst Hidx Hf H; cbn [save_pixels] in H;
    destruct (Z.ltb_spec (s_pixel_index st) max_pixel_index) as [Hlt|Hge];
    try discriminate;
    try (injection H as <-; exists dst; split; [apply steps_refl | split; [exact Hf | lia]]).
  destruct (save_pixel image max_pixel_index st) as [st1|] eqn:H1; [|discriminate].
  destruct (save_pixel_follows image fuel st st1 st' dst ltac:(lia) Hf H1 H)
    as (dst1 & Hsteps & Hf1 & Hidx1).
  destruct (IH st1 st' dst1 Hidx1 Hf1 H) as (dst' & Hrest & Hf' & Hend).
  exists dst'. split; [exact (steps_trans _ _ _ _ _ Hsteps Hrest) | split; assumption].
Qed.

(** X17. What [save_image] stores is a file that [load_image] accepts,
    whatever the pixels and the alpha flag are: for an image with width
    and height between 1 and the maximum, as many pixels as width times
    height, 14 + width * height * 5 + 8 below 2^31 and one of the two
    colorspaces, [load_image] returns an image of the same width, height,
    colorspace and alpha flag, with as many pixels. (The pixels
    themselves are those of the image under the conditions of C1.) *)
Theorem saved_file_is_accepted (max_size : Z) (image : QoiImage) :
  claimed_valid max_size image ->
  14 + width image * height image * 5 + 8 < 2 ^ 31 ->
  colorspace image ≠ QOI_COLORSPACE_COUNT ->
  ∃ file_data loaded,
    save_image image = Saved file_data
    ∧ load_image max_size file_data = Loaded loaded
    ∧ width loaded = width image
    ∧ height loaded = height image
    ∧ colorspace loaded = colorspace image
    ∧ has_alpha loaded = has_alpha image
    ∧ length (pixels loaded) = length (pixels image).
Proof.
  intros (Hw & Hh & Hlen) Hfit Hcs. change (2 ^ 31) with 2147483648 in Hfit.
  assert (Hmax : wrap32 (width image * height image) = Z.of_nat (length (pixels image))).
  { rewrite Hlen. unfold wrap32. apply Z.mod_small. change (2 ^ 32) with 4294967296. nia. }
  destruct (save_image_saved image) as (chunks & Hsave & Hbytes);
    [nia | change (2 ^ 31) with 2147483648; lia |].
  unfold save_bytes in Hbytes. rewrite Hmax in Hbytes.
  destruct (save_pixels image _ _ _) as [st'|] eqn:Hpixels; [|discriminate].
  apply (inj Some) in Hbytes. rename Hbytes into Hdata.
  rewrite app_assoc in Hdata. apply app_inv_tail in Hdata.
  assert (Hstart : 0 <= s_pixel_index (save_start (header_store (save_header image)))
                   <= Z.of_nat (length (pixels image)))
    by (cbn [save_start s_pixel_index]; lia).
  assert (Hfollows : follows (save_start (header_store (save_header image)))
                       (load_start QOI_HEADER_SIZE)) by (split; reflexivity).
  destruct (save_pixels_follows image _ _ _ _ Hstart Hfollows Hpixels)
    as (dst' & Hsteps & (Hi' & Hp') & Hend).
  rewrite Hdata, <- app_assoc in Hsteps.
  eexists _, _. split; [exact Hsave|].
  unfold load_image.
  rewrite load_header_saved by (assumption || (change (2 ^ 32) with 4294967296; nia)).
  cbn [width height colorspace has_alpha]. rewrite Hmax.
  destruct (Z.eqb_spec (Z.of_nat (length (pixels image)) * 4) 0) as [E|_]; [nia|].
  rewrite (steps_load_chunks _ _ _ _ Hsteps).
  - rewrite app_assoc, check_end_marker_saved by (rewrite Hi', Hdata; reflexivity).
    split; [reflexivity|]. cbn [width height colorspace has_alpha pixels].
    repeat split. unfold pixel_index in Hp'. lia.
  - lia.
  - unfold pixel_index, load_start. cbn [l_pixels length]. lia.
Qed.

(** * Literal chunks and runs, decoded *)

(** X18. What a pass of the chunk loop does with a literal chunk and
    with a run, when it has its eight bytes and a pixel is missing. The
    tag 0xFE takes four bytes: the pixel has the three bytes that follow
    as red, green and blue and the alpha of the pixel before. The tag
    0xFF takes five bytes, the last one the alpha. Both store the pixel
    and write it to the slot of its hash. A run is a byte with the top
    bits 11 other than these two tags: it stands for 1 to 62 pixels, and
    when they fit it stores the pixel before as many times and leaves
    [array] as it is. *)
Theorem literal_and_run_chunks_decode
    (file_data : list byte) (max_pixel_index : Z) (st : load_state) :
  let i := l_file_index st in
  let b := byte_at file_data in
  let previous := l_current_pixel st in
  let stored (n : Z) (pixel : QoiPixel) :=
    Continue {| l_file_index := i + n;
                l_current_pixel := pixel;
                l_array := <[Z.to_nat (qoi_pixel_hash pixel) := pixel]> (l_array st);
                l_pixels := l_pixels st ++ [pixel] |} in
  i + QOI_END_MARKER_SIZE <= file_size file_data ->
  pixel_index st < max_pixel_index ->
  (u8 (b i) = QOI_OP_RGB →
   load_chunk file_data max_pixel_index st
   = stored 4 {| red := b (i + 1); green := b (i + 2); blue := b (i + 3);
                 alpha := alpha previous |})
  ∧ (u8 (b i) = QOI_OP_RGBA →
     load_chunk file_data max_pixel_index st
     = stored 5 {| red := b (i + 1); green := b (i + 2); blue := b (i + 3);
                   alpha := b (i + 4) |})
  ∧ (tag_kind (b i) = OpRun →
     let run := Z.land (u8 (b i)) 0x3F + 1 in
     1 <= run <= 62
     ∧ (pixel_index st + run <= max_pixel_index →
        load_chunk file_data max_pixel_index st
        = Continue {| l_file_index := i + 1;
                      l_current_pixel := previous;
                      l_array := l_array st;
                      l_pixels := l_pixels st ++ replicate (Z.to_nat run) previous |})).
Proof.
  intros i b previous stored Hsize Hidx. subst i b previous stored. cbv beta.
  rewrite load_chunk_unfold. cbv zeta.
  destruct (Z.ltb_spec (file_size file_data) (l_file_index st + QOI_END_MARKER_SIZE)); [lia|].
  assert (Hafter : ∀ n pixel, pixel_index (after n pixel st) = pixel_index st)
    by reflexivity.
  split; [|split].
  - intros Htag.
    assert (Hk : tag_kind (byte_at file_data (l_file_index st)) = OpRgb)
      by (unfold tag_kind; rewrite Htag; reflexivity).
    rewrite Hk, store_and_cache_fits by (rewrite Hafter; exact Hidx). reflexivity.
  - intros Htag.
    assert (Hk : tag_kind (byte_at file_data (l_file_index st)) = OpRgba)
      by (unfold tag_kind; rewrite Htag; reflexivity).
    rewrite Hk, store_and_cache_fits by (rewrite Hafter; exact Hidx). reflexivity.
  - intros Hk. pose proof (tag_kind_run_length _ Hk) as Hrun.
    split; [exact Hrun|]. intros Hfits. rewrite Hk.
    destruct (Z.gtb_spec (pixel_index st)
                (max_pixel_index + (Z.land (u8 (byte_at file_data (l_file_index st))) 63 + 1)));
      [lia|].
    rewrite store_pixels_fits by (rewrite Hafter; exact Hfits). reflexivity.
Qed.

(** * The loops end *)

(** X19. Both loops end on every input: the chunk loop of [load_image]
    stores a pixel at least in every pass, and the pixel loop of
    [save_image] moves a pixel forward at least in every pass, so that
    neither needs more passes than there are pixels. *)
Theorem loops_terminate :
  (∀ max_size file_data, load_image max_size file_data ≠ LoadFuel)
  ∧ (∀ image, save_image image ≠ SaveFuel).
Proof.
  split; [exact load_image_fuel|].
  intros image. unfold save_image.
  destruct (save_bytes_total image) as (chunks & -> & _).
  destruct (_ =? 0); [discriminate|].
  destruct (_ <=? _); [destruct (_ <? _)|]; discriminate.
Qed.

(** * The further properties on small inputs *)

Lemma loaded_image_well_formed_sample :
  load_image 524288 file_one_pixel = Loaded image_one_pixel
  ∧ bytes_at file_one_pixel (file_size file_one_pixel - 8) 8 = QOI_END_MARKER
  ∧ file_size file_one_pixel - 22 <= 5 * Z.of_nat (length (pixels image_one_pixel)).
Proof.
  assert (H : load_image 524288 file_one_pixel = Loaded image_one_pixel)
    by (vm_compute; reflexivity).
  destruct (loaded_image_well_formed 524288 file_one_pixel image_one_pixel H)
    as (_ & _ & _ & _ & _ & Hm & _ & Hs).
  split; [exact H|]. split; [exact Hm | exact Hs].
Defined.

Lemma store_out_of_bounds_iff_run_overrun_sample :
  load_chunk file_run_overrun 1 (load_start 14) = StoreOutOfBounds.
Proof.
  apply (store_out_of_bounds_iff_run_overrun file_run_overrun 1 (load_start 14)).
  - vm_compute. reflexivity.
  - split; [vm_compute; discriminate|]. split; vm_compute; reflexivity.
Defined.

Lemma load_chunk_reads_checked_bytes_sample :
  load_chunk file_one_pixel 1 (load_start 14)
  = load_chunk (file_one_pixel ++ [Byte.x2a]) 1 (load_start 14).
Proof.
  apply (load_chunk_reads_checked_bytes file_one_pixel (file_one_pixel ++ [Byte.x2a]) 1
           (load_start 14)).
  - vm_compute. discriminate.
  - vm_compute. discriminate.
  - vm_compute. discriminate.
  - vm_compute. reflexivity.
Defined.

Lemma trailing_data_rejected_sample :
  load_image 524288 (file_one_pixel ++ [Byte.x00]) = Rejected TrailingData.
Proof.
  apply (trailing_data_rejected 524288 file_one_pixel [Byte.x00] image_one_pixel).
  - vm_compute. reflexivity.
  - discriminate.
Defined.

Lemma truncated_file_rejected_sample :
  load_image 524288 (take 25 file_one_pixel) = Rejected UnexpectedEof
  ∧ load_image 524288 (take 13 file_one_pixel) = Rejected UnexpectedEof.
Proof.
  split.
  - apply (truncated_file_rejected 524288 file_one_pixel image_one_pixel 25).
    + vm_compute. reflexivity.
    + vm_compute. lia.
    + right. lia.
  - apply (truncated_file_rejected 524288 file_one_pixel image_one_pixel 13).
    + vm_compute. reflexivity.
    + vm_compute. lia.
    + left. lia.
Defined.

Lemma save_image_succeeds_sample :
  ∃ chunks,
    save_image sample_rgba
    = Saved (header_store (save_header sample_rgba) ++ chunks ++ QOI_END_MARKER)
    ∧ Z.of_nat (length chunks) <= 30.
Proof.
  destruct (save_image_succeeds sample_rgba) as (chunks & H & _ & Hl).
  - reflexivity.
  - vm_compute. reflexivity.
  - exists chunks. split; [exact H | exact Hl].
Defined.

Lemma save_image_without_pixels_sample :
  save_image image_no_pixels
  = Saved (header_store (save_header image_no_pixels) ++ QOI_END_MARKER)
  ∧ ∃ e, load_image 524288 (header_store (save_header image_no_pixels) ++ QOI_END_MARKER)
         = Rejected e.
Proof.
  destruct (save_image_without_pixels 524288 image_no_pixels) as (H & _ & e & He & _).
  - vm_compute. split; [discriminate | reflexivity].
  - vm_compute. split; [discriminate | reflexivity].
  - reflexivity.
  - split; [exact H | exists e; exact He].
Defined.

Lemma saved_header_read_back_sample :
  load_header 524288 (header_store (save_header sample_rgba) ++ QOI_END_MARKER)
  = inr {| pixels := [];
           width := 3;
           height := 2;
           colorspace := QOI_COLORSPACE_LINEAR;
           has_alpha := true |}.
Proof.
  destruct (saved_header_read_back 524288 sample_rgba QOI_END_MARKER) as (_ & _ & H).
  - vm_compute. split; [discriminate | reflexivity].
  - vm_compute. split; [discriminate | reflexivity].
  - destruct (H ltac:(discriminate)) as (_ & Hok). apply Hok.
    + vm_compute. split; discriminate.
    + vm_compute. split; discriminate.
Defined.

Lemma saved_header_layout_sample :
  ∃ w0 w1 w2 w3 h0 h1 h2 h3,
    take 12 (header_store (save_header sample_rgba))
    = [Byte.x71; Byte.x6f; Byte.x69; Byte.x66; w0; w1; w2; w3; h0; h1; h2; h3]
    ∧ big_endian w0 w1 w2 w3 = 3
    ∧ big_endian h0 h1 h2 h3 = 2.
Proof.
  destruct (saved_header_layout sample_rgba)
    as (w0 & w1 & w2 & w3 & h0 & h1 & h2 & h3 & H & Hw & Hh).
  - vm_compute. split; [discriminate | reflexivity].
  - vm_compute. split; [discriminate | reflexivity].
  - exists w0, w1, w2, w3, h0, h1, h2, h3. rewrite H. split; [reflexivity|].
    split; [exact Hw | exact Hh].
Defined.

Lemma loaded_image_rows_sample :
  ∃ image,
    load_image 524288 file_wrapped_size = Loaded image
    ∧ 2 ^ 32 <= width image * height image
    ∧ Z.of_nat (length (pixels image)) = 4
    ∧ image_rows image = None.
Proof.
  eexists. split; [vm_compute; reflexivity|].
  split; [vm_compute; discriminate|]. split; [reflexivity|].
  refine (proj2 (loaded_image_rows 524288 file_wrapped_size _ _) _).
  - vm_compute. reflexivity.
  - vm_compute. discriminate.
Defined.

Lemma get_qoi_image_from_gimp_fills_pixels_sample :
  ∃ image,
    get_qoi_image_from_gimp (Some buffer_2x2)
      {| o_colorspace := QOI_COLORSPACE_SRGB; export_alpha := true |} (λ _, zero_pixel)
    = GetDone image
    ∧ pixels image = [px 0 0 0 255; px 0 1 0 255; px 1 0 0 255; px 1 1 0 255].
Proof.
  destruct (get_qoi_image_from_gimp_fills_pixels buffer_2x2
              {| o_colorspace := QOI_COLORSPACE_SRGB; export_alpha := true |}
              (λ _, zero_pixel))
    as (image & H & Hp & _).
  - vm_compute. discriminate.
  - vm_compute. discriminate.
  - vm_compute. reflexivity.
  - discriminate.
  - intros y Hy. reflexivity.
  - exists image. split; [exact H | exact Hp].
Defined.

Lemma no_pixels_allocation_failure_sample :
  load_image 524288 file_no_pixels = Rejected AllocationFailure.
Proof.
  apply (no_pixels_allocation_failure 524288 file_no_pixels
           {| pixels := []; width := 65536; height := 65536;
              colorspace := QOI_COLORSPACE_SRGB; has_alpha := true |}).
  - vm_compute. reflexivity.
  - vm_compute. reflexivity.
Defined.

Lemma saved_file_is_accepted_sample :
  ∃ file_data loaded,
    save_image image_rgb_translucent = Saved file_data
    ∧ load_image 524288 file_data = Loaded loaded
    ∧ length (pixels loaded) = 3%nat.
Proof.
  destruct (saved_file_is_accepted 524288 image_rgb_translucent)
    as (file_data & loaded & Hs & Hl & _ & _ & _ & _ & Hn).
  - unfold claimed_valid. cbn. lia.
  - vm_compute. reflexivity.
  - discriminate.
  - exists file_data, loaded. split; [exact Hs|]. split; [exact Hl | exact Hn].
Defined.

Lemma literal_and_run_chunks_decode_sample :
  load_chunk sample_run_file 5 (load_start 0)
  = Continue {| l_file_index := 1;
                l_current_pixel := start_pixel;
                l_array := replicate 64 zero_pixel;
                l_pixels := [start_pixel; start_pixel; start_pixel] |}.
Proof.
  destruct (literal_and_run_chunks_decode sample_run_file 5 (load_start 0)) as (_ & _ & H).
  - vm_compute. discriminate.
  - vm_compute. reflexivity.
  - destruct (H eq_refl) as (_ & Hrun). apply Hrun. vm_compute. discriminate.
Defined.
